(** * ContextSubstrate: the content-addressed store, pack manifests, replay,
      delta and optimizer, embedded from the Go sources.

    Go strings and byte slices are [string] (a sequence of 8-bit characters),
    Go [int] values are [Z], Go maps are [gmap] where the code only looks keys
    up and association lists kept in key order where the code serialises them.
    The file system below a store root is a record of finite maps from paths
    to file contents; failures of the operating system other than a missing
    file (permissions, full disks) are outside the embedding. *)

From Stdlib Require Import ZArith NArith String Ascii List Bool Lia Floats.
From stdpp Require Import gmap strings list sorting.
Import ListNotations.

Local Open Scope list_scope.

(** ** Errors and results *)

(** Every [fmt.Errorf] site of the modelled code has a constructor; the
    arguments are the values formatted into the message. *)
Inductive error : Type :=
  | ErrMissingPrefix (ref : string)      (* invalid hash reference: expected sha256: prefix, got %q *)
  | ErrHexLength (n : nat)               (* invalid hash reference: expected 64 hex chars, got %d *)
  | ErrBadHex                            (* invalid hash reference: bad hex encoding: %w *)
  | ErrInvalidReference (ref : string)   (* invalid hash reference: %q *)
  | ErrInvalidHash (ref : string)        (* invalid hash: %q *)
  | ErrPrefixNotHex (ref : string)       (* invalid hash prefix: %q is not valid hex *)
  | ErrPrefixTooShort (n : nat)          (* hash prefix too short: need at least 4 characters, got %d *)
  | ErrNoPacks                           (* no packs found *)
  | ErrNoPackWithPrefix (ref : string)   (* no pack found with prefix %q *)
  | ErrAmbiguous (ref : string) (n : nat)(* ambiguous hash prefix %q: matches %d packs *)
  | ErrHexTooShort (hexStr : string)     (* hash hex too short: %q *)
  | ErrBlobNotFound (short : string)     (* blob not found: %s *)
  | ErrIntegrity (expected actual : string) (* blob integrity check failed: expected %s, got %s *)
  | ErrPackNotFound (short : string)     (* pack not found: %s *)
  | ErrSyntax                            (* an error of encoding/json *)
  | ErrDraftNoParent                     (* draft has no parent reference *)
  | ErrNotExist                          (* fs.ErrNotExist *)
  | ErrExist                             (* fs.ErrExist *)
  | ErrLine (n : nat) (e : error)        (* parsing line %d of %s: %w *)
  | ErrExecutor (msg : string)           (* an error returned by a tool executor *)
  | ErrPanic                             (* a run-time panic: slice bounds out of range *)
  | ErrWrap (context : string) (e : error)  (* <context>: %w *)
  | ErrWrapAt (context : string) (i : nat) (e : error). (* <context> %d: %w *)

Inductive result (A : Type) : Type :=
  | Ok (a : A)
  | Err (e : error).
Arguments Ok {A} a.
Arguments Err {A} e.

Definition is_ok {A} (r : result A) : bool :=
  match r with Ok _ => true | Err _ => false end.

(** Go's [if err != nil { return ..., err }] chains are the error monad. *)
Global Instance result_ret : MRet result := fun A a => Ok a.
Global Instance result_bind : MBind result := fun A B k r =>
  match r with
  | Ok a => k a
  | Err e => Err e
  end.

(** ** Strings as Go uses them *)

(** [s[n:]] and [s[:n]] for [n <= len(s)]. *)
Fixpoint string_drop (n : nat) (s : string) : string :=
  match n, s with
  | O, _ => s
  | S n', String _ s' => string_drop n' s'
  | S _, EmptyString => EmptyString
  end.

Fixpoint string_take (n : nat) (s : string) : string :=
  match n, s with
  | S n', String c s' => String c (string_take n' s')
  | _, _ => EmptyString
  end.

(** [strings.HasPrefix]. *)
Fixpoint HasPrefix (s prefix : string) {struct prefix} : bool :=
  match prefix, s with
  | EmptyString, _ => true
  | String a prefix', String b s' => Ascii.eqb a b && HasPrefix s' prefix'
  | String _ _, EmptyString => false
  end.

Fixpoint string_forallb (p : ascii -> bool) (s : string) : bool :=
  match s with
  | EmptyString => true
  | String c s' => p c && string_forallb p s'
  end.

Definition in_range (lo hi : N) (c : ascii) : bool :=
  let n := N_of_ascii c in ((lo <=? n) && (n <=? hi))%N.

Definition is_digit (c : ascii) : bool := in_range 48 57 c.
Definition is_lower_hex (c : ascii) : bool := is_digit c || in_range 97 102 c.
Definition is_upper (c : ascii) : bool := in_range 65 90 c.
Definition is_hex_char (c : ascii) : bool := is_lower_hex c || in_range 65 70 c.

(** ** crypto/sha256 and encoding/hex *)

Module Sha256.
Local Open Scope N_scope.

Definition mod32 (x : N) : N := x mod 4294967296.
Definition add32 (x y : N) : N := mod32 (x + y).
Definition rotr (n x : N) : N := N.lor (N.shiftr x n) (mod32 (N.shiftl x (32 - n))).
Definition not32 (x : N) : N := N.lxor x 4294967295.

Definition Ch (x y z : N) : N := N.lxor (N.land x y) (N.land (not32 x) z).
Definition Maj (x y z : N) : N := N.lxor (N.lxor (N.land x y) (N.land x z)) (N.land y z).
Definition Sigma0 (x : N) : N := N.lxor (N.lxor (rotr 2 x) (rotr 13 x)) (rotr 22 x).
Definition Sigma1 (x : N) : N := N.lxor (N.lxor (rotr 6 x) (rotr 11 x)) (rotr 25 x).
Definition sigma0 (x : N) : N := N.lxor (N.lxor (rotr 7 x) (rotr 18 x)) (N.shiftr x 3).
Definition sigma1 (x : N) : N := N.lxor (N.lxor (rotr 17 x) (rotr 19 x)) (N.shiftr x 10).

(** The round constants and the initial state are the first 32 bits of the
    fractional parts of the cube roots of the first 64 primes and of the
    square roots of the first 8. *)
Definition is_prime (n : nat) : bool :=
  forallb (fun d => negb (n mod d =? 0)%nat) (seq 2 (n - 2)).

Definition primes : list N := map N.of_nat (filter (fun n => is_prime n = true) (seq 2 310)).

(** The integer cube root, one bit at a time from bit [bits - 1] down. *)
Fixpoint cube_root (bits : nat) (x r : N) : N :=
  match bits with
  | O => r
  | S b =>
      let r' := r + 2 ^ N.of_nat b in
      cube_root b x (if r' * r' * r' <=? x then r' else r)
  end.

Definition K : list N := map (fun p => mod32 (cube_root 36 (p * 2 ^ 96) 0)) primes.

Record state : Type := St { sa : N; sb : N; sc : N; sd : N; se : N; sf : N; sg : N; sh : N }.

Definition H0 : state :=
  let h (i : nat) := mod32 (N.sqrt (nth i primes 0 * 2 ^ 64)) in
  St (h 0%nat) (h 1%nat) (h 2%nat) (h 3%nat) (h 4%nat) (h 5%nat) (h 6%nat) (h 7%nat).

(** Big-endian 32-bit words of a block of bytes. *)
Fixpoint words (bs : list N) : list N :=
  match bs with
  | b0 :: b1 :: b2 :: b3 :: r => (((b0 * 256 + b1) * 256 + b2) * 256 + b3) :: words r
  | _ => []
  end.

(** The message schedule, newest word first: [rev_w] is W[t-1], W[t-2], ... *)
Fixpoint schedule (n : nat) (rev_w : list N) : list N :=
  match n with
  | O => rev_w
  | S n' =>
      let w := add32 (add32 (sigma1 (nth 1 rev_w 0)) (nth 6 rev_w 0))
                     (add32 (sigma0 (nth 14 rev_w 0)) (nth 15 rev_w 0)) in
      schedule n' (w :: rev_w)
  end.

Definition round (s : state) (kw : N * N) : state :=
  let '(k, w) := kw in
  let t1 := add32 (add32 (add32 (add32 (sh s) (Sigma1 (se s))) (Ch (se s) (sf s) (sg s))) k) w in
  let t2 := add32 (Sigma0 (sa s)) (Maj (sa s) (sb s) (sc s)) in
  St (add32 t1 t2) (sa s) (sb s) (sc s) (add32 (sd s) t1) (se s) (sf s) (sg s).

Definition compress (s : state) (block : list N) : state :=
  let w := rev (schedule 48 (rev (words block))) in
  let r := fold_left round (combine K w) s in
  St (add32 (sa s) (sa r)) (add32 (sb s) (sb r)) (add32 (sc s) (sc r)) (add32 (sd s) (sd r))
     (add32 (se s) (se r)) (add32 (sf s) (sf r)) (add32 (sg s) (sg r)) (add32 (sh s) (sh r)).

Fixpoint be_bytes (n : nat) (x : N) : list N :=
  match n with
  | O => []
  | S n' => be_bytes n' (x / 256) ++ [x mod 256]
  end.

Definition pad (msg : list N) : list N :=
  let len := N.of_nat (length msg) in
  let zeros := N.to_nat ((119 - len mod 64) mod 64) in
  msg ++ [128] ++ repeat 0 zeros ++ be_bytes 8 (8 * len).

Fixpoint blocks (n : nat) (s : state) (bs : list N) : state :=
  match n with
  | O => s
  | S n' => blocks n' (compress s (firstn 64 bs)) (skipn 64 bs)
  end.

(** [sha256.Sum256], as the eight words of the digest. *)
Definition Sum256 (data : string) : state :=
  let p := pad (map N_of_ascii (list_ascii_of_string data)) in
  blocks (length p / 64) H0 p.

End Sha256.

Module hex.
Local Open Scope N_scope.

Definition digit (n : N) : ascii := ascii_of_N (if n <? 10 then 48 + n else 87 + n).

Fixpoint of_word (digits : nat) (x : N) : string :=
  match digits with
  | O => EmptyString
  | S d => of_word d (x / 16) +:+ String (digit (x mod 16)) EmptyString
  end.

(** [hex.EncodeToString] of the 32 digest bytes. *)
Definition EncodeToString (s : Sha256.state) : string :=
  of_word 8 (Sha256.sa s) +:+ of_word 8 (Sha256.sb s) +:+ of_word 8 (Sha256.sc s) +:+
  of_word 8 (Sha256.sd s) +:+ of_word 8 (Sha256.se s) +:+ of_word 8 (Sha256.sf s) +:+
  of_word 8 (Sha256.sg s) +:+ of_word 8 (Sha256.sh s).

(** Whether [hex.DecodeString] succeeds: an even number of characters, each
    of them one of 0-9, a-f, A-F. *)
Definition decodable (s : string) : bool :=
  Nat.even (String.length s) && string_forallb is_hex_char s.

End hex.

(** ** internal/store: hash references *)

Module store.

Definition hashPrefix : string := "sha256:".

(** HashContent computes the SHA-256 hash of data and returns it in
    "sha256:<hex>" format. *)
Definition HashContent (data : string) : string :=
  hashPrefix +:+ hex.EncodeToString (Sha256.Sum256 data).

(** ParseHash splits a "sha256:<hex>" reference into its algorithm and hex
    parts. *)
Definition ParseHash (ref : string) : result (string * string) :=
  if negb (HasPrefix ref hashPrefix) then Err (ErrMissingPrefix ref)
  else
    let hexStr := string_drop (String.length hashPrefix) ref in
    if negb (String.length hexStr =? 64)%nat then Err (ErrHexLength (String.length hexStr))
    else if negb (hex.decodable hexStr) then Err ErrBadHex
    else Ok ("sha256", hexStr).

Definition ValidateHash (ref : string) : bool := is_ok (ParseHash ref).

(** NormalizeHash accepts either "sha256:<hex>" or plain "<hex>" and returns
    "sha256:<hex>". *)
Definition NormalizeHash (ref : string) : result string :=
  if HasPrefix ref hashPrefix then
    if negb (ValidateHash ref) then Err (ErrInvalidReference ref) else Ok ref
  else
    let full := hashPrefix +:+ ref in
    if negb (ValidateHash full) then Err (ErrInvalidHash ref) else Ok full.

(** ShortHash returns the first n characters of the hex portion of a hash
    reference. *)
Definition ShortHash (ref : string) (n : nat) : string :=
  match ParseHash ref with
  | Err _ => ref
  | Ok (_, hexStr) =>
      let n := if (String.length hexStr <? n)%nat then String.length hexStr else n in
      string_take n hexStr
  end.

Definition stripCtxPrefix (ref : string) : string :=
  let ctxPrefix := "ctx://" in
  if HasPrefix ref ctxPrefix then string_drop (String.length ctxPrefix) ref else ref.

Definition isHexString (s : string) : bool :=
  if (String.length s =? 0)%nat then false else string_forallb is_hex_char s.

(** *** The store below a root directory

    [objects] maps the path of a blob file, relative to the root, to its
    bytes; [packs] is the packs/ directory (file name to contents), [None]
    when the directory does not exist; [drafts] is the drafts/ directory. *)
Record Store : Type := mkStore {
  objects : gmap string string;
  packs : option (gmap string string);
  drafts : gmap string string
}.

Definition set_objects (s : Store) (o : gmap string string) : Store :=
  mkStore o (packs s) (drafts s).
Definition set_packs (s : Store) (p : option (gmap string string)) : Store :=
  mkStore (objects s) p (drafts s).

(** [os.ReadDir] on packs/: the names of its entries. *)
Definition ReadDir_packs (s : Store) : result (list string) :=
  match packs s with
  | None => Err ErrNotExist
  | Some dir => Ok (map fst (map_to_list dir))
  end.

(** ResolveHash accepts a full hash, short hex prefix, or ctx:// URI and
    resolves it to a full "sha256:<hex>" reference by searching the packs
    index. *)
Definition ResolveHash (s : Store) (ref : string) : result string :=
  let ref := stripCtxPrefix ref in
  match NormalizeHash ref with
  | Ok normalized => Ok normalized
  | Err _ =>
      if negb (isHexString ref) then Err (ErrPrefixNotHex ref)
      else if (String.length ref <? 4)%nat then Err (ErrPrefixTooShort (String.length ref))
      else
        match ReadDir_packs s with
        | Err _ => Err ErrNoPacks
        | Ok entries =>
            let matches :=
              map (fun name => hashPrefix +:+ name)
                  (filter (fun name => HasPrefix name ref = true) entries) in
            match matches with
            | [] => Err (ErrNoPackWithPrefix ref)
            | [m] => Ok m
            | _ => Err (ErrAmbiguous ref (length matches))
            end
        end
  end.

(** *** Blobs *)

(** blobPath returns the path of a blob below the store root, with a 2-char
    prefix subdirectory: objects/ab/cdef1234... *)
Definition blobPath (ref : string) : result string :=
  '(_, hexStr) ← ParseHash ref;
  if (String.length hexStr <? 2)%nat then Err (ErrHexTooShort hexStr)
  else Ok ("objects/" +:+ string_take 2 hexStr +:+ "/" +:+ string_drop 2 hexStr).

(** WriteBlob stores content in the object store and returns the content
    hash; an existing blob file is never overwritten. *)
Definition WriteBlob (s : Store) (data : string) : Store * result string :=
  let ref := HashContent data in
  match blobPath ref with
  | Err e => (s, Err (ErrWrap "computing blob path" e))
  | Ok path =>
      match objects s !! path with
      | Some _ => (s, Ok ref)
      | None => (set_objects s (<[path := data]> (objects s)), Ok ref)
      end
  end.

(** ReadBlob reads a blob from the object store and verifies its integrity. *)
Definition ReadBlob (s : Store) (ref : string) : result string :=
  path ← blobPath ref;
  match objects s !! path with
  | None => Err (ErrBlobNotFound (ShortHash ref 12))
  | Some data =>
      let actual := HashContent data in
      if negb (String.eqb actual ref)
      then Err (ErrIntegrity (ShortHash ref 12) (ShortHash actual 12))
      else Ok data
  end.

(** BlobExists checks whether a blob exists in the object store without
    reading it. *)
Definition BlobExists (s : Store) (ref : string) : bool :=
  match blobPath ref with
  | Err _ => false
  | Ok path => bool_decide (is_Some (objects s !! path))
  end.

(** *** Code that writes to the store: a state and error monad *)

Definition M (A : Type) : Type := Store -> Store * result A.

Global Instance M_ret : MRet M := fun A a s => (s, Ok a).
Global Instance M_bind : MBind M := fun A B k m s =>
  match m s with
  | (s', Ok a) => k a s'
  | (s', Err e) => (s', Err e)
  end.

Definition lift {A} (r : result A) : M A := fun s => (s, r).

(** [fmt.Errorf("<context>: %w", err)] around a step. *)
Definition wrap {A} (context : string) (m : M A) : M A := fun s =>
  match m s with
  | (s', Err e) => (s', Err (ErrWrap context e))
  | r => r
  end.

Definition wrapAt {A} (context : string) (i : nat) (m : M A) : M A := fun s =>
  match m s with
  | (s', Err e) => (s', Err (ErrWrapAt context i e))
  | r => r
  end.

(** [for i, x := range l], collecting one result per element. *)
Fixpoint forM {A B} (f : nat -> A -> M B) (i : nat) (l : list A) : M (list B) :=
  match l with
  | [] => mret []
  | x :: r => y ← f i x; ys ← forM f (S i) r; mret (y :: ys)
  end.

End store.

(** ** encoding/json

    The part of Go's encoding/json the pack code goes through.  A JSON text
    is a [string]; a decoded document is a [value].  Numbers are integers:
    texts with a fraction or an exponent are rejected, and an integer is
    taken to survive the passage through float64 that decoding into
    [interface{}] makes (exact up to 2^53).  Text is taken to be well-formed
    UTF-8 without U+2028 and U+2029, which the encoder copies as it is. *)

Module json.

Local Set Warnings "-register-all".

Inductive value : Type :=
  | JNull
  | JBool (b : bool)
  | JNumber (n : Z)
  | JString (s : string)
  | JArray (elems : list value)
  | JObject (members : list (string * value)).

Definition quote : ascii := "034"%char.
Definition backslash : ascii := "092"%char.

(** [prepend lit k] writes the text [lit] in front of [k]. *)
Fixpoint prepend (lit k : string) : string :=
  match lit with
  | EmptyString => k
  | String c lit' => String c (prepend lit' k)
  end.

(** *** Encoding *)

(** One character of a string literal, as [appendString] with HTML escaping
    writes it. *)
Definition emit_char (c : ascii) (k : string) : string :=
  let n := N_of_ascii c in
  if (n =? 34)%N then String backslash (String quote k)
  else if (n =? 92)%N then String backslash (String backslash k)
  else if (n =? 8)%N then String backslash (String "b" k)
  else if (n =? 12)%N then String backslash (String "f" k)
  else if (n =? 10)%N then String backslash (String "n" k)
  else if (n =? 13)%N then String backslash (String "r" k)
  else if (n =? 9)%N then String backslash (String "t" k)
  else if (n <? 32)%N || (n =? 60)%N || (n =? 62)%N || (n =? 38)%N then
    String backslash (String "u" (String "0" (String "0"
      (String (hex.digit (n / 16)) (String (hex.digit (n mod 16)) k)))))
  else String c k.

Fixpoint emit_chars (s k : string) : string :=
  match s with
  | EmptyString => k
  | String c s' => emit_char c (emit_chars s' k)
  end.

Definition emit_string (s k : string) : string :=
  String quote (emit_chars s (String quote k)).

Fixpoint emit_digits (fuel : nat) (n : N) (k : string) : string :=
  match fuel with
  | O => k
  | S fuel' =>
      let k' := String (ascii_of_N (48 + n mod 10)) k in
      if (n <? 10)%N then k' else emit_digits fuel' (n / 10) k'
  end.

Definition emit_nat (n : N) (k : string) : string :=
  emit_digits (S (N.to_nat (N.log2 n))) n k.

Definition emit_int (z : Z) (k : string) : string :=
  match z with
  | Z0 => String "0" k
  | Zpos p => emit_nat (Npos p) k
  | Zneg p => String "-" (emit_nat (Npos p) k)
  end.

(** [emit v k] writes the compact text of [v] in front of [k], the members
    of an object in the order of the list. *)
Fixpoint emit (v : value) (k : string) : string :=
  match v with
  | JNull => prepend "null" k
  | JBool true => prepend "true" k
  | JBool false => prepend "false" k
  | JNumber n => emit_int n k
  | JString s => emit_string s k
  | JArray elems =>
      String "["
        ((fix emit_elems (l : list value) (k : string) : string :=
            match l with
            | [] => k
            | [x] => emit x k
            | x :: r => emit x (String "," (emit_elems r k))
            end) elems (String "]" k))
  | JObject members =>
      String "{"
        ((fix emit_members (l : list (string * value)) (k : string) : string :=
            match l with
            | [] => k
            | [(key, x)] => emit_string key (String ":" (emit x k))
            | (key, x) :: r =>
                emit_string key (String ":" (emit x (String "," (emit_members r k))))
            end) members (String "}" k))
  end.

Definition encode (v : value) : string := emit v EmptyString.

(** [MarshalIndent] with prefix "" and indent of two spaces. *)
Definition newline (depth : nat) (k : string) : string :=
  String "010"%char
    ((fix spaces (n : nat) : string :=
        match n with O => k | S n' => String " " (String " " (spaces n')) end) depth).

Fixpoint emit_indent (depth : nat) (v : value) (k : string) : string :=
  match v with
  | JArray [] => prepend "[]" k
  | JObject [] => prepend "{}" k
  | JArray elems =>
      String "[" (newline (S depth)
        ((fix emit_elems (l : list value) (k : string) : string :=
            match l with
            | [] => k
            | [x] => emit_indent (S depth) x k
            | x :: r => emit_indent (S depth) x (String "," (newline (S depth) (emit_elems r k)))
            end) elems (newline depth (String "]" k))))
  | JObject members =>
      String "{" (newline (S depth)
        ((fix emit_members (l : list (string * value)) (k : string) : string :=
            match l with
            | [] => k
            | [(key, x)] => emit_string key (String ":" (String " " (emit_indent (S depth) x k)))
            | (key, x) :: r =>
                emit_string key (String ":" (String " "
                  (emit_indent (S depth) x (String "," (newline (S depth) (emit_members r k))))))
            end) members (newline depth (String "}" k))))
  | _ => emit v k
  end.


(** *** Decoding *)

Definition is_space (c : ascii) : bool :=
  let n := N_of_ascii c in ((n =? 32) || (n =? 9) || (n =? 10) || (n =? 13))%N.

Fixpoint skip_space (s : string) : string :=
  match s with
  | String c s' => if is_space c then skip_space s' else s
  | EmptyString => s
  end.

Definition hex_val (c : ascii) : option N :=
  let n := N_of_ascii c in
  if is_digit c then Some (n - 48)%N
  else if in_range 97 102 c then Some (n - 87)%N
  else if in_range 65 70 c then Some (n - 55)%N
  else None.

(** [getu4]: the code unit of four hex digits. *)
Definition getu4 (a b c d : ascii) : option N :=
  x ← hex_val a; y ← hex_val b; z ← hex_val c; w ← hex_val d;
  Some (((x * 16 + y) * 16 + z) * 16 + w)%N.

(** [utf8.EncodeRune], in front of [k]. *)
Definition encode_rune (r : N) (k : string) : string :=
  let byte (n : N) := ascii_of_N n in
  if (r <? 128)%N then String (byte r) k
  else if (r <? 2048)%N then
    String (byte (192 + r / 64)%N) (String (byte (128 + r mod 64)%N) k)
  else if ((55296 <=? r) && (r <=? 57343))%N || (1114111 <? r)%N then
    String (byte 239%N) (String (byte 191%N) (String (byte 189%N) k))
  else if (r <? 65536)%N then
    String (byte (224 + r / 4096)%N) (String (byte (128 + (r / 64) mod 64)%N)
      (String (byte (128 + r mod 64)%N) k))
  else
    String (byte (240 + r / 262144)%N) (String (byte (128 + (r / 4096) mod 64)%N)
      (String (byte (128 + (r / 64) mod 64)%N) (String (byte (128 + r mod 64)%N) k))).

Definition is_surrogate (r : N) : bool := ((55296 <=? r) && (r <? 57344))%N.

(** [utf16.DecodeRune]: the code point of a surrogate pair, U+FFFD when
    the two units are not a pair. *)
Definition decode_pair (r1 r2 : N) : N :=
  if ((55296 <=? r1) && (r1 <? 56320) && (56320 <=? r2) && (r2 <? 57344))%N
  then ((r1 - 55296) * 1024 + (r2 - 56320) + 65536)%N
  else 65533%N.

Definition simple_escape (c : ascii) : option ascii :=
  let n := N_of_ascii c in
  if (n =? 34)%N then Some quote
  else if (n =? 92)%N then Some backslash
  else if (n =? 47)%N then Some "/"%char
  else if (n =? 98)%N then Some "008"%char
  else if (n =? 102)%N then Some "012"%char
  else if (n =? 110)%N then Some "010"%char
  else if (n =? 114)%N then Some "013"%char
  else if (n =? 116)%N then Some "009"%char
  else None.

(** The rest of a string literal after its opening quote: the decoded
    string and the text after the closing quote. *)
Fixpoint read_string (s : string) : option (string * string) :=
  match s with
  | EmptyString => None
  | String c r =>
      if (N_of_ascii c =? 34)%N then Some (EmptyString, r)
      else if (N_of_ascii c =? 92)%N then
        match r with
        | String e r1 =>
            if (N_of_ascii e =? 117)%N then
              match r1 with
              | String a (String b (String c' (String d r2))) =>
                  rr ← getu4 a b c' d;
                  if is_surrogate rr then
                    match r2 with
                    | String b1 (String u1 (String a' (String b' (String c'' (String d' r3))))) =>
                        match (if (N_of_ascii b1 =? 92)%N && (N_of_ascii u1 =? 117)%N
                               then getu4 a' b' c'' d' else None) with
                        | Some rr1 =>
                            if (decode_pair rr rr1 =? 65533)%N
                            then '(str, rest) ← read_string r2; Some (encode_rune 65533 str, rest)
                            else '(str, rest) ← read_string r3;
                                 Some (encode_rune (decode_pair rr rr1) str, rest)
                        | None =>
                            '(str, rest) ← read_string r2; Some (encode_rune 65533 str, rest)
                        end
                    | _ => '(str, rest) ← read_string r2; Some (encode_rune 65533 str, rest)
                    end
                  else '(str, rest) ← read_string r2; Some (encode_rune rr str, rest)
              | _ => None
              end
            else
              x ← simple_escape e;
              '(str, rest) ← read_string r1; Some (String x str, rest)
        | EmptyString => None
        end
      else if (N_of_ascii c <? 32)%N then None
      else '(str, rest) ← read_string r; Some (String c str, rest)
  end.

Fixpoint read_digits (acc : N) (s : string) : N * string :=
  match s with
  | String c r =>
      if is_digit c then read_digits (acc * 10 + (N_of_ascii c - 48))%N r else (acc, s)
  | EmptyString => (acc, s)
  end.

Definition starts_fraction (s : string) : bool :=
  match s with
  | String c _ => let n := N_of_ascii c in ((n =? 46) || (n =? 101) || (n =? 69))%N
  | EmptyString => false
  end.

Definition read_nat (s : string) : option (N * string) :=
  match s with
  | String c r =>
      if (N_of_ascii c =? 48)%N then
        match r with
        | String c' _ => if is_digit c' then None else Some (0%N, r)
        | EmptyString => Some (0%N, r)
        end
      else if is_digit c then Some (read_digits 0 s)
      else None
  | EmptyString => None
  end.

Definition read_number (s : string) : option (Z * string) :=
  '(z, r) ← match s with
            | String c r =>
                if (N_of_ascii c =? 45)%N
                then '(n, r') ← read_nat r; Some (Z.opp (Z.of_N n), r')
                else '(n, r') ← read_nat s; Some (Z.of_N n, r')
            | EmptyString => None
            end;
  if starts_fraction r then None else Some (z, r).

Fixpoint expect (lit s : string) : option string :=
  match lit, s with
  | EmptyString, _ => Some s
  | String c lit', String c' s' => if Ascii.eqb c c' then expect lit' s' else None
  | String _ _, EmptyString => None
  end.

Fixpoint parse_value (fuel : nat) (s : string) : option (value * string) :=
  match fuel with
  | O => None
  | S fuel' =>
      match skip_space s with
      | EmptyString => None
      | String c r =>
          let n := N_of_ascii c in
          if (n =? 110)%N then r' ← expect "ull" r; Some (JNull, r')
          else if (n =? 116)%N then r' ← expect "rue" r; Some (JBool true, r')
          else if (n =? 102)%N then r' ← expect "alse" r; Some (JBool false, r')
          else if (n =? 34)%N then '(str, r') ← read_string r; Some (JString str, r')
          else if (n =? 91)%N then
            match skip_space r with
            | String c' r' =>
                if (N_of_ascii c' =? 93)%N then Some (JArray [], r')
                else '(l, r'') ← parse_elems fuel' r; Some (JArray l, r'')
            | EmptyString => None
            end
          else if (n =? 123)%N then
            match skip_space r with
            | String c' r' =>
                if (N_of_ascii c' =? 125)%N then Some (JObject [], r')
                else '(l, r'') ← parse_members fuel' r; Some (JObject l, r'')
            | EmptyString => None
            end
          else '(z, r') ← read_number (String c r); Some (JNumber z, r')
      end
  end
with parse_elems (fuel : nat) (s : string) : option (list value * string) :=
  match fuel with
  | O => None
  | S fuel' =>
      '(v, r) ← parse_value fuel' s;
      match skip_space r with
      | String c r' =>
          if (N_of_ascii c =? 44)%N then '(vs, r'') ← parse_elems fuel' r'; Some (v :: vs, r'')
          else if (N_of_ascii c =? 93)%N then Some ([v], r')
          else None
      | EmptyString => None
      end
  end
with parse_members (fuel : nat) (s : string) : option (list (string * value) * string) :=
  match fuel with
  | O => None
  | S fuel' =>
      match skip_space s with
      | String q r0 =>
          if (N_of_ascii q =? 34)%N then
            '(key, r1) ← read_string r0;
            match skip_space r1 with
            | String c r2 =>
                if (N_of_ascii c =? 58)%N then
                  '(v, r) ← parse_value fuel' r2;
                  match skip_space r with
                  | String c' r' =>
                      if (N_of_ascii c' =? 44)%N
                      then '(ms, r'') ← parse_members fuel' r'; Some ((key, v) :: ms, r'')
                      else if (N_of_ascii c' =? 125)%N then Some ([(key, v)], r')
                      else None
                  | EmptyString => None
                  end
                else None
            | EmptyString => None
            end
          else None
      | EmptyString => None
      end
  end.

(** A whole text: one value and nothing but white space after it. *)
Definition decode (data : string) : result value :=
  match parse_value (S (String.length data)) data with
  | Some (v, r) =>
      match skip_space r with
      | EmptyString => Ok v
      | String _ _ => Err ErrSyntax
      end
  | None => Err ErrSyntax
  end.

(** *** Values held in [interface{}]

    A Go [map[string]interface{}] is an object whose members are in
    increasing key order, each key once. *)

(** [m[k] = v]. *)
Fixpoint map_set (k : string) (v : value) (m : list (string * value)) : list (string * value) :=
  match m with
  | [] => [(k, v)]
  | (k', v') :: r =>
      if String.eqb k k' then (k, v) :: r
      else if String.ltb k k' then (k, v) :: m
      else (k', v') :: map_set k v r
  end.

Fixpoint map_get (k : string) (m : list (string * value)) : option value :=
  match m with
  | [] => None
  | (k', v') :: r => if String.eqb k k' then Some v' else map_get k r
  end.

(** What [Unmarshal] into an [interface{}] makes of a parsed text: every
    object becomes a map, a later member replacing an earlier one of the
    same key. *)
Fixpoint as_interface (v : value) : value :=
  match v with
  | JArray l => JArray (map as_interface l)
  | JObject m =>
      JObject (fold_left (fun acc kv => map_set (fst kv) (as_interface (snd kv)) acc) m [])
  | _ => v
  end.

Definition key_le (a b : string * value) : Prop := String.le (fst a) (fst b).

Global Instance key_le_dec : RelDecision key_le.
Proof. intros a b. unfold key_le. apply _. Defined.

(** The order in which [Marshal] writes a map: by key. *)
Fixpoint in_key_order (v : value) : value :=
  match v with
  | JArray l => JArray (map in_key_order l)
  | JObject m => JObject (merge_sort key_le (map (fun kv => (fst kv, in_key_order (snd kv))) m))
  | _ => v
  end.

End json.

(** ** internal/pack *)

Module pack.
Import json store.

(** A [time.Time] is carried as the RFC 3339 text encoding/json gives it. *)
Definition Time : Type := string.
Definition zero_time : Time := "0001-01-01T00:00:00Z".

(** A Go slice is nil or a sequence; a Go map is nil or a map. *)
Definition slice (A : Type) : Type := option (list A).
Definition elems {A} (s : slice A) : list A := default [] s.
Definition gomap (A : Type) : Type := option (list (string * A)).

Record Model : Type := mkModel {
  Model_Identifier : string;
  Model_Parameters : gomap value
}.

Record Prompt : Type := mkPrompt {
  Prompt_Role : string;
  Prompt_ContentRef : string
}.

Record Input : Type := mkInput {
  Input_Name : string;
  Input_ContentRef : string;
  Input_Size : Z
}.

Record Step : Type := mkStep {
  Step_Index : Z;
  Step_Type : string;
  Step_Tool : string;
  Step_Parameters : gomap value;
  Step_OutputRef : string;
  Step_Deterministic : bool;
  Step_Timestamp : Time
}.

Record Output : Type := mkOutput {
  Output_Name : string;
  Output_ContentRef : string;
  Output_ContextPack : string
}.

Record Environment : Type := mkEnvironment {
  Environment_OS : string;
  Environment_Runtime : string;
  Environment_ToolVersions : gomap string
}.

Record Pack : Type := mkPack {
  Pack_Version : string;
  Pack_Hash : string;
  Pack_Created : Time;
  Pack_Model : Model;
  Pack_SystemPrompt : string;
  Pack_Prompts : slice Prompt;
  Pack_Inputs : slice Input;
  Pack_Steps : slice Step;
  Pack_Outputs : slice Output;
  Pack_Environment : Environment;
  Pack_Parent : string
}.

Definition set_Hash (p : Pack) (h : string) : Pack :=
  mkPack (Pack_Version p) h (Pack_Created p) (Pack_Model p) (Pack_SystemPrompt p)
         (Pack_Prompts p) (Pack_Inputs p) (Pack_Steps p) (Pack_Outputs p)
         (Pack_Environment p) (Pack_Parent p).


Definition set_Outputs (p : Pack) (o : slice Output) : Pack :=
  mkPack (Pack_Version p) (Pack_Hash p) (Pack_Created p) (Pack_Model p) (Pack_SystemPrompt p)
         (Pack_Prompts p) (Pack_Inputs p) (Pack_Steps p) o
         (Pack_Environment p) (Pack_Parent p).

Definition set_ContextPack (o : Output) (h : string) : Output :=
  mkOutput (Output_Name o) (Output_ContentRef o) h.

(** The execution log, parse.go. *)
Record LogModel : Type := mkLogModel {
  LogModel_Identifier : string;
  LogModel_Parameters : gomap value
}.
Record LogPrompt : Type := mkLogPrompt { LogPrompt_Role : string; LogPrompt_Content : string }.
Record LogInput : Type := mkLogInput { LogInput_Name : string; LogInput_Content : string }.
Record LogStep : Type := mkLogStep {
  LogStep_Index : Z;
  LogStep_Type : string;
  LogStep_Tool : string;
  LogStep_Parameters : gomap value;
  LogStep_Output : string;
  LogStep_Deterministic : bool;
  LogStep_Timestamp : Time
}.
Record LogOutput : Type := mkLogOutput { LogOutput_Name : string; LogOutput_Content : string }.
Record LogEnvironment : Type := mkLogEnvironment {
  LogEnvironment_OS : string;
  LogEnvironment_Runtime : string;
  LogEnvironment_ToolVersions : gomap string
}.
Record ExecutionLog : Type := mkExecutionLog {
  Log_Model : LogModel;
  Log_SystemPrompt : string;
  Log_Prompts : list LogPrompt;
  Log_Inputs : list LogInput;
  Log_Steps : list LogStep;
  Log_Outputs : list LogOutput;
  Log_Environment : LogEnvironment
}.

(** *** [json.Marshal] of the manifest structs: the fields in the order of
    their declaration under their tags, a nil slice or map as null, maps in
    key order, an [omitempty] string left out when empty. *)

Definition slice_json {A} (f : A -> value) (s : slice A) : value :=
  match s with
  | None => JNull
  | Some l => JArray (map f l)
  end.

Definition map_json {A} (f : A -> value) (m : gomap A) : value :=
  match m with
  | None => JNull
  | Some l => in_key_order (JObject (map (fun kv => (fst kv, f (snd kv))) l))
  end.

Definition omitempty (key s : string) : list (string * value) :=
  if String.eqb s "" then [] else [(key, JString s)].

Definition Model_json (m : Model) : value :=
  JObject [("identifier", JString (Model_Identifier m));
           ("parameters", map_json id (Model_Parameters m))].

Definition Prompt_json (p : Prompt) : value :=
  JObject [("role", JString (Prompt_Role p)); ("content_ref", JString (Prompt_ContentRef p))].

Definition Input_json (i : Input) : value :=
  JObject [("name", JString (Input_Name i)); ("content_ref", JString (Input_ContentRef i));
           ("size", JNumber (Input_Size i))].

Definition Step_json (st : Step) : value :=
  JObject [("index", JNumber (Step_Index st)); ("type", JString (Step_Type st));
           ("tool", JString (Step_Tool st));
           ("parameters", map_json id (Step_Parameters st));
           ("output_ref", JString (Step_OutputRef st));
           ("deterministic", JBool (Step_Deterministic st));
           ("timestamp", JString (Step_Timestamp st))].

Definition Output_json (o : Output) : value :=
  JObject ([("name", JString (Output_Name o)); ("content_ref", JString (Output_ContentRef o))]
           ++ omitempty "context_pack" (Output_ContextPack o)).

Definition Environment_json (e : Environment) : value :=
  JObject [("os", JString (Environment_OS e)); ("runtime", JString (Environment_Runtime e));
           ("tool_versions", map_json JString (Environment_ToolVersions e))].

Definition Pack_json (p : Pack) : value :=
  JObject ([("version", JString (Pack_Version p));
            ("hash", JString (Pack_Hash p));
            ("created", JString (Pack_Created p));
            ("model", Model_json (Pack_Model p));
            ("system_prompt", JString (Pack_SystemPrompt p));
            ("prompts", slice_json Prompt_json (Pack_Prompts p));
            ("inputs", slice_json Input_json (Pack_Inputs p));
            ("steps", slice_json Step_json (Pack_Steps p));
            ("outputs", slice_json Output_json (Pack_Outputs p));
            ("environment", Environment_json (Pack_Environment p))]
           ++ omitempty "parent" (Pack_Parent p)).

(** [json.Marshal(p)] and [json.MarshalIndent(p, "", "  ")]. *)
Definition Marshal (p : Pack) : string := encode (Pack_json p).

(** *** [json.Unmarshal] into the manifest structs: a member is matched to
    the field whose tag equals its key up to the case of letters, the last
    such member counts, null and an absent member leave the zero value.
    Objects are taken not to repeat a key of a struct. *)

Definition fold_case (c : ascii) : ascii :=
  if is_upper c then ascii_of_N (N_of_ascii c + 32) else c.

Fixpoint lower (s : string) : string :=
  match s with
  | EmptyString => EmptyString
  | String c s' => String (fold_case c) (lower s')
  end.

Definition field (name : string) (m : list (string * value)) : option value :=
  fold_left (fun acc kv =>
               match snd kv with
               | JNull => acc
               | v => if String.eqb (lower (fst kv)) name then Some v else acc
               end) m None.

Definition want_string (zero : string) (v : option value) : result string :=
  match v with
  | None => Ok zero
  | Some (JString s) => Ok s
  | Some _ => Err ErrSyntax
  end.

Definition want_bool (v : option value) : result bool :=
  match v with
  | None => Ok false
  | Some (JBool b) => Ok b
  | Some _ => Err ErrSyntax
  end.

Definition want_int (bits : Z) (v : option value) : result Z :=
  match v with
  | None => Ok 0%Z
  | Some (JNumber n) =>
      if ((- 2 ^ (bits - 1) <=? n) && (n <? 2 ^ (bits - 1)))%Z then Ok n else Err ErrSyntax
  | Some _ => Err ErrSyntax
  end.

Fixpoint mapM {A B} (f : A -> result B) (l : list A) : result (list B) :=
  match l with
  | [] => Ok []
  | x :: r => y ← f x; ys ← mapM f r; Ok (y :: ys)
  end.

Definition want_slice {A} (f : value -> result A) (v : option value) : result (slice A) :=
  match v with
  | None => Ok None
  | Some (JArray l) => l' ← mapM f l; Ok (Some l')
  | Some _ => Err ErrSyntax
  end.

Definition want_map {A} (f : value -> result A) (v : option value) : result (gomap A) :=
  match v with
  | None => Ok None
  | Some (JObject m) =>
      match as_interface (JObject m) with
      | JObject m' => l ← mapM (fun kv => x ← f (snd kv); Ok (fst kv, x)) m'; Ok (Some l)
      | _ => Err ErrSyntax
      end
  | Some _ => Err ErrSyntax
  end.

Definition want_object {A} (zero : A) (f : list (string * value) -> result A)
    (v : option value) : result A :=
  match v with
  | None => Ok zero
  | Some (JObject m) => f m
  | Some _ => Err ErrSyntax
  end.

Definition string_of_json (v : value) : result string :=
  match v with
  | JString s => Ok s
  | JNull => Ok ""
  | _ => Err ErrSyntax
  end.

Definition Model_of_members (m : list (string * value)) : result Model :=
  identifier ← want_string "" (field "identifier" m);
  parameters ← want_map (fun v => Ok (as_interface v)) (field "parameters" m);
  Ok (mkModel identifier parameters).

Definition Prompt_of_members (m : list (string * value)) : result Prompt :=
  role ← want_string "" (field "role" m);
  content_ref ← want_string "" (field "content_ref" m);
  Ok (mkPrompt role content_ref).

Definition Input_of_members (m : list (string * value)) : result Input :=
  name ← want_string "" (field "name" m);
  content_ref ← want_string "" (field "content_ref" m);
  size ← want_int 64 (field "size" m);
  Ok (mkInput name content_ref size).

Definition Step_of_members (m : list (string * value)) : result Step :=
  index ← want_int 64 (field "index" m);
  type ← want_string "" (field "type" m);
  tool ← want_string "" (field "tool" m);
  parameters ← want_map (fun v => Ok (as_interface v)) (field "parameters" m);
  output_ref ← want_string "" (field "output_ref" m);
  deterministic ← want_bool (field "deterministic" m);
  timestamp ← want_string zero_time (field "timestamp" m);
  Ok (mkStep index type tool parameters output_ref deterministic timestamp).

Definition Output_of_members (m : list (string * value)) : result Output :=
  name ← want_string "" (field "name" m);
  content_ref ← want_string "" (field "content_ref" m);
  context_pack ← want_string "" (field "context_pack" m);
  Ok (mkOutput name content_ref context_pack).

Definition Environment_of_members (m : list (string * value)) : result Environment :=
  os ← want_string "" (field "os" m);
  runtime ← want_string "" (field "runtime" m);
  tool_versions ← want_map string_of_json (field "tool_versions" m);
  Ok (mkEnvironment os runtime tool_versions).

Definition zero_Model : Model := mkModel "" None.
Definition zero_Environment : Environment := mkEnvironment "" "" None.
Definition zero_Pack : Pack :=
  mkPack "" "" zero_time zero_Model "" None None None None zero_Environment "".

(** An element of an array of structs: an object, or null for the zero
    struct. *)
Definition element {A} (zero : A) (f : list (string * value) -> result A) (v : value) : result A :=
  match v with
  | JNull => Ok zero
  | JObject m => f m
  | _ => Err ErrSyntax
  end.

Definition Pack_of_members (m : list (string * value)) : result Pack :=
  version ← want_string "" (field "version" m);
  hash ← want_string "" (field "hash" m);
  created ← want_string zero_time (field "created" m);
  model ← want_object zero_Model Model_of_members (field "model" m);
  system_prompt ← want_string "" (field "system_prompt" m);
  prompts ← want_slice (element (mkPrompt "" "") Prompt_of_members) (field "prompts" m);
  inputs ← want_slice (element (mkInput "" "" 0) Input_of_members) (field "inputs" m);
  steps ← want_slice (element (mkStep 0 "" "" None "" false zero_time) Step_of_members)
                     (field "steps" m);
  outputs ← want_slice (element (mkOutput "" "" "") Output_of_members) (field "outputs" m);
  environment ← want_object zero_Environment Environment_of_members (field "environment" m);
  parent ← want_string "" (field "parent" m);
  Ok (mkPack version hash created model system_prompt prompts inputs steps outputs
             environment parent).

(** [json.Unmarshal(data, &p)] for a fresh [p]. *)
Definition Unmarshal (data : string) : result Pack :=
  v ← decode data;
  element zero_Pack Pack_of_members v.

End pack.

Module create.
Import json store pack.

(** sortKeys recursively sorts map keys for canonical JSON output: the keys
    are collected and sorted, and a new map is filled in that order. *)
Fixpoint sortKeys (v : value) : value :=
  match v with
  | JObject val =>
      let keys := merge_sort String.le (map fst val) in
      let done := map (fun kv => (fst kv, sortKeys (snd kv))) val in
      JObject (fold_left (fun sorted k => map_set k (default JNull (map_get k done)) sorted)
                         keys [])
  | JArray val => JArray (map sortKeys val)
  | _ => v
  end.

(** canonicalJSON produces deterministic JSON output with sorted keys:
    marshal, re-parse into an [interface{}], sort, marshal again. *)
Definition canonicalJSON (p : Pack) : result string :=
  let data := Marshal p in
  raw ← decode data;
  let sorted := sortKeys (as_interface raw) in
  Ok (encode (in_key_order sorted)).

(** CanonicalHash computes the content hash of a pack manifest using
    canonical JSON. *)
Definition CanonicalHash (p : Pack) : result string :=
  data ← canonicalJSON (set_Hash p "");
  Ok (HashContent data).

Definition write (data : string) : M string := fun s => WriteBlob s data.

(** CreatePack builds an immutable Context Pack from an execution log;
    [now] is [time.Now().UTC()]. *)
Definition CreatePack (now : Time) (s : Store) (log : ExecutionLog) : Store * result Pack :=
  (sysPromptRef ← wrap "storing system prompt" (write (Log_SystemPrompt log));
   prompts ← forM (fun i p =>
                     ref ← wrapAt "storing prompt" i (write (LogPrompt_Content p));
                     mret (mkPrompt (LogPrompt_Role p) ref)) 0 (Log_Prompts log);
   inputs ← forM (fun i inp =>
                    let data := LogInput_Content inp in
                    ref ← wrapAt "storing input" i (write data);
                    mret (mkInput (LogInput_Name inp) ref (Z.of_nat (String.length data))))
                 0 (Log_Inputs log);
   steps ← forM (fun i st =>
                   outputRef ← (if String.eqb (LogStep_Output st) "" then mret ""
                                else wrapAt "storing step output" i (write (LogStep_Output st)));
                   mret (mkStep (LogStep_Index st) (LogStep_Type st) (LogStep_Tool st)
                                (LogStep_Parameters st) outputRef
                                (LogStep_Deterministic st) (LogStep_Timestamp st)))
                0 (Log_Steps log);
   outputs ← forM (fun i o =>
                     ref ← wrapAt "storing output" i (write (LogOutput_Content o));
                     mret (mkOutput (LogOutput_Name o) ref "")) 0 (Log_Outputs log);
   let p := mkPack "0.1" "" now
              (mkModel (LogModel_Identifier (Log_Model log)) (LogModel_Parameters (Log_Model log)))
              sysPromptRef (Some prompts) (Some inputs) (Some steps) (Some outputs)
              (mkEnvironment (LogEnvironment_OS (Log_Environment log))
                             (LogEnvironment_Runtime (Log_Environment log))
                             (LogEnvironment_ToolVersions (Log_Environment log)))
              "" in
   manifestData ← wrap "serializing manifest" (lift (canonicalJSON p));
   hash ← wrap "storing manifest" (write manifestData);
   let p := set_Hash p hash in
   let p := set_Outputs p (option_map (map (fun o => set_ContextPack o hash)) (Pack_Outputs p)) in
   mret p) s.

(** [os.OpenFile(path, O_WRONLY|O_CREATE|O_EXCL)] on packs/<name>, then
    the write. *)
Definition writeFileIfNotExists (name data : string) : M unit := fun s =>
  match packs s with
  | None => (s, Err ErrNotExist)
  | Some dir =>
      match dir !! name with
      | Some _ => (s, Err ErrExist)
      | None => (set_packs s (Some (<[name := data]> dir)), Ok tt)
      end
  end.

(** RegisterPack records a pack hash in the packs/ index. *)
Definition RegisterPack (s : Store) (hash : string) : Store * result unit :=
  match ParseHash hash with
  | Err e => (s, Err e)
  | Ok (_, hexStr) => writeFileIfNotExists hexStr hash s
  end.

(** LoadPack loads a pack manifest from the object store by its hash
    reference. *)
Definition LoadPack (s : Store) (ref : string) : result Pack :=
  match ResolveHash s ref with
  | Err e => Err (ErrWrap "invalid hash" e)
  | Ok normalized =>
      match ReadBlob s normalized with
      | Err _ => Err (ErrPackNotFound (ShortHash normalized 12))
      | Ok data =>
          match Unmarshal data with
          | Err e => Err (ErrWrap "parsing pack manifest" e)
          | Ok p => Ok (set_Hash p normalized)
          end
      end
  end.

End create.

(** ** internal/sharing *)

Module sharing.
Import json store pack create.



End sharing.

(** ** internal/replay *)

Module replay.
Import json store pack create.

Inductive FidelityLevel : Type := FidelityExact | FidelityDegraded | FidelityFailed.
Inductive StepStatus : Type := StepMatched | StepDiverged | StepFailed.

Record StepResult : Type := mkStepResult {
  Result_Index : Z;
  Result_Tool : string;
  Result_Status : StepStatus;
  Result_ExpectedHash : string;
  Result_ActualHash : string;
  Result_Deterministic : bool;
  Result_Reason : option error
}.

Record DriftEntry : Type := mkDriftEntry {
  Drift_Type : string;
  Drift_Description : string;
  Drift_Name : string;       (* the %q argument of the description *)
  Drift_Expected : string;
  Drift_Actual : string
}.

Record ReplayReport : Type := mkReplayReport {
  Report_PackHash : string;
  Report_Fidelity : FidelityLevel;
  Report_Steps : list StepResult;
  Report_Drift : list DriftEntry;
  Report_StartTime : Time;
  Report_EndTime : Time
}.

(** ToolExecutor executes a tool call and returns the output. *)
Definition ToolExecutor : Type := string -> gomap value -> result string.

(** What a replay sees of the machine it runs on: [runtime.GOOS], the
    local files [os.ReadFile] finds, and the clock at its start and end. *)
Record Host : Type := mkHost {
  GOOS : string;
  local_files : gmap string string;
  clock_start : Time;
  clock_end : Time
}.

(** DefaultExecutors returns the built-in tool executors for v0.1. *)
Definition DefaultExecutors (h : Host) : gmap string ToolExecutor :=
  {[ "read_file" :=
       fun (tool : string) (params : gomap value) =>
         match map_get "path" (default [] params) with
         | Some (JString path) =>
             match local_files h !! path with
             | Some data => Ok data
             | None => Err ErrNotExist
             end
         | _ => Err (ErrExecutor "read_file: missing or invalid 'path' parameter")
         end ]}.

(** ExecuteStep re-executes a single tool call and compares the output. *)
Definition ExecuteStep (step : Step) (executors : gmap string ToolExecutor) : StepResult :=
  let result (status : StepStatus) (actual : string) (reason : option error) :=
    mkStepResult (Step_Index step) (Step_Tool step) status (Step_OutputRef step) actual
                 (Step_Deterministic step) reason in
  match executors !! Step_Tool step with
  | None => result StepFailed "" (Some (ErrExecutor ("tool not available: " +:+ Step_Tool step)))
  | Some executor =>
      match executor (Step_Tool step) (Step_Parameters step) with
      | Err e => result StepFailed "" (Some (ErrWrap "execution error" e))
      | Ok output =>
          let actualHash := HashContent output in
          if String.eqb actualHash (Step_OutputRef step)
          then result StepMatched actualHash None
          else result StepDiverged actualHash None
      end
  end.

Definition checkEnvironmentDrift (h : Host) (p : Pack) : list DriftEntry :=
  let currentOS := GOOS h in
  if negb (String.eqb (Environment_OS (Pack_Environment p)) "")
     && negb (String.eqb (Environment_OS (Pack_Environment p)) currentOS)
  then [mkDriftEntry "environment" "OS changed" ""
                     (Environment_OS (Pack_Environment p)) currentOS]
  else [].

(** The loop over the steps: the results so far, hasFailed, hasDiverged. *)
Definition run_step (executors : gmap string ToolExecutor)
    (acc : list StepResult * bool * bool) (step : Step) : list StepResult * bool * bool :=
  let '(steps, hasFailed, hasDiverged) := acc in
  let result := ExecuteStep step executors in
  let steps := steps ++ [result] in
  match Result_Status result with
  | StepFailed => (steps, true, hasDiverged)
  | StepDiverged =>
      if Result_Deterministic result then (steps, hasFailed, true)
      else (steps, hasFailed, hasDiverged)
  | StepMatched => (steps, hasFailed, hasDiverged)
  end.

(** The body of Replay, once the pack is loaded. *)
Definition replay_pack (h : Host) (s : Store) (p : Pack) : ReplayReport :=
  let executors := DefaultExecutors h in
  let drift := checkEnvironmentDrift h p in
  let drift :=
    fold_left (fun drift input =>
                 if negb (BlobExists s (Input_ContentRef input))
                 then drift ++ [mkDriftEntry "missing_input" "input %q not found in store"
                                             (Input_Name input)
                                             (ShortHash (Input_ContentRef input) 12) ""]
                 else drift)
              (elems (Pack_Inputs p)) drift in
  let '(steps, hasFailed, hasDiverged) :=
    fold_left (run_step executors) (elems (Pack_Steps p)) ([], false, false) in
  let fidelity :=
    if hasFailed then FidelityFailed
    else if hasDiverged then FidelityDegraded
    else FidelityExact in
  mkReplayReport (Pack_Hash p) fidelity steps drift (clock_start h) (clock_end h).

(** Replay re-executes an agent run from a Context Pack and produces a
    fidelity report. *)
Definition Replay (h : Host) (s : Store) (packHash : string) : result ReplayReport :=
  p ← LoadPack s packHash;
  Ok (replay_pack h s p).

End replay.

(** ** internal/graph *)

Module graph.

Record PathRecord : Type := mkPathRecord {
  Path_Type : string;
  Path_PathID : string;
  Path_Repo : string;
  Path_Path : string;
  Path_FirstSeenCommit : string;
  Path_LastSeenCommit : option string
}.

Record FileSnapshot : Type := mkFileSnapshot {
  File_Type : string;
  File_Commit : string;
  File_PathID : string;
  File_BlobOID : string;
  File_ContentSHA256 : string;
  File_Language : string;
  File_ByteSize : Z;
  File_LOC : Z;
  File_IsGenerated : bool;
  File_IsBinary : bool
}.

Record SymbolRecord : Type := mkSymbolRecord {
  Symbol_Type : string;
  Symbol_Commit : string;
  Symbol_SymbolID : string;
  Symbol_PathID : string;
  Symbol_Kind : string;
  Symbol_Name : string;
  Symbol_FQName : string;
  Symbol_Visibility : string;
  Symbol_Language : string;
  Symbol_Signature : string;
  Symbol_Docstring : string;
  Symbol_SymbolHash : string;
  Symbol_DefRegionID : string
}.

(** A line of a JSONL file, as [json.Unmarshal] into a record of type [T]
    finds it: empty, not decodable, or a record. *)
Inductive line (T : Type) : Type :=
  | Blank
  | Malformed
  | Rec (r : T).
Arguments Blank {T}.
Arguments Malformed {T}.
Arguments Rec {T} r.

(** The files below graph/: the snapshot files by commit SHA and the paths
    manifest; a file that does not exist is absent from its map. *)
Record Graph : Type := mkGraph {
  files_jsonl : gmap string (list (line FileSnapshot));
  symbols_jsonl : gmap string (list (line SymbolRecord));
  paths_jsonl : option (list (line PathRecord))
}.

(** The scanner loop of ReadRecords, [lineNum] lines already read. *)
Fixpoint scan {T} (lineNum : nat) (lines : list (line T)) : result (list T) :=
  match lines with
  | [] => Ok []
  | l :: rest =>
      let lineNum := S lineNum in
      match l with
      | Blank => scan lineNum rest
      | Malformed => Err (ErrLine lineNum ErrSyntax)
      | Rec r => records ← scan lineNum rest; Ok (r :: records)
      end
  end.

(** ReadRecords reads all JSONL records from a file; an empty slice if the
    file does not exist. *)
Definition ReadRecords {T} (file : option (list (line T))) : result (list T) :=
  match file with
  | None => Ok []
  | Some lines => scan 0 lines
  end.

End graph.

(** ** internal/delta *)

Module delta.
Import graph.

Record DeltaReport : Type := mkDeltaReport {
  Base : string;
  Head : string;
  FilesChanged : list string;
  FilesAdded : list string;
  FilesDeleted : list string;
  SymbolsInvalidated : list string
}.

(** IsEmpty returns true if no changes were detected. *)
Definition IsEmpty (r : DeltaReport) : bool :=
  (length (FilesChanged r) =? 0)%nat && (length (FilesAdded r) =? 0)%nat
  && (length (FilesDeleted r) =? 0)%nat.

(** [fmt.Errorf("...(%s): %w", sha[:8], err)]: the slice panics on a SHA
    shorter than eight characters. *)
Definition wrap_sha {A} (context sha : string) (r : result A) : result A :=
  match r with
  | Ok a => Ok a
  | Err e => if (String.length sha <? 8)%nat then Err ErrPanic else Err (ErrWrap context e)
  end.

(** [pathLookup[pathID]], the path-id itself when the lookup is empty. *)
Definition resolve (pathLookup : gmap string string) (pathID : string) : string :=
  let path := default "" (pathLookup !! pathID) in
  if String.eqb path "" then pathID else path.

Definition by_PathID (files : list FileSnapshot) : gmap string FileSnapshot :=
  fold_left (fun m f => <[File_PathID f := f]> m) files ∅.

(** ComputeDelta compares two indexed commits and produces a delta report. *)
Definition ComputeDelta (g : Graph) (baseSHA headSHA : string) : result DeltaReport :=
  baseFiles ← wrap_sha "reading base files" baseSHA (ReadRecords (files_jsonl g !! baseSHA));
  headFiles ← wrap_sha "reading head files" headSHA (ReadRecords (files_jsonl g !! headSHA));
  let baseMap := by_PathID baseFiles in
  let headMap := by_PathID headFiles in
  paths ← match ReadRecords (paths_jsonl g) with
          | Ok paths => Ok paths
          | Err e => Err (ErrWrap "reading paths" e)
          end;
  let pathLookup : gmap string string :=
    fold_left (fun m p => <[Path_PathID p := Path_Path p]> m) paths ∅ in
  let '(changed, added) :=
    fold_left (fun (acc : list string * list string) (kv : string * FileSnapshot) =>
                 let '(changed, added) := acc in
                 let '(pathID, headFile) := kv in
                 let path := resolve pathLookup pathID in
                 match baseMap !! pathID with
                 | None => (changed, added ++ [path])
                 | Some baseFile =>
                     if negb (String.eqb (File_ContentSHA256 baseFile)
                                         (File_ContentSHA256 headFile))
                     then (changed ++ [path], added)
                     else (changed, added)
                 end)
              (map_to_list headMap) ([], []) in
  let deleted :=
    fold_left (fun (deleted : list string) (kv : string * FileSnapshot) =>
                 let pathID := fst kv in
                 match headMap !! pathID with
                 | None => deleted ++ [resolve pathLookup pathID]
                 | Some _ => deleted
                 end)
              (map_to_list baseMap) [] in
  Ok (mkDeltaReport baseSHA headSHA
        (merge_sort String.le changed) (merge_sort String.le added)
        (merge_sort String.le deleted) []).

End delta.

(** ** internal/optimize *)

Module optimize.
Import graph.

(** DefaultTokenCap is the default maximum token estimate for a generated
    pack. *)
Definition DefaultTokenCap : Z := 32000.

Record PackRequest : Type := mkPackRequest {
  Commit : string;
  Task : string;
  TokenCap : Z;
  IncludeTests : bool
}.

Record PackItem : Type := mkPackItem {
  Item_Path : string;
  Item_Language : string;
  Item_SymbolID : string;
  Item_SymbolName : string;
  Item_EstimatedTokens : Z;
  Item_Reason : string
}.

Record OptimizedPack : Type := mkOptimizedPack {
  Pack_Commit : string;
  Pack_Task : string;
  Pack_Files : list PackItem;
  Pack_Symbols : list PackItem;
  Pack_EstimatedTokens : Z;
  Pack_TokenCap : Z
}.

(** *** The package strings, on ASCII text *)

Definition to_lower_char (c : ascii) : ascii :=
  if is_upper c then ascii_of_N (N_of_ascii c + 32) else c.

Fixpoint ToLower (s : string) : string :=
  match s with
  | EmptyString => EmptyString
  | String c s' => String (to_lower_char c) (ToLower s')
  end.

Fixpoint Contains (s substr : string) : bool :=
  HasPrefix s substr ||
  match s with
  | EmptyString => false
  | String _ s' => Contains s' substr
  end.

Fixpoint Count (s : string) (c : ascii) : Z :=
  match s with
  | EmptyString => 0
  | String c' s' => ((if Ascii.eqb c c' then 1 else 0) + Count s' c)%Z
  end.

(** [strings.FieldsFunc]: the maximal runs of characters that [f] rejects;
    [cur] is the run being read, last character first. *)
Fixpoint FieldsFunc_go (f : ascii -> bool) (cur : string) (s : string) : list string :=
  let flush := if String.eqb cur "" then [] else [String.rev cur] in
  match s with
  | EmptyString => flush
  | String c s' =>
      if f c then flush ++ FieldsFunc_go f "" s'
      else FieldsFunc_go f (String c cur) s'
  end.

Definition FieldsFunc (s : string) (f : ascii -> bool) : list string := FieldsFunc_go f "" s.

(** estimateTokens provides a rough token count from byte size:
    [int(float64(byteSize) * 0.25)], at least 1.  The product is exact and
    the conversion truncates, for sizes float64 holds exactly. *)
Definition estimateTokens (byteSize : Z) : Z :=
  let tokens := (byteSize ÷ 4)%Z in
  if (tokens <? 1)%Z then 1%Z else tokens.

Definition float_of_int (n : Z) : float := PrimFloat.of_uint63 (Uint63.of_Z n).

(** scoreFile assigns a relevance score to a file based on task keywords. *)
Definition scoreFile (path language : string) (taskWords : list string) : float :=
  let score := 0%float in
  let pathLower := ToLower path in
  let score :=
    if existsb (String.eqb language) ["go"; "typescript"; "javascript"; "python"; "rust"; "java"]
    then (score + 0.5)%float else score in
  let score :=
    fold_left (fun score word =>
                 if Contains pathLower word then (score + 2.0)%float else score)
              taskWords score in
  let base := ToLower path in
  let score :=
    if Contains base "main." || Contains base "index." || Contains base "app."
    then (score + 0.5)%float else score in
  let depth := Count path "/" in
  (* 0x1.999999999999ap-4 is the float64 constant 0.1 *)
  if (3 <? depth)%Z then (score - float_of_int (depth - 3) * 0x1.999999999999ap-4)%float else score.

(** scoreSymbol assigns a relevance score to a symbol based on task
    keywords. *)
Definition scoreSymbol (sym : SymbolRecord) (taskWords : list string) : float :=
  let score := 0%float in
  let nameLower := ToLower (Symbol_Name sym) in
  let fqLower := ToLower (Symbol_FQName sym) in
  let score :=
    if String.eqb (Symbol_Visibility sym) "exported" then (score + 1.0)%float else score in
  let score :=
    if String.eqb (Symbol_Kind sym) "function" || String.eqb (Symbol_Kind sym) "method"
    then (score + 0.5)%float else score in
  fold_left (fun score word =>
               if Contains nameLower word || Contains fqLower word
               then (score + 2.0)%float else score)
            taskWords score.

Definition stopWords : list string :=
  ["the"; "a"; "an"; "and"; "or"; "to"; "in"; "of"; "for"; "is"; "it"; "on"; "at"; "by";
   "with"; "from"; "this"; "that"; "be"; "as"; "add"; "fix"; "update"; "implement"].

(** extractTaskWords splits a task description into searchable words. *)
Definition extractTaskWords (task : string) : list string :=
  let words :=
    FieldsFunc task (fun r =>
      existsb (Ascii.eqb r) [" "; ","; "."; ";"; ":"; "-"; "_"; "/"; "'"; "034"]%char) in
  filter (fun w => (3 <=? String.length w)%nat && negb (existsb (String.eqb w) stopWords) = true)
         (map ToLower words).

Definition isTestFile (path : string) : bool :=
  let lower := ToLower path in
  Contains lower "_test." || Contains lower ".test." || Contains lower ".spec."
  || Contains lower "__tests__/" || Contains lower "test/" || Contains lower "tests/".

Record scoredFile : Type := mkScoredFile {
  sf_snapshot : FileSnapshot;
  sf_path : string;
  sf_score : float;
  sf_tokens : Z;
  sf_reason : string
}.

Record scoredSymbol : Type := mkScoredSymbol {
  ss_symbol : SymbolRecord;
  ss_score : float;
  ss_tokens : Z
}.

(** The [less] functions given to [sort.Slice]. *)
Definition file_less (a b : scoredFile) : bool :=
  if negb (sf_score a =? sf_score b)%float then (sf_score b <? sf_score a)%float
  else String.ltb (sf_path a) (sf_path b).

Definition symbol_less (a b : scoredSymbol) : bool :=
  (ss_score b <? ss_score a)%float.

(** [sort.Slice(l, less)]: an order in which no element is less than one
    before it.  Go leaves the order of elements that compare equal open;
    here they keep the order the merge gives them. *)
Definition not_after {A} (less : A -> A -> bool) (a b : A) : Prop := less b a = false.

Global Instance not_after_dec {A} (less : A -> A -> bool) : RelDecision (not_after less).
Proof. intros a b. unfold not_after. apply _. Defined.

Definition sort_Slice {A} (less : A -> A -> bool) (l : list A) : list A :=
  merge_sort (not_after less) l.

(** The loop that fills the pack with files: the items so far and the
    remaining tokens; the [break] returns without looking at the rest. *)
Fixpoint fill_files (cap : Z) (candidates : list scoredFile)
    (files : list PackItem) (remainingTokens : Z) : list PackItem * Z :=
  match candidates with
  | [] => (files, remainingTokens)
  | c :: rest =>
      if (remainingTokens <? sf_tokens c)%Z
         && ((sf_score c <? 2.0)%float || (remainingTokens <? cap ÷ 4)%Z)
      then fill_files cap rest files remainingTokens
      else
        let files := files ++ [mkPackItem (sf_path c) (File_Language (sf_snapshot c)) "" ""
                                          (sf_tokens c) (sf_reason c)] in
        let remainingTokens := (remainingTokens - sf_tokens c)%Z in
        if (remainingTokens <=? 0)%Z then (files, remainingTokens)
        else fill_files cap rest files remainingTokens
  end.

Fixpoint fill_symbols (pathLookup : gmap string string) (candidates : list scoredSymbol)
    (symbols : list PackItem) (remainingTokens : Z) : list PackItem * Z :=
  match candidates with
  | [] => (symbols, remainingTokens)
  | sc :: rest =>
      if (remainingTokens <? ss_tokens sc)%Z
      then fill_symbols pathLookup rest symbols remainingTokens
      else
        let symbols :=
          symbols ++ [mkPackItem (default "" (pathLookup !! Symbol_PathID (ss_symbol sc))) ""
                                 (Symbol_SymbolID (ss_symbol sc)) (Symbol_FQName (ss_symbol sc))
                                 (ss_tokens sc)
                                 ("task-relevant-" +:+ Symbol_Kind (ss_symbol sc))] in
        let remainingTokens := (remainingTokens - ss_tokens sc)%Z in
        if (remainingTokens <=? 0)%Z then (symbols, remainingTokens)
        else fill_symbols pathLookup rest symbols remainingTokens
  end.

Definition file_candidates (pathLookup : gmap string string) (includeTests : bool)
    (taskWords : list string) (files : list FileSnapshot) : list scoredFile :=
  fold_left (fun candidates f =>
               let path := default "" (pathLookup !! File_PathID f) in
               if String.eqb path "" then candidates
               else if File_IsBinary f || File_IsGenerated f then candidates
               else if negb includeTests && isTestFile path then candidates
               else
                 let tokens := estimateTokens (File_ByteSize f) in
                 let score := scoreFile path (File_Language f) taskWords in
                 let reason :=
                   if (2.0 <=? score)%float then "high-relevance"
                   else if (1.0 <=? score)%float then "medium-relevance"
                   else "low-relevance" in
                 candidates ++ [mkScoredFile f path score tokens reason])
            files [].

(** The set of PathIDs of the included files: for each file of the pack,
    the first snapshot whose path it is. *)
Definition included_paths (pathLookup : gmap string string) (files : list FileSnapshot)
    (packFiles : list PackItem) : gset string :=
  fold_left (fun included f =>
               match find (fun snap => String.eqb (default "" (pathLookup !! File_PathID snap))
                                                  (Item_Path f)) files with
               | Some snap => included ∪ {[ File_PathID snap ]}
               | None => included
               end)
            packFiles ∅.

Definition symbol_candidates (includedPaths : gset string) (taskWords : list string)
    (symbols : list SymbolRecord) : list scoredSymbol :=
  fold_left (fun candidates sym =>
               if negb (bool_decide (Symbol_PathID sym ∈ includedPaths)) then candidates
               else
                 let score := scoreSymbol sym taskWords in
                 let tokens := estimateTokens (Z.of_nat (String.length (Symbol_Signature sym)
                                                         + String.length (Symbol_Docstring sym))) in
                 let tokens := if (tokens <? 10)%Z then 10%Z else tokens in
                 candidates ++ [mkScoredSymbol sym score tokens])
            symbols [].

Definition sum_tokens (items : list PackItem) : Z :=
  fold_left (fun total (it : PackItem) => (total + Item_EstimatedTokens it)%Z) items 0%Z.

(** GeneratePack builds an optimized context pack from the indexed graph;
    [head] is what [index.GetHeadSHA(repoRoot)] returns. *)
Definition GeneratePack (g : Graph) (head : result string) (req : PackRequest)
    : result OptimizedPack :=
  let tokenCap := if (TokenCap req <=? 0)%Z then DefaultTokenCap else TokenCap req in
  commitSHA ← (if String.eqb (Commit req) ""
               then match head with
                    | Ok sha => Ok sha
                    | Err e => Err (ErrWrap "getting HEAD" e)
                    end
               else Ok (Commit req));
  files ← delta.wrap_sha "reading files" commitSHA (ReadRecords (files_jsonl g !! commitSHA));
  paths ← match ReadRecords (paths_jsonl g) with
          | Ok paths => Ok paths
          | Err e => Err (ErrWrap "reading paths" e)
          end;
  let pathLookup : gmap string string :=
    fold_left (fun m p => <[Path_PathID p := Path_Path p]> m) paths ∅ in
  let symbols :=
    match ReadRecords (symbols_jsonl g !! commitSHA) with
    | Ok symbols => symbols
    | Err _ => []
    end in
  let taskLower := ToLower (Task req) in
  let taskWords := extractTaskWords taskLower in
  let candidates :=
    sort_Slice file_less (file_candidates pathLookup (IncludeTests req) taskWords files) in
  let '(packFiles, remainingTokens) := fill_files tokenCap candidates [] tokenCap in
  let packSymbols :=
    if (0 <? length symbols)%nat then
      let includedPaths := included_paths pathLookup files packFiles in
      let symCandidates :=
        sort_Slice symbol_less (symbol_candidates includedPaths taskWords symbols) in
      fst (fill_symbols pathLookup symCandidates [] remainingTokens)
    else [] in
  let total := (sum_tokens packFiles + sum_tokens packSymbols)%Z in
  Ok (mkOptimizedPack commitSHA (Task req) packFiles packSymbols total tokenCap).

End optimize.

(** ** internal/pack: required fields *)

Module validate.
Import json pack.

(** [fmt.Sprintf("%d", i)] for an index. *)
Definition itoa (i : nat) : string := emit_nat (N.of_nat i) "".

(** The two errors: "missing required fields: %v" of Validate and "invalid
    execution log: missing required fields: %v" of validateLog, with the
    names collected. *)
Inductive failure : Type :=
  | ErrMissingFields (missing : list string)
  | ErrInvalidLog (missing : list string).

(** [if cond { missing = append(missing, name) }]. *)
Definition require (present : bool) (name : string) (missing : list string) : list string :=
  if present then missing else missing ++ [name].

Definition nonempty (s : string) : bool := negb (String.eqb s "").

(** [t.IsZero()], for a time in UTC as encoding/json writes it. *)
Definition IsZero (t : Time) : bool := String.eqb t zero_time.

(** Validate checks that all required fields are present in the pack
    manifest; [None] is the nil error. *)
Definition Validate (p : Pack) : option failure :=
  let missing := [] in
  let missing := require (nonempty (Pack_Version p)) "version" missing in
  let missing := require (negb (IsZero (Pack_Created p))) "created" missing in
  let missing := require (nonempty (Model_Identifier (Pack_Model p))) "model.identifier" missing in
  let missing := require (nonempty (Pack_SystemPrompt p)) "system_prompt" missing in
  let missing := require (nonempty (Environment_OS (Pack_Environment p))) "environment.os" missing in
  let missing := require (nonempty (Environment_Runtime (Pack_Environment p)))
                         "environment.runtime" missing in
  if (0 <? length missing)%nat then Some (ErrMissingFields missing) else None.

(** [for i, x := range l] over a list, [i] counted from [i0]. *)
Fixpoint range_fold {A B} (f : B -> nat -> A -> B) (i0 : nat) (l : list A) (acc : B) : B :=
  match l with
  | [] => acc
  | x :: r => range_fold f (S i0) r (f acc i0 x)
  end.

Definition validateLog (log : ExecutionLog) : option failure :=
  let missing := [] in
  let missing := require (nonempty (LogModel_Identifier (Log_Model log)))
                         "model.identifier" missing in
  let missing := require (nonempty (Log_SystemPrompt log)) "system_prompt" missing in
  let missing := require (nonempty (LogEnvironment_OS (Log_Environment log)))
                         "environment.os" missing in
  let missing := require (nonempty (LogEnvironment_Runtime (Log_Environment log)))
                         "environment.runtime" missing in
  let missing :=
    range_fold (fun missing i step =>
                  let missing := require (nonempty (LogStep_Tool step))
                                         ("steps[" +:+ itoa i +:+ "].tool") missing in
                  require (nonempty (LogStep_Type step))
                          ("steps[" +:+ itoa i +:+ "].type") missing)
               0 (Log_Steps log) missing in
  let missing :=
    range_fold (fun missing i output =>
                  require (nonempty (LogOutput_Name output))
                          ("outputs[" +:+ itoa i +:+ "].name") missing)
               0 (Log_Outputs log) missing in
  if (0 <? length missing)%nat then Some (ErrInvalidLog missing) else None.

End validate.

(** ** internal/diff *)

Module diff.
Import json store pack validate.

Definition DriftType : Type := string.

(** What the [interface{}] fields of a [DriftEntry] hold: nothing, a string
    or the parameters of a step. *)
Inductive payload : Type :=
  | NoValue
  | Text (s : string)
  | Params (m : gomap value).

(** The descriptions are written with [%d] and [%s] filled in; [%q] stays
    in the text and its argument is kept beside it. *)
Record DriftEntry : Type := mkDriftEntry {
  Entry_Type : DriftType;
  Entry_Description : string;
  Entry_Name : string;       (* the %q argument of the description *)
  Entry_StepIndex : Z;
  Entry_PackA : payload;
  Entry_PackB : payload
}.












End diff.

(** * Properties *)

(** ** Strings *)

Local Arguments String.append !_ _ : simpl nomatch.
Local Arguments store.HashContent : simpl never.
Local Arguments Sha256.Sum256 : simpl never.
Local Arguments store.ShortHash : simpl never.

Section string_facts.

Lemma prefix_app (p s : string) : HasPrefix (p +:+ s) p = true.
Proof.
  induction p as [|c p IH]; simpl; [done|].
  by rewrite Ascii.eqb_refl, IH.
Qed.

Lemma prefix_inv (p s : string) :
  HasPrefix s p = true -> s = p +:+ string_drop (String.length p) s.
Proof.
  revert s. induction p as [|c p IH]; intros s H; simpl in *; [done|].
  destruct s as [|c' s]; [done|].
  apply andb_true_iff in H as [->%Ascii.eqb_eq H].
  simpl. f_equal. by apply IH.
Qed.

Lemma string_drop_app (p s : string) : string_drop (String.length p) (p +:+ s) = s.
Proof. induction p as [|c p IH]; simpl; [by destruct s | exact IH]. Qed.

Lemma string_length_app (p s : string) :
  String.length (p +:+ s) = String.length p + String.length s.
Proof. induction p as [|c p IH]; simpl; [done | by rewrite IH]. Qed.

Lemma string_app_assoc (a b c : string) : (a +:+ b) +:+ c = a +:+ (b +:+ c).
Proof. induction a as [|x a IH]; simpl; [done | by rewrite IH]. Qed.

Lemma string_forallb_app (p : ascii -> bool) (a b : string) :
  string_forallb p (a +:+ b) = string_forallb p a && string_forallb p b.
Proof. induction a as [|x a IH]; simpl; [done | by rewrite IH, andb_assoc]. Qed.

Lemma prefix_length (p s : string) :
  HasPrefix s p = true -> String.length p <= String.length s.
Proof.
  intros H. rewrite (prefix_inv _ _ H), string_length_app. lia.
Qed.

Lemma prefix_forallb (f : ascii -> bool) (p s : string) :
  HasPrefix s p = true -> string_forallb f s = true -> string_forallb f p = true.
Proof.
  intros H. rewrite (prefix_inv _ _ H), string_forallb_app.
  by intros [? _]%andb_true_iff.
Qed.

Lemma string_eqb_eq (a b : string) : String.eqb a b = true <-> a = b.
Proof. apply String.eqb_eq. Qed.

End string_facts.

(** ** Hash references *)

Section hash_facts.
Import store.

Definition is_hex64 (h : string) : Prop :=
  String.length h = 64 /\ string_forallb is_hex_char h = true.

Lemma digit_lower_hex (n : N) : (n < 16)%N -> is_lower_hex (hex.digit n) = true.
Proof.
  intros H.
  pose proof (eq_refl : forallb (fun k => is_lower_hex (hex.digit (N.of_nat k))) (seq 0 16) = true)
    as Hall.
  rewrite forallb_forall in Hall. specialize (Hall (N.to_nat n)).
  rewrite N2Nat.id in Hall. apply Hall, in_seq. lia.
Qed.

Lemma of_word_length (d : nat) (x : N) : String.length (hex.of_word d x) = d.
Proof.
  revert x. induction d as [|d IH]; intros x; simpl; [done|].
  rewrite string_length_app, IH. simpl. lia.
Qed.

Lemma of_word_lower_hex (d : nat) (x : N) : string_forallb is_lower_hex (hex.of_word d x) = true.
Proof.
  revert x. induction d as [|d IH]; intros x; simpl; [done|].
  rewrite string_forallb_app, IH. simpl.
  rewrite digit_lower_hex; [done|]. apply N.mod_lt. lia.
Qed.

Lemma EncodeToString_length (st : Sha256.state) : String.length (hex.EncodeToString st) = 64.
Proof.
  unfold hex.EncodeToString. by rewrite !string_length_app, !of_word_length.
Qed.

Lemma EncodeToString_lower_hex (st : Sha256.state) :
  string_forallb is_lower_hex (hex.EncodeToString st) = true.
Proof.
  unfold hex.EncodeToString. by rewrite !string_forallb_app, !of_word_lower_hex.
Qed.

Lemma forallb_weaken (p q : ascii -> bool) (s : string) :
  (forall c, p c = true -> q c = true) ->
  string_forallb p s = true -> string_forallb q s = true.
Proof.
  intros Hpq. induction s as [|c s IH]; simpl; [done|].
  intros [Hc Hs]%andb_true_iff. by rewrite (Hpq _ Hc), IH.
Qed.

Lemma lower_hex_is_hex (c : ascii) : is_lower_hex c = true -> is_hex_char c = true.
Proof. unfold is_hex_char. by intros ->. Qed.

(** ParseHash accepts exactly "sha256:" followed by 64 hex characters. *)
Lemma ParseHash_Ok (ref a h : string) :
  ParseHash ref = Ok (a, h) <-> a = "sha256" /\ ref = hashPrefix +:+ h /\ is_hex64 h.
Proof.
  unfold ParseHash, is_hex64, hex.decodable. split.
  - destruct (HasPrefix ref hashPrefix) eqn:Hp; cbn [negb]; [|done].
    apply prefix_inv in Hp.
    set (hexStr := string_drop (String.length hashPrefix) ref) in *.
    destruct (Nat.eqb_spec (String.length hexStr) 64) as [Hl|]; cbn [negb]; [|done].
    rewrite Hl. cbn [Nat.even andb].
    destruct (string_forallb is_hex_char hexStr) eqn:Hh; cbn [negb]; [|done].
    intros [= <- <-]. done.
  - intros (-> & -> & Hl & Hh).
    rewrite prefix_app, string_drop_app, Hl, Hh. done.
Qed.

Lemma ParseHash_HashContent (data : string) :
  ParseHash (HashContent data) = Ok ("sha256", hex.EncodeToString (Sha256.Sum256 data)).
Proof.
  apply ParseHash_Ok. split; [done|]. split; [done|]. split.
  - apply EncodeToString_length.
  - eapply forallb_weaken; [apply lower_hex_is_hex | apply EncodeToString_lower_hex].
Qed.

Lemma ValidateHash_true (ref : string) :
  ValidateHash ref = true <-> exists h, ref = hashPrefix +:+ h /\ is_hex64 h.
Proof.
  unfold ValidateHash. split.
  - destruct (ParseHash ref) as [[a h]|] eqn:E; [|done].
    intros _. apply ParseHash_Ok in E as (_ & ? & ?). eauto.
  - intros (h & Href & Hh).
    assert (ParseHash ref = Ok ("sha256", h)) as -> by (apply ParseHash_Ok; done). done.
Qed.

Lemma not_hex_s : is_hex_char "s" = false.
Proof. reflexivity. Qed.

(** A run of hex characters does not begin with the prefix "sha256:". *)
Lemma hex_no_hashPrefix (h : string) :
  string_forallb is_hex_char h = true -> HasPrefix h hashPrefix = false.
Proof.
  destruct h as [|c h]; [done|]. unfold hashPrefix. cbn [HasPrefix string_forallb].
  destruct (Ascii.eqb_spec "s" c) as [<-|]; [|done].
  by rewrite not_hex_s.
Qed.

Lemma hex_no_ctxPrefix (h : string) :
  string_forallb is_hex_char h = true -> stripCtxPrefix h = h.
Proof.
  unfold stripCtxPrefix.
  intros H.
  assert (HasPrefix h "ctx://" = false) as ->; [|done].
  destruct h as [|c0 [|c1 h]]; cbn [HasPrefix string_forallb] in *; [done| |].
  - by rewrite andb_false_r.
  - destruct (Ascii.eqb_spec "c" c0) as [<-|]; [|done].
    destruct (Ascii.eqb_spec "t" c1) as [<-|]; [|done].
    by vm_compute in H.
Qed.

Lemma NormalizeHash_Ok (ref n : string) :
  NormalizeHash ref = Ok n <->
  exists h, is_hex64 h /\ (ref = hashPrefix +:+ h \/ ref = h) /\ n = hashPrefix +:+ h.
Proof.
  unfold NormalizeHash. split.
  - destruct (HasPrefix ref hashPrefix) eqn:Hp.
    + destruct (ValidateHash ref) eqn:Hv; simpl; [|done].
      intros [= <-]. apply ValidateHash_true in Hv as (h & -> & Hh). eauto.
    + destruct (ValidateHash (hashPrefix +:+ ref)) eqn:Hv; simpl; [|done].
      intros [= <-]. apply ValidateHash_true in Hv as (h & Heq & Hh).
      apply (inj (String.app hashPrefix)) in Heq as ->. eauto.
  - intros (h & Hh & [-> | ->] & ->).
    + rewrite prefix_app.
      assert (ValidateHash (hashPrefix +:+ h) = true) as -> by (apply ValidateHash_true; eauto).
      done.
    + rewrite hex_no_hashPrefix by apply Hh.
      assert (ValidateHash (hashPrefix +:+ h) = true) as -> by (apply ValidateHash_true; eauto).
      done.
Qed.

End hash_facts.

(** ** The blob store and the resolver *)

Section resolver.
Import store.

(** C8 as the specification states it does not hold: a reference in
    upper-case hex is accepted and returned with its case unchanged. *)
Lemma NormalizeHash_keeps_upper_case :
  ~ (forall ref n : string,
       NormalizeHash ref = Ok n ->
       string_forallb is_lower_hex (string_drop (String.length hashPrefix) n) = true).
Proof.
  intros H.
  specialize (H "ABCDEF0123456789ABCDEF0123456789ABCDEF0123456789ABCDEF0123456789"
                "sha256:ABCDEF0123456789ABCDEF0123456789ABCDEF0123456789ABCDEF0123456789").
  vm_compute in H. specialize (H eq_refl). discriminate H.
Qed.

(** C8, amended: NormalizeHash accepts exactly a "sha256:"-prefixed
    reference or a bare string of 64 hex characters (of either case), and
    returns "sha256:" followed by the hex characters of the input as they
    are; every other input is rejected with an error. *)
Theorem NormalizeHash_accepts (ref : string) :
  (forall n, NormalizeHash ref = Ok n <->
             exists h, is_hex64 h /\ (ref = hashPrefix +:+ h \/ ref = h) /\ n = hashPrefix +:+ h)
  /\ ((~ exists h, is_hex64 h /\ (ref = hashPrefix +:+ h \/ ref = h)) <->
      exists e, NormalizeHash ref = Err e).
Proof.
  split; [intros n; apply NormalizeHash_Ok|].
  split.
  - intros Hno. destruct (NormalizeHash ref) as [n|e] eqn:E; [|eauto].
    apply NormalizeHash_Ok in E as (h & ? & ? & _). destruct Hno; eauto.
  - intros [e He] (h & Hh & Href).
    assert (NormalizeHash ref = Ok (hashPrefix +:+ h)) as E
      by (apply NormalizeHash_Ok; eauto).
    congruence.
Qed.



(** C2: ReadBlob returns bytes only when they hash to the reference asked
    for; a missing file is "blob not found", other bytes are an integrity
    error, and in neither case are bytes returned. *)
Theorem ReadBlob_verifies (s : Store) (ref : string) :
  match ReadBlob s ref with
  | Ok b =>
      HashContent b = ref /\ exists path, blobPath ref = Ok path /\ objects s !! path = Some b
  | Err e =>
      match blobPath ref with
      | Err e' => e = e'
      | Ok path =>
          match objects s !! path with
          | None => e = ErrBlobNotFound (ShortHash ref 12)
          | Some data =>
              HashContent data <> ref /\
              e = ErrIntegrity (ShortHash ref 12) (ShortHash (HashContent data) 12)
          end
      end
  end.
Proof.
  unfold ReadBlob. destruct (blobPath ref) as [path|e]; cbn; [|done].
  destruct (objects s !! path) as [data|] eqn:E; [|done].
  destruct (String.eqb_spec (HashContent data) ref) as [Heq|Hne]; cbn.
  - split; [done|]. eauto.
  - done.
Qed.

(** The file names of packs/. *)
Definition registered (s : Store) (name : string) : Prop :=
  exists dir, packs s = Some dir /\ is_Some (dir !! name).



Lemma filter_unique {A} (P : A -> Prop) `{forall x, Decision (P x)} (l : list A) (a : A) :
  NoDup l -> a ∈ l -> P a -> (forall x, x ∈ l -> P x -> x = a) -> filter P l = [a].
Proof.
  induction l as [|x l IH]; intros Hnd Hin Ha Huniq; [by apply elem_of_nil in Hin|].
  apply NoDup_cons in Hnd as [Hx Hnd].
  assert (forall y, y ∈ l -> P y -> y = a) as Hl by (intros; apply Huniq; [by right|done]).
  destruct (decide (P x)) as [HPx|HPx].
  - rewrite filter_cons_True by done.
    assert (x = a) as -> by (apply Huniq; [left|done]).
    f_equal. destruct (filter P l) as [|y r] eqn:E; [done|].
    assert (y ∈ filter P l) as [HPy Hy]%list_elem_of_filter by (rewrite E; left).
    by rewrite (Hl y Hy HPy) in Hy.
  - rewrite filter_cons_False by done.
    apply elem_of_cons in Hin as [->|Hin]; [done|]. by apply IH.
Qed.

Lemma filter_two {A} (P : A -> Prop) `{forall x, Decision (P x)} (l : list A) (a b : A) :
  a ∈ l -> b ∈ l -> a <> b -> P a -> P b -> 2 <= length (filter P l).
Proof.
  intros Ha Hb Hab HPa HPb.
  assert (a ∈ filter P l) as Ha' by (by apply list_elem_of_filter).
  assert (b ∈ filter P l) as Hb' by (by apply list_elem_of_filter).
  destruct (filter P l) as [|x [|y r]]; simpl; [by apply elem_of_nil in Ha'| |lia].
  apply list_elem_of_singleton in Ha', Hb'. congruence.
Qed.

Lemma registered_elem_of (s : Store) (dir : gmap string string) (name : string) :
  packs s = Some dir -> (registered s name <-> name ∈ map fst (map_to_list dir)).
Proof.
  intros Hdir. unfold registered. rewrite Hdir. split.
  - intros (? & [= <-] & [v Hv]).
    apply list_elem_of_fmap. exists (name, v). split; [done|]. by apply elem_of_map_to_list.
  - intros ([k v] & -> & Hkv%elem_of_map_to_list)%list_elem_of_fmap. eauto.
Qed.

(** What ResolveHash does with a hex prefix shorter than a full hash. *)
Lemma ResolveHash_short (s : Store) (q : string) :
  isHexString q = true -> 4 <= String.length q < 64 ->
  ResolveHash s q =
    match packs s with
    | None => Err ErrNoPacks
    | Some dir =>
        match filter (fun name => HasPrefix name q = true) (map fst (map_to_list dir)) with
        | [] => Err (ErrNoPackWithPrefix q)
        | [name] => Ok (hashPrefix +:+ name)
        | l => Err (ErrAmbiguous q (length l))
        end
    end.
Proof.
  intros Hhex [Hlo Hhi]. unfold ResolveHash.
  assert (string_forallb is_hex_char q = true) as Hall.
  { unfold isHexString in Hhex. by destruct (String.length q =? 0). }
  rewrite (hex_no_ctxPrefix q Hall).
  destruct (NormalizeHash q) as [n|e] eqn:E.
  { apply NormalizeHash_Ok in E as (h & [Hlen _] & [-> | ->] & _).
    - rewrite string_length_app, Hlen in Hhi. simpl in Hhi. lia.
    - lia. }
  rewrite Hhex. cbn [negb].
  destruct (Nat.ltb_spec (String.length q) 4) as [|_]; [lia|].
  unfold ReadDir_packs. destruct (packs s) as [dir|]; [|done].
  set (l := filter _ _).
  destruct l as [|x [|y r]]; [done..|]. cbn [map length]. by rewrite length_map.
Qed.

(** C3: a prefix of at least four characters of a registered pack's hex
    resolves to that pack when no other entry of packs/ starts with it, is
    ambiguous when another entry does, and a hex prefix that no entry starts
    with is not found. *)
Theorem ResolveHash_prefix :
  (forall (s : Store) (r hexStr q : string),
      ParseHash r = Ok ("sha256", hexStr) -> registered s hexStr ->
      HasPrefix hexStr q = true -> 4 <= String.length q < 64 ->
      ((forall name, registered s name -> HasPrefix name q = true -> name = hexStr) ->
       ResolveHash s q = Ok r)
      /\ (forall name, registered s name -> HasPrefix name q = true -> name <> hexStr ->
          exists n, 2 <= n /\ ResolveHash s q = Err (ErrAmbiguous q n)))
  /\ (forall (s : Store) (q : string),
      isHexString q = true -> 4 <= String.length q < 64 ->
      (forall name, registered s name -> HasPrefix name q = false) ->
      ResolveHash s q = match packs s with
                        | Some _ => Err (ErrNoPackWithPrefix q)
                        | None => Err ErrNoPacks
                        end).
Proof.
  split.
  - intros s r hexStr q Hr Hreg Hpre Hlen.
    apply ParseHash_Ok in Hr as (_ & -> & _ & Hhex).
    assert (isHexString q = true) as Hq.
    { unfold isHexString. destruct (Nat.eqb_spec (String.length q) 0); [lia|].
      by apply (prefix_forallb _ _ hexStr). }
    rewrite (ResolveHash_short s q Hq Hlen).
    destruct Hreg as (dir & Hdir & Hsome). rewrite Hdir.
    assert (hexStr ∈ map fst (map_to_list dir)) as Hin
      by (apply (registered_elem_of s); [done | by exists dir]).
    split.
    + intros Huniq.
      rewrite (filter_unique _ _ hexStr); [done | apply NoDup_fst_map_to_list | done..|].
      intros x Hx. apply Huniq. by apply (registered_elem_of s dir).
    + intros name Hname Hpre' Hne.
      apply (registered_elem_of s dir) in Hname; [|done].
      pose proof (filter_two (fun name => HasPrefix name q = true) _ name hexStr
                    Hname Hin Hne Hpre' Hpre) as Htwo.
      destruct (filter _ _) as [|x [|y l]]; simpl in Htwo; [lia..|].
      eexists. split; [|done]. simpl. lia.
  - intros s q Hq Hlen Hnone.
    rewrite (ResolveHash_short s q Hq Hlen).
    destruct (packs s) as [dir|] eqn:Hdir; [|done].
    destruct (filter _ _) as [|x l] eqn:E; [done|].
    assert (x ∈ filter (fun name => HasPrefix name q = true) (map fst (map_to_list dir)))
      as [Hx Hin]%list_elem_of_filter by (rewrite E; left).
    rewrite (Hnone x) in Hx; [done|]. by apply (registered_elem_of s dir).
Qed.

Definition hex1 : string := "abcd111111111111111111111111111111111111111111111111111111111111".
Definition hex2 : string := "abcd222222222222222222222222222222222222222222222222222222222222".
Definition two_packs : Store :=
  mkStore ∅ (Some (<[hex1 := hashPrefix +:+ hex1]> (<[hex2 := hashPrefix +:+ hex2]> ∅))) ∅.

Lemma ResolveHash_prefix_witness :
  ResolveHash two_packs "abcd1" = Ok (hashPrefix +:+ hex1)
  /\ (exists n, 2 <= n /\ ResolveHash two_packs "abcd" = Err (ErrAmbiguous "abcd" n))
  /\ ResolveHash two_packs "abcd3" = Err (ErrNoPackWithPrefix "abcd3").
Proof.
  assert (forall name, registered two_packs name -> name = hex1 \/ name = hex2) as Hnames.
  { intros name (dir & [= <-] & Hsome).
    destruct (decide (name = hex1)) as [|Hn1]; [by left|].
    destruct (decide (name = hex2)) as [|Hn2]; [by right|].
    rewrite lookup_insert_ne, lookup_insert_ne, lookup_empty in Hsome by done.
    by destruct Hsome. }
  assert (registered two_packs hex1) as Hreg1
    by (eexists; split; [done | by rewrite lookup_insert_eq]).
  assert (registered two_packs hex2) as Hreg2
    by (eexists; split; [done | by rewrite lookup_insert_ne, lookup_insert_eq]).
  destruct ResolveHash_prefix as [Hfound Hmissing].
  split; [|split].
  - refine (proj1 (Hfound two_packs (hashPrefix +:+ hex1) hex1 "abcd1" _ Hreg1 _ _) _).
    + vm_compute; reflexivity.
    + vm_compute; reflexivity.
    + vm_compute; lia.
    + intros name [-> | ->]%Hnames; [done | by vm_compute].
  - refine (proj2 (Hfound two_packs (hashPrefix +:+ hex1) hex1 "abcd" _ Hreg1 _ _) hex2 Hreg2 _ _).
    + vm_compute; reflexivity.
    + vm_compute; reflexivity.
    + vm_compute; lia.
    + vm_compute; reflexivity.
    + by vm_compute.
  - refine (Hmissing two_packs "abcd3" _ _ _).
    + vm_compute; reflexivity.
    + vm_compute; lia.
    + intros name [-> | ->]%Hnames; by vm_compute.
Defined.

End resolver.

(** ** Replay *)

Section replay_facts.
Import json store pack create replay.

(** The executor of the step's tool is not registered or returns an error. *)
Definition step_fails (executors : gmap string ToolExecutor) (st : Step) : Prop :=
  match executors !! Step_Tool st with
  | None => True
  | Some executor => exists e, executor (Step_Tool st) (Step_Parameters st) = Err e
  end.

(** The executor produces output whose hash differs from the recorded
    output_ref. *)
Definition step_diverges (executors : gmap string ToolExecutor) (st : Step) : Prop :=
  exists executor output,
    executors !! Step_Tool st = Some executor
    /\ executor (Step_Tool st) (Step_Parameters st) = Ok output
    /\ HashContent output <> Step_OutputRef st.

(** The verdict as a function of the step results alone. *)
Definition verdict (results : list StepResult) : FidelityLevel :=
  if existsb (fun r => match Result_Status r with StepFailed => true | _ => false end) results
  then FidelityFailed
  else if existsb (fun r => match Result_Status r with
                            | StepDiverged => Result_Deterministic r
                            | _ => false
                            end) results
  then FidelityDegraded
  else FidelityExact.

Lemma ExecuteStep_failed (ex : gmap string ToolExecutor) (st : Step) :
  Result_Status (ExecuteStep st ex) = StepFailed <-> step_fails ex st.
Proof.
  unfold ExecuteStep, step_fails.
  destruct (ex !! Step_Tool st) as [executor|]; [|done].
  destruct (executor _ _) as [output|e]; cbn.
  - destruct (String.eqb _ _); cbn; (split; [done | intros [? Hn]; discriminate Hn]).
  - split; eauto.
Qed.

Lemma ExecuteStep_diverged (ex : gmap string ToolExecutor) (st : Step) :
  Result_Status (ExecuteStep st ex) = StepDiverged <-> step_diverges ex st.
Proof.
  unfold ExecuteStep, step_diverges.
  destruct (ex !! Step_Tool st) as [executor|]; cbn.
  2: { split; [done | intros (? & ? & Hn & _); discriminate Hn]. }
  destruct (executor _ _) as [output|e] eqn:E; cbn.
  2: { split; [done | intros (? & ? & [= <-] & Hn & _); congruence]. }
  destruct (String.eqb_spec (HashContent output) (Step_OutputRef st)) as [Heq|Hne]; cbn.
  - split; [done|]. intros (? & ? & [= <-] & Hn & ?). congruence.
  - split; [|done]. intros _. eauto.
Qed.

Lemma ExecuteStep_Deterministic (ex : gmap string ToolExecutor) (st : Step) :
  Result_Deterministic (ExecuteStep st ex) = Step_Deterministic st.
Proof.
  unfold ExecuteStep. destruct (ex !! Step_Tool st) as [executor|]; [|done].
  destruct (executor _ _); [|done]. by destruct (String.eqb _ _).
Qed.

(** The loop over the steps collects one result per step and raises each
    flag when a result calls for it. *)
Lemma run_steps (ex : gmap string ToolExecutor) (steps : list Step)
    (acc : list StepResult) (f d : bool) :
  fold_left (run_step ex) steps (acc, f, d) =
  let results := map (fun st => ExecuteStep st ex) steps in
  (acc ++ results,
   f || existsb (fun r => match Result_Status r with StepFailed => true | _ => false end) results,
   d || existsb (fun r => match Result_Status r with
                          | StepDiverged => Result_Deterministic r
                          | _ => false
                          end) results).
Proof.
  revert acc f d. induction steps as [|st steps IH]; intros acc f d; cbn [fold_left map existsb].
  - by rewrite app_nil_r, !orb_false_r.
  - unfold run_step at 2. cbn zeta.
    destruct (Result_Status (ExecuteStep st ex)) eqn:E.
    + rewrite IH. cbn zeta. by rewrite <- app_assoc.
    + destruct (Result_Deterministic (ExecuteStep st ex)) eqn:D.
      * rewrite IH. cbn zeta. by rewrite <- app_assoc, orb_true_r.
      * rewrite IH. cbn zeta. by rewrite <- app_assoc.
    + rewrite IH. cbn zeta. by rewrite <- app_assoc, orb_true_r.
Qed.

Lemma replay_pack_steps (h : Host) (s : Store) (p : Pack) :
  Report_Steps (replay_pack h s p)
  = map (fun st => ExecuteStep st (DefaultExecutors h)) (elems (Pack_Steps p))
  /\ Report_Fidelity (replay_pack h s p) = verdict (Report_Steps (replay_pack h s p)).
Proof.
  unfold replay_pack. rewrite run_steps. cbn. unfold verdict.
  split; [done|].
  repeat match goal with |- context [existsb ?f ?l] => destruct (existsb f l) end; done.
Qed.

Lemma Replay_Ok (h : Host) (s : Store) (packHash : string) (report : ReplayReport) :
  Replay h s packHash = Ok report <->
  exists p, LoadPack s packHash = Ok p /\ report = replay_pack h s p.
Proof.
  unfold Replay. destruct (LoadPack s packHash) as [p|e]; cbn.
  - split; [intros [= <-]; eauto | by intros (? & [= <-] & ->)].
  - split; [done | by intros (? & ? & _)].
Qed.

Lemma existsb_false_forall {A} (f : A -> bool) (l : list A) :
  existsb f l = false <-> forall x, x ∈ l -> f x = false.
Proof.
  induction l as [|a l IH]; cbn.
  - split; [by intros _ x ?%elem_of_nil | done].
  - rewrite orb_false_iff, IH. split.
    + intros [Ha Hl] x [->|?]%elem_of_cons; auto.
    + intros H. split; [apply H; left | intros x ?; apply H; by right].
Qed.

(** C4: the fidelity of a replay is failed when the executor of some step
    is not registered or returns an error; otherwise degraded when some
    deterministic step produces output whose hash is not the recorded
    output_ref; otherwise exact, in particular when only non-deterministic
    steps diverge. *)
Theorem Replay_fidelity (h : Host) (s : Store) (packHash : string) (report : ReplayReport) :
  Replay h s packHash = Ok report ->
  exists p, LoadPack s packHash = Ok p /\
    let executors := DefaultExecutors h in
    let steps := elems (Pack_Steps p) in
    ((exists st, st ∈ steps /\ step_fails executors st) ->
     Report_Fidelity report = FidelityFailed)
    /\ ((forall st, st ∈ steps -> ~ step_fails executors st) ->
        (exists st, st ∈ steps /\ Step_Deterministic st = true /\ step_diverges executors st) ->
        Report_Fidelity report = FidelityDegraded)
    /\ ((forall st, st ∈ steps -> ~ step_fails executors st) ->
        (forall st, st ∈ steps -> step_diverges executors st -> Step_Deterministic st = false) ->
        Report_Fidelity report = FidelityExact).
Proof.
  intros (p & Hload & ->)%Replay_Ok. exists p. split; [done|]. cbn zeta.
  destruct (replay_pack_steps h s p) as [Hsteps ->]. rewrite Hsteps. unfold verdict.
  set (ex := DefaultExecutors h). set (steps := elems (Pack_Steps p)).
  set (failed := existsb _ _). set (diverged := existsb _ _).
  assert (failed = true <-> exists st, st ∈ steps /\ step_fails ex st) as Hfailed.
  { unfold failed. rewrite existsb_exists. split.
    - intros (r & (st & <- & Hst)%in_map_iff & Hr). exists st.
      split; [by apply list_elem_of_In|]. apply ExecuteStep_failed. by destruct (Result_Status _).
    - intros (st & Hst%list_elem_of_In & Hf%ExecuteStep_failed).
      exists (ExecuteStep st ex).
      split; [by apply (in_map (fun st => ExecuteStep st ex)) | by rewrite Hf]. }
  assert (diverged = true <->
          exists st, st ∈ steps /\ Step_Deterministic st = true /\ step_diverges ex st) as Hdiv.
  { unfold diverged. rewrite existsb_exists. split.
    - intros (r & (st & <- & Hst)%in_map_iff & Hr). exists st.
      split; [by apply list_elem_of_In|].
      destruct (Result_Status (ExecuteStep st ex)) eqn:E; [done| |done].
      rewrite ExecuteStep_Deterministic in Hr. split; [done | by apply ExecuteStep_diverged].
    - intros (st & Hst%list_elem_of_In & Hdet & Hd%ExecuteStep_diverged).
      exists (ExecuteStep st ex).
      split; [by apply (in_map (fun st => ExecuteStep st ex))|].
      by rewrite Hd, ExecuteStep_Deterministic. }
  split; [|split].
  - intros Hex. apply Hfailed in Hex. by rewrite Hex.
  - intros Hnone Hsome. apply Hdiv in Hsome. rewrite Hsome.
    destruct failed; [|done]. destruct (proj1 Hfailed eq_refl) as (st & ? & ?).
    by destruct (Hnone st).
  - intros Hnone Hnondet.
    destruct failed.
    { destruct (proj1 Hfailed eq_refl) as (st & ? & ?). by destruct (Hnone st). }
    destruct diverged; [|done].
    destruct (proj1 Hdiv eq_refl) as (st & Hst & Hdet & Hd).
    rewrite (Hnondet st Hst Hd) in Hdet. done.
Qed.



(** A run in the manner of the repository's replay tests: one step that
    reads a file, recorded as non-deterministic with an output the file no
    longer has, and one input. *)
Definition replay_log : ExecutionLog :=
  mkExecutionLog (mkLogModel "test-model" (Some [])) "test prompt"
    [mkLogPrompt "user" "test"] [mkLogInput "data.txt" "input data"]
    [mkLogStep 0 "tool_call" "read_file" (Some [("path", JString "test.txt")])
               "different output" false "2026-01-15T10:00:00Z"]
    [mkLogOutput "out.txt" "result"]
    (mkLogEnvironment "darwin" "go1.22" (Some [])).

Definition replay_host : Host :=
  mkHost "linux" {[ "test.txt" := "actual output" ]} "2026-01-16T09:00:00Z" "2026-01-16T09:00:01Z".

Definition replay_store : Store :=
  fst (CreatePack "2026-01-15T10:00:01Z" (mkStore ∅ (Some ∅) ∅) replay_log).

Definition replay_hash : string :=
  match snd (CreatePack "2026-01-15T10:00:01Z" (mkStore ∅ (Some ∅) ∅) replay_log) with
  | Ok p => Pack_Hash p
  | Err _ => ""
  end.

Lemma Replay_fidelity_witness :
  exists report,
    Replay replay_host replay_store replay_hash = Ok report
    /\ Report_Fidelity report = FidelityExact.
Proof.
  destruct (Replay replay_host replay_store replay_hash) as [report|e] eqn:E;
    [|vm_compute in E; discriminate E].
  exists report. split; [reflexivity|].
  destruct (Replay_fidelity _ _ _ _ E) as (p & Hload & _ & _ & Hexact).
  vm_compute in Hload. injection Hload as <-.
  apply Hexact.
  - intros st ->%list_elem_of_singleton. vm_compute. intros [e He]. discriminate He.
  - intros st ->%list_elem_of_singleton _. reflexivity.
Defined.

Lemma missing_inputs_drift (s : Store) (inputs : list Input) (drift : list DriftEntry) :
  let entry (input : Input) :=
    mkDriftEntry "missing_input" "input %q not found in store" (Input_Name input)
                 (ShortHash (Input_ContentRef input) 12) "" in
  let result :=
    fold_left (fun drift input =>
                 if negb (BlobExists s (Input_ContentRef input))
                 then drift ++ [entry input] else drift) inputs drift in
  (forall d, d ∈ drift -> d ∈ result)
  /\ (forall input, input ∈ inputs -> BlobExists s (Input_ContentRef input) = false ->
      entry input ∈ result).
Proof.
  cbn zeta. revert drift. induction inputs as [|i inputs IH]; intros drift; cbn [fold_left].
  - split; [done | by intros ? ?%elem_of_nil].
  - destruct (IH (if negb (BlobExists s (Input_ContentRef i))
                  then drift ++ [mkDriftEntry "missing_input" "input %q not found in store"
                                   (Input_Name i) (ShortHash (Input_ContentRef i) 12) ""]
                  else drift)) as [Hkeep Hadd].
    split.
    + intros d Hd. apply Hkeep. destruct (negb _); [apply elem_of_app; by left | done].
    + intros input [->|Hin]%elem_of_cons Hmiss; [|by apply Hadd].
      apply Hkeep. rewrite Hmiss. cbn. apply elem_of_app. right. left.
Qed.

(** C9: the fidelity of a replay is a function of its step results alone.
    An input whose blob is not in the store adds a missing_input entry to
    the drift list and changes nothing else, and a replay all of whose
    steps match is exact whatever inputs are missing. *)
Theorem Replay_missing_inputs (h : Host) (s : Store) (packHash : string)
    (report : ReplayReport) :
  Replay h s packHash = Ok report ->
  Report_Fidelity report = verdict (Report_Steps report)
  /\ (exists p, LoadPack s packHash = Ok p
        /\ Report_Steps report
           = map (fun st => ExecuteStep st (DefaultExecutors h)) (elems (Pack_Steps p))
        /\ forall input, input ∈ elems (Pack_Inputs p) ->
             BlobExists s (Input_ContentRef input) = false ->
             mkDriftEntry "missing_input" "input %q not found in store" (Input_Name input)
                          (ShortHash (Input_ContentRef input) 12) "" ∈ Report_Drift report)
  /\ ((forall r, r ∈ Report_Steps report -> Result_Status r = StepMatched) ->
      Report_Fidelity report = FidelityExact).
Proof.
  intros (p & Hload & ->)%Replay_Ok.
  destruct (replay_pack_steps h s p) as [Hsteps Hfid].
  split; [done|]. split.
  - exists p. split; [done|]. split; [done|].
    intros input Hin Hmiss. unfold replay_pack.
    destruct (fold_left (run_step _) _ _) as [[steps hasFailed] hasDiverged]. cbn.
    by apply missing_inputs_drift.
  - intros Hall. rewrite Hfid. unfold verdict.
    assert (forall (f : StepResult -> bool),
              (forall r, Result_Status r = StepMatched -> f r = false) ->
              existsb f (Report_Steps (replay_pack h s p)) = false) as Hnone.
    { intros f Hf. apply existsb_false_forall. intros r Hr. apply Hf, Hall, Hr. }
    rewrite !Hnone; [done | by intros r -> | by intros r ->].
Qed.

(** The store of the run above after the blob of its input is lost, and a
    host on which the file read by the step has the recorded content. *)
Definition store_without_input : Store :=
  set_objects replay_store
    (delete (match blobPath (HashContent "input data") with Ok path => path | Err _ => "" end)
            (objects replay_store)).

Definition matching_host : Host :=
  mkHost "darwin" {[ "test.txt" := "different output" ]}
         "2026-01-16T09:00:00Z" "2026-01-16T09:00:01Z".

Lemma Replay_missing_inputs_witness :
  exists report,
    Replay matching_host store_without_input replay_hash = Ok report
    /\ Report_Fidelity report = FidelityExact
    /\ exists d, d ∈ Report_Drift report /\ Drift_Type d = "missing_input".
Proof.
  destruct (Replay matching_host store_without_input replay_hash) as [report|e] eqn:E;
    [|vm_compute in E; discriminate E].
  exists report. split; [reflexivity|].
  destruct (Replay_missing_inputs _ _ _ _ E) as (_ & (p & Hload & Hsteps & Hdrift) & Hexact).
  split.
  - apply Hexact. rewrite Hsteps. vm_compute in Hload. injection Hload as <-.
    intros r Hr. vm_compute in Hr. apply list_elem_of_singleton in Hr as ->. reflexivity.
  - vm_compute in Hload. injection Hload as <-.
    eexists. split; [|shelve].
    apply (Hdrift (mkInput "data.txt" (HashContent "input data") 10)).
    + vm_compute. left.
    + vm_compute. reflexivity.
    Unshelve. reflexivity.
Defined.

End replay_facts.

(** ** Delta *)

Section delta_facts.
Import graph delta.

(** Where a path-id stands between the files of a base and of a head
    commit. *)
Inductive status : Type := Added | Changed | Deleted | Unchanged.

Global Instance status_eq_dec : EqDecision status.
Proof. solve_decision. Defined.

Definition status_of (baseMap headMap : gmap string FileSnapshot) (pathID : string)
    : option status :=
  match baseMap !! pathID, headMap !! pathID with
  | None, None => None
  | None, Some _ => Some Added
  | Some _, None => Some Deleted
  | Some b, Some h =>
      if String.eqb (File_ContentSHA256 b) (File_ContentSHA256 h)
      then Some Unchanged else Some Changed
  end.

(** The path-ids of both commits that have a given status. *)
Definition with_status (baseMap headMap : gmap string FileSnapshot) (st : status)
    : list string :=
  filter (fun pathID => status_of baseMap headMap pathID = Some st)
         (elements (dom baseMap ∪ dom headMap)).

(** Whether an entry of the head map has a base entry of another content
    hash. *)
Definition differs (baseMap : gmap string FileSnapshot) (kv : string * FileSnapshot) : bool :=
  match baseMap !! fst kv with
  | Some b => negb (String.eqb (File_ContentSHA256 b) (File_ContentSHA256 (snd kv)))
  | None => false
  end.

Definition path_lookup (paths : list PathRecord) : gmap string string :=
  fold_left (fun m p => <[Path_PathID p := Path_Path p]> m) paths ∅.

Lemma status_of_is_Some (B H : gmap string FileSnapshot) (pid : string) :
  is_Some (status_of B H pid) <-> pid ∈ dom B ∪ dom H.
Proof.
  unfold status_of. rewrite elem_of_union, !elem_of_dom.
  destruct (B !! pid) as [b|], (H !! pid) as [h|]; cbn.
  - destruct (String.eqb _ _); split; eauto.
  - split; eauto.
  - split; eauto.
  - split; [by intros [? ?] | by intros [[? ?]|[? ?]]].
Qed.

(** The first loop of ComputeDelta, over the entries of the head map. *)
Lemma head_loop (B : gmap string FileSnapshot) (res : string -> string)
    (l : list (string * FileSnapshot)) (changed added : list string) :
  fold_left (fun (acc : list string * list string) (kv : string * FileSnapshot) =>
               let '(changed, added) := acc in
               let '(pathID, headFile) := kv in
               let path := res pathID in
               match B !! pathID with
               | None => (changed, added ++ [path])
               | Some baseFile =>
                   if negb (String.eqb (File_ContentSHA256 baseFile)
                                       (File_ContentSHA256 headFile))
                   then (changed ++ [path], added)
                   else (changed, added)
               end) l (changed, added)
  = (changed ++ map res (map fst (filter (fun kv => differs B kv = true) l)),
     added ++ map res (map fst (filter (fun kv => B !! fst kv = None) l))).
Proof.
  revert changed added. induction l as [|[pid hf] l IH]; intros changed added.
  - cbn. by rewrite !app_nil_r.
  - cbn [fold_left]. destruct (B !! pid) as [b|] eqn:E.
    + destruct (String.eqb_spec (File_ContentSHA256 b) (File_ContentSHA256 hf)) as [Heq|Hne];
        cbn [negb]; rewrite IH.
      * rewrite !filter_cons_False; [done | cbn; by rewrite E |].
        unfold differs. cbn. by rewrite E, Heq, String.eqb_refl.
      * rewrite filter_cons_True.
        2: { unfold differs. cbn. rewrite E. by apply negb_true_iff, String.eqb_neq. }
        rewrite filter_cons_False by (cbn; by rewrite E).
        cbn [map fst]. by rewrite <- app_assoc.
    + rewrite IH.
      rewrite filter_cons_False by (unfold differs; cbn; by rewrite E).
      rewrite filter_cons_True by done.
      cbn [map fst]. by rewrite <- app_assoc.
Qed.

Lemma base_loop (H : gmap string FileSnapshot) (res : string -> string)
    (l : list (string * FileSnapshot)) (deleted : list string) :
  fold_left (fun (deleted : list string) (kv : string * FileSnapshot) =>
               let pathID := fst kv in
               match H !! pathID with
               | None => deleted ++ [res pathID]
               | Some _ => deleted
               end) l deleted
  = deleted ++ map res (map fst (filter (fun kv => H !! fst kv = None) l)).
Proof.
  revert deleted. induction l as [|[pid bf] l IH]; intros deleted.
  - cbn. by rewrite app_nil_r.
  - cbn [fold_left fst]. destruct (H !! pid) as [h|] eqn:E; rewrite IH.
    + by rewrite filter_cons_False by (cbn; by rewrite E).
    + rewrite filter_cons_True by done. cbn [map fst]. by rewrite <- app_assoc.
Qed.

(** The keys of a map that pass a test, and the elements of a set of
    path-ids that pass the same test, are the same up to order. *)
Lemma keys_filter_Permutation (M : gmap string FileSnapshot) (X : gset string)
    (P : string * FileSnapshot -> Prop) `{forall kv, Decision (P kv)}
    (Q : string -> Prop) `{forall k, Decision (Q k)} :
  (forall k v, M !! k = Some v -> (P (k, v) <-> Q k) /\ k ∈ X) ->
  (forall k, k ∈ X -> Q k -> is_Some (M !! k)) ->
  map fst (filter P (map_to_list M)) ≡ₚ filter Q (elements X).
Proof.
  intros HPQ HQ. apply NoDup_Permutation.
  - apply (NoDup_fmap_fst (filter P (map_to_list M))).
    + intros k v1 v2 [_ H1%elem_of_map_to_list]%list_elem_of_filter
                     [_ H2%elem_of_map_to_list]%list_elem_of_filter. congruence.
    + apply NoDup_filter, NoDup_map_to_list.
  - apply NoDup_filter, NoDup_elements.
  - intros k. rewrite list_elem_of_fmap, list_elem_of_filter, elem_of_elements. split.
    + intros ([k' v] & -> & [HP Hkv%elem_of_map_to_list]%list_elem_of_filter).
      destruct (HPQ k' v Hkv) as [Hiff HX]. split; [by apply Hiff | done].
    + intros [HQk HX]. destruct (HQ k HX HQk) as [v Hv].
      exists (k, v). split; [done|]. apply list_elem_of_filter.
      split; [by apply (HPQ k v Hv) | by apply elem_of_map_to_list].
Qed.

Lemma ReadRecords_wrap_sha {T} (context sha : string) (file : option (list (line T)))
    (l : list T) :
  wrap_sha context sha (ReadRecords file) = Ok l <-> ReadRecords file = Ok l.
Proof.
  unfold wrap_sha. destruct (ReadRecords file); [done|]. by destruct (_ <? _)%nat.
Qed.

(** ComputeDelta in terms of the two maps and the path lookup. *)
Lemma ComputeDelta_Ok (g : Graph) (baseSHA headSHA : string) (r : DeltaReport) :
  ComputeDelta g baseSHA headSHA = Ok r ->
  exists baseFiles headFiles paths,
    ReadRecords (files_jsonl g !! baseSHA) = Ok baseFiles
    /\ ReadRecords (files_jsonl g !! headSHA) = Ok headFiles
    /\ ReadRecords (paths_jsonl g) = Ok paths
    /\ let B := by_PathID baseFiles in
       let H := by_PathID headFiles in
       let res := resolve (path_lookup paths) in
       Base r = baseSHA /\ Head r = headSHA /\ SymbolsInvalidated r = []
       /\ FilesChanged r = merge_sort String.le
            (map res (map fst (filter (fun kv => differs B kv = true) (map_to_list H))))
       /\ FilesAdded r = merge_sort String.le
            (map res (map fst (filter (fun kv => B !! fst kv = None) (map_to_list H))))
       /\ FilesDeleted r = merge_sort String.le
            (map res (map fst (filter (fun kv => H !! fst kv = None) (map_to_list B)))).
Proof.
  unfold ComputeDelta.
  destruct (wrap_sha _ baseSHA _) as [baseFiles|] eqn:Eb; [|done].
  destruct (wrap_sha _ headSHA _) as [headFiles|] eqn:Eh; [|done].
  apply ReadRecords_wrap_sha in Eb, Eh. cbn.
  destruct (ReadRecords (paths_jsonl g)) as [paths|] eqn:Ep; [|done]. cbn.
  fold (path_lookup paths).
  rewrite head_loop, base_loop. cbn.
  intros [= <-]. exists baseFiles, headFiles, paths. done.
Qed.

Ltac status_cases :=
  unfold status_of, differs; cbn;
  repeat (match goal with
          | |- context [match ?m !! ?k with _ => _ end] => destruct (m !! k) eqn:?
          | |- context [String.eqb ?a ?b] => destruct (String.eqb a b) eqn:?
          end; cbn);
  try done; try (split; done); eauto.

(** C5: ComputeDelta lists, by their resolved paths and in sorted order,
    exactly the path-ids of files(b) ∪ files(h) that are only in the head
    (added), in both with a different content hash (changed), and only in
    the base (deleted); a path-id in both with the same content hash is in
    none of these; and the delta of a commit with itself is empty. *)
Theorem ComputeDelta_partition (g : Graph) (baseSHA headSHA : string) (r : DeltaReport) :
  ComputeDelta g baseSHA headSHA = Ok r ->
  (exists baseFiles headFiles paths,
      ReadRecords (files_jsonl g !! baseSHA) = Ok baseFiles
      /\ ReadRecords (files_jsonl g !! headSHA) = Ok headFiles
      /\ ReadRecords (paths_jsonl g) = Ok paths
      /\ let B := by_PathID baseFiles in
         let H := by_PathID headFiles in
         let res := resolve (path_lookup paths) in
         (forall pathID, pathID ∈ dom B ∪ dom H <-> is_Some (status_of B H pathID))
         /\ FilesAdded r ≡ₚ map res (with_status B H Added)
         /\ FilesChanged r ≡ₚ map res (with_status B H Changed)
         /\ FilesDeleted r ≡ₚ map res (with_status B H Deleted)
         /\ Sorted String.le (FilesAdded r) /\ Sorted String.le (FilesChanged r)
         /\ Sorted String.le (FilesDeleted r))
  /\ (baseSHA = headSHA -> IsEmpty r = true).
Proof.
  intros (baseFiles & headFiles & paths & Hb & Hh & Hp & Hr)%ComputeDelta_Ok.
  cbn zeta in Hr. destruct Hr as (_ & _ & _ & Hchanged & Hadded & Hdeleted).
  set (B := by_PathID baseFiles) in *. set (H := by_PathID headFiles) in *.
  assert (FilesAdded r ≡ₚ map (resolve (path_lookup paths)) (with_status B H Added)) as HA.
  { rewrite Hadded, merge_sort_Permutation. apply Permutation_map.
    apply keys_filter_Permutation.
    - intros k v Hk. split; [|apply elem_of_union; right; by apply elem_of_dom].
      unfold status_of, differs; cbn; rewrite Hk. status_cases.
    - intros k _. status_cases. }
  assert (FilesChanged r ≡ₚ map (resolve (path_lookup paths)) (with_status B H Changed)) as HC.
  { rewrite Hchanged, merge_sort_Permutation. apply Permutation_map.
    apply keys_filter_Permutation.
    - intros k v Hk. split; [|apply elem_of_union; right; by apply elem_of_dom].
      unfold status_of, differs; cbn; rewrite Hk. status_cases.
    - intros k _. status_cases. }
  assert (FilesDeleted r ≡ₚ map (resolve (path_lookup paths)) (with_status B H Deleted)) as HD.
  { rewrite Hdeleted, merge_sort_Permutation. apply Permutation_map.
    apply keys_filter_Permutation.
    - intros k v Hk. split; [|apply elem_of_union; left; by apply elem_of_dom].
      unfold status_of, differs; cbn; rewrite Hk. status_cases.
    - intros k _. status_cases. }
  split.
  - exists baseFiles, headFiles, paths. do 3 (split; [done|]). cbn zeta.
    split; [intros pid; symmetry; apply status_of_is_Some|].
    do 3 (split; [done|]).
    rewrite Hadded, Hchanged, Hdeleted. repeat split; apply (Sorted_merge_sort String.le).
  - intros <-. rewrite Hb in Hh. injection Hh as <-.
    assert (forall st, st <> Unchanged -> with_status B B st = []) as Hnil.
    { intros st Hst. unfold with_status. apply elem_of_nil_inv.
      intros pid [Hpid _]%list_elem_of_filter. unfold status_of in Hpid.
      destruct (B !! pid); [|done]. rewrite String.eqb_refl in Hpid. congruence. }
    unfold H in *. rewrite !Hnil in * by done. cbn in *.
    apply Permutation_nil_r in HA, HC, HD. unfold IsEmpty. by rewrite HA, HC, HD.
Qed.



(** The scenario of the integration test: the head commit modifies
    main.go, adds util.go and deletes config.yaml. *)
Definition snapshot (commit pathID sha : string) : line FileSnapshot :=
  Rec (mkFileSnapshot "file_snapshot" commit pathID "" sha "go" 100 10 false false).

Definition path_record (pathID path : string) : line PathRecord :=
  Rec (mkPathRecord "path" pathID "repo" path "c1c1c1c1" None).

Definition two_commits : Graph :=
  mkGraph
    (<["c1c1c1c1" := [snapshot "c1c1c1c1" "p-main" "sha-main-1";
                      snapshot "c1c1c1c1" "p-readme" "sha-readme";
                      snapshot "c1c1c1c1" "p-config" "sha-config"]]>
     (<["c2c2c2c2" := [snapshot "c2c2c2c2" "p-main" "sha-main-2";
                       snapshot "c2c2c2c2" "p-readme" "sha-readme";
                       snapshot "c2c2c2c2" "p-util" "sha-util"]]> ∅))
    ∅
    (Some [path_record "p-main" "main.go"; path_record "p-readme" "README.md";
           path_record "p-config" "config.yaml"; path_record "p-util" "util.go"]).

Lemma ComputeDelta_partition_witness :
  (exists r, ComputeDelta two_commits "c1c1c1c1" "c2c2c2c2" = Ok r
             /\ FilesChanged r = ["main.go"] /\ FilesAdded r = ["util.go"]
             /\ FilesDeleted r = ["config.yaml"]
             /\ Sorted String.le (FilesAdded r))
  /\ (exists r, ComputeDelta two_commits "c1c1c1c1" "c1c1c1c1" = Ok r /\ IsEmpty r = true).
Proof.
  split.
  - destruct (ComputeDelta two_commits "c1c1c1c1" "c2c2c2c2") as [r|e] eqn:E;
      [|vm_compute in E; discriminate E].
    exists r. split; [reflexivity|].
    destruct (ComputeDelta_partition _ _ _ _ E)
      as [(? & ? & ? & _ & _ & _ & _ & _ & _ & _ & Hsorted & _) _].
    vm_compute in E. injection E as <-. done.
  - destruct (ComputeDelta two_commits "c1c1c1c1" "c1c1c1c1") as [r|e] eqn:E;
      [|vm_compute in E; discriminate E].
    exists r. split; [reflexivity|].
    by apply (ComputeDelta_partition _ _ _ _ E).
Defined.

End delta_facts.

(** ** Optimizer *)

Section optimize_facts.
Import graph optimize.

Local Arguments sum_tokens : simpl never.
Local Arguments Nat.ltb : simpl never.
Local Arguments fill_files : simpl never.
Local Arguments fill_symbols : simpl never.
Local Arguments file_candidates : simpl never.
Local Arguments symbol_candidates : simpl never.
Local Arguments included_paths : simpl never.












(** Four small files and a task that matches one of them. *)
Definition small_files_graph : Graph :=
  mkGraph
    {[ "c1c1c1c1" :=
         [Rec (mkFileSnapshot "file_snapshot" "c1c1c1c1" "p-a" "" "sha-a" "go" 2000 50 false false);
          Rec (mkFileSnapshot "file_snapshot" "c1c1c1c1" "p-b" "" "sha-b" "go" 3000 80 false false);
          Rec (mkFileSnapshot "file_snapshot" "c1c1c1c1" "p-c" "" "sha-c" "go" 3600 90 false false)] ]}
    ∅
    (Some [Rec (mkPathRecord "path" "p-a" "repo" "parser.go" "c1c1c1c1" None);
           Rec (mkPathRecord "path" "p-b" "repo" "lexer.go" "c1c1c1c1" None);
           Rec (mkPathRecord "path" "p-c" "repo" "main.go" "c1c1c1c1" None)]).


End optimize_facts.

(** ** JSON texts *)

Section json_facts.
Import json.

(** An induction principle that reaches the values inside arrays and
    objects. *)
Lemma value_ind' (P : value -> Prop)
    (HNull : P JNull) (HBool : forall b, P (JBool b)) (HNumber : forall n, P (JNumber n))
    (HString : forall s, P (JString s))
    (HArray : forall l, Forall P l -> P (JArray l))
    (HObject : forall m, Forall (fun kv => P (snd kv)) m -> P (JObject m)) :
  forall v, P v.
Proof.
  fix IH 1. intros [| b | n | s | l | m].
  - exact HNull.
  - apply HBool.
  - apply HNumber.
  - apply HString.
  - apply HArray. induction l as [|x l IHl]; constructor; [apply IH | exact IHl].
  - apply HObject. induction m as [|[k x] m IHm]; constructor; [apply IH | exact IHm].
Qed.

(** *** String literals *)

Lemma read_emit_char (c : ascii) (rest : string) :
  read_string (emit_char c rest)
  = match read_string rest with
    | Some (str, k) => Some (String c str, k)
    | None => None
    end.
Proof.
  destruct c as [[] [] [] [] [] [] [] []]; reflexivity.
Qed.

Lemma read_emit_chars (s k : string) :
  read_string (emit_chars s (String quote k)) = Some (s, k).
Proof.
  induction s as [|c s IH]; [reflexivity|].
  cbn [emit_chars]. by rewrite read_emit_char, IH.
Qed.

(** *** Numbers *)

(** Ten to the number of digits that [emit_digits] writes. *)
Fixpoint scale (fuel : nat) (n : N) : N :=
  match fuel with
  | O => 1
  | S fuel' => if (n <? 10)%N then 10 else (10 * scale fuel' (n / 10))%N
  end.

Lemma digit_char (d : N) :
  (d < 10)%N ->
  is_digit (ascii_of_N (48 + d)) = true /\ (N_of_ascii (ascii_of_N (48 + d)) - 48 = d)%N.
Proof.
  intros Hd.
  pose proof (eq_refl : forallb (fun k => is_digit (ascii_of_N (48 + N.of_nat k))
                                          && (N_of_ascii (ascii_of_N (48 + N.of_nat k)) - 48
                                              =? N.of_nat k)%N) (seq 0 10) = true) as Hall.
  rewrite forallb_forall in Hall. specialize (Hall (N.to_nat d)).
  rewrite N2Nat.id in Hall.
  apply andb_true_iff in Hall as [? ?%N.eqb_eq]; [done|]. apply in_seq. lia.
Qed.

Lemma read_emit_digits (fuel : nat) (n acc : N) (k : string) :
  (n < 10 ^ N.of_nat fuel)%N ->
  read_digits acc (emit_digits fuel n k) = read_digits (acc * scale fuel n + n) k.
Proof.
  revert n acc k. induction fuel as [|fuel IH]; intros n acc k Hn.
  - cbn in *. assert (n = 0%N) as -> by lia. f_equal; lia.
  - cbn [emit_digits scale]. destruct (N.ltb_spec n 10) as [Hlt|Hge].
    + cbn [read_digits]. destruct (digit_char (n mod 10) ltac:(by apply N.mod_lt)) as [-> ->].
      rewrite N.mod_small by done. f_equal; lia.
    + rewrite IH.
      2: { apply N.Div0.div_lt_upper_bound.
           rewrite <- N.pow_succ_r', <- Nat2N.inj_succ. done. }
      cbn [read_digits]. destruct (digit_char (n mod 10) ltac:(by apply N.mod_lt)) as [-> ->].
      pose proof (N.div_mod n 10 ltac:(done)). f_equal; lia.
Qed.

Lemma emit_digits_head (fuel : nat) (n : N) (k : string) :
  (n < 10 ^ N.of_nat fuel)%N -> (0 < n)%N ->
  exists c r, emit_digits fuel n k = String c r
              /\ is_digit c = true /\ (N_of_ascii c =? 48)%N = false.
Proof.
  revert n k. induction fuel as [|fuel IH]; intros n k Hn Hpos.
  - cbn in Hn. lia.
  - cbn [emit_digits]. destruct (N.ltb_spec n 10) as [Hlt|Hge].
    + eexists _, _. split; [done|].
      rewrite N.mod_small by done.
      destruct (digit_char n Hlt) as [Hd Hv]. split; [done|].
      apply N.eqb_neq. lia.
    + apply IH.
      * apply N.Div0.div_lt_upper_bound.
        rewrite <- N.pow_succ_r', <- Nat2N.inj_succ. done.
      * apply N.div_str_pos. lia.
Qed.

Lemma log2_fuel (n : N) : (n < 10 ^ N.of_nat (S (N.to_nat (N.log2 n))))%N.
Proof.
  rewrite Nat2N.inj_succ, N2Nat.id.
  destruct (N.eq_dec n 0%N) as [->|Hn]; [done|].
  apply N.lt_le_trans with (2 ^ N.succ (N.log2 n))%N.
  - apply N.log2_spec. lia.
  - apply N.pow_le_mono_l. lia.
Qed.

(** What may follow a number: the end of the text or a character that is
    neither a digit nor the start of a fraction or exponent. *)
Definition ends_number (k : string) : Prop :=
  match k with
  | EmptyString => True
  | String c _ => is_digit c = false /\ starts_fraction k = false
  end.

Lemma read_digits_end (acc : N) (k : string) : ends_number k -> read_digits acc k = (acc, k).
Proof. destruct k as [|c k]; [done|]. cbn. by intros [-> _]. Qed.

Lemma starts_fraction_end (k : string) : ends_number k -> starts_fraction k = false.
Proof. destruct k as [|c k]; [done|]. by intros [_ ?]. Qed.

Lemma read_emit_nat (p : positive) (k : string) :
  ends_number k -> read_nat (emit_nat (Npos p) k) = Some (Npos p, k).
Proof.
  intros Hk. unfold emit_nat.
  destruct (emit_digits_head _ (Npos p) k (log2_fuel (Npos p)) ltac:(done))
    as (c & r & E & Hd & Hz).
  unfold read_nat. rewrite E, Hz, Hd, <- E.
  rewrite read_emit_digits by apply log2_fuel.
  by rewrite read_digits_end.
Qed.

Lemma read_nat_zero (k : string) : ends_number k -> read_nat (String "0" k) = Some (0%N, k).
Proof.
  intros Hk. destruct k as [|c k]; [done|]. unfold read_nat.
  destruct Hk as [Hd _]. change (N_of_ascii "0" =? 48)%N with true. cbv iota. by rewrite Hd.
Qed.

(** [read_number] on a text that does not begin with a minus sign. *)
Lemma read_number_nat (c : ascii) (r : string) :
  (N_of_ascii c =? 45)%N = false ->
  read_number (String c r)
  = match read_nat (String c r) with
    | Some (n, r') => if starts_fraction r' then None else Some (Z.of_N n, r')
    | None => None
    end.
Proof.
  intros Hc. unfold read_number. rewrite Hc.
  by destruct (read_nat (String c r)) as [[n r']|].
Qed.

Lemma read_number_minus (r : string) :
  read_number (String "-" r)
  = match read_nat r with
    | Some (n, r') => if starts_fraction r' then None else Some (Z.opp (Z.of_N n), r')
    | None => None
    end.
Proof.
  unfold read_number. change (N_of_ascii "-" =? 45)%N with true. cbv iota.
  by destruct (read_nat r) as [[n r']|].
Qed.

Lemma read_emit_int (z : Z) (k : string) :
  ends_number k -> read_number (emit_int z k) = Some (z, k).
Proof.
  intros Hk. destruct z as [|p|p]; cbn [emit_int].
  - rewrite read_number_nat by done. by rewrite read_nat_zero, starts_fraction_end.
  - destruct (emit_digits_head _ (Npos p) k (log2_fuel (Npos p)) ltac:(done))
      as (c & r & E & Hd & Hz).
    fold (emit_nat (N.pos p) k) in E.
    assert ((N_of_ascii c =? 45)%N = false) as Hminus.
    { destruct (N.eqb_spec (N_of_ascii c) 45) as [Heq|]; [|done].
      unfold is_digit, in_range in Hd. rewrite Heq in Hd. done. }
    rewrite E, read_number_nat, <- E, read_emit_nat by done.
    by rewrite starts_fraction_end.
  - rewrite read_number_minus, read_emit_nat by done. by rewrite starts_fraction_end.
Qed.

(** *** Values *)

(** The elements of an array and the members of an object as [emit] writes
    them. *)
Definition emit_elems : list value -> string -> string :=
  fix go (l : list value) (k : string) : string :=
    match l with
    | [] => k
    | [x] => emit x k
    | x :: r => emit x (String "," (go r k))
    end.

Definition emit_members : list (string * value) -> string -> string :=
  fix go (l : list (string * value)) (k : string) : string :=
    match l with
    | [] => k
    | [(key, x)] => emit_string key (String ":" (emit x k))
    | (key, x) :: r => emit_string key (String ":" (emit x (String "," (go r k))))
    end.

(** The fuel that parsing the text of a value takes. *)
Fixpoint need (v : value) : nat :=
  match v with
  | JArray l =>
      S ((fix go (l : list value) : nat :=
            match l with [] => 0 | x :: r => S (Nat.max (need x) (go r)) end) l)
  | JObject m =>
      S ((fix go (m : list (string * value)) : nat :=
            match m with [] => 0 | kv :: r => S (Nat.max (need (snd kv)) (go r)) end) m)
  | _ => 1
  end.

Definition need_elems : list value -> nat :=
  fix go (l : list value) : nat :=
    match l with [] => 0 | x :: r => S (Nat.max (need x) (go r)) end.

Definition need_members : list (string * value) -> nat :=
  fix go (m : list (string * value)) : nat :=
    match m with [] => 0 | kv :: r => S (Nat.max (need (snd kv)) (go r)) end.

Lemma emit_array (l : list value) (k : string) :
  emit (JArray l) k = String "[" (emit_elems l (String "]" k)).
Proof. reflexivity. Qed.

Lemma emit_object (m : list (string * value)) (k : string) :
  emit (JObject m) k = String "{" (emit_members m (String "}" k)).
Proof. reflexivity. Qed.

(** The first character of the text of a value: not white space and not a
    closing bracket. *)
Definition opens_value (c : ascii) : Prop :=
  is_space c = false /\ (N_of_ascii c =? 93)%N = false /\ (N_of_ascii c =? 125)%N = false.

Lemma digit_codes (c : ascii) :
  is_digit c = true -> (48 <= N_of_ascii c <= 57)%N.
Proof. unfold is_digit, in_range. intros [?%N.leb_le ?%N.leb_le]%andb_true_iff. lia. Qed.

Lemma emit_int_head (z : Z) (k : string) :
  exists c r, emit_int z k = String c r
              /\ (is_digit c = true \/ N_of_ascii c = 45%N).
Proof.
  destruct z as [|p|p]; cbn [emit_int].
  - eexists _, _. split; [done|]. by left.
  - destruct (emit_digits_head _ (Npos p) k (log2_fuel (Npos p)) ltac:(done))
      as (c & r & E & Hd & _).
    exists c, r. split; [done | by left].
  - eexists _, _. split; [done|]. by right.
Qed.

Lemma emit_head (v : value) (k : string) :
  exists c r, emit v k = String c r /\ opens_value c.
Proof.
  destruct v as [| [] | n | s | l | m]; try (eexists _, _; split; [reflexivity | done]).
  destruct (emit_int_head n k) as (c & r & E & Hc). exists c, r. split; [done|].
  unfold opens_value, is_space.
  destruct Hc as [Hd%digit_codes | Hm].
  - repeat split; repeat (apply orb_false_iff; split); apply N.eqb_neq; lia.
  - rewrite Hm. done.
Qed.

Lemma skip_space_head (c : ascii) (r : string) :
  is_space c = false -> skip_space (String c r) = String c r.
Proof. intros H. cbn. by rewrite H. Qed.

Lemma ends_number_comma (k : string) : ends_number (String "," k).
Proof. done. Qed.
Lemma ends_number_bracket (k : string) : ends_number (String "]" k).
Proof. done. Qed.
Lemma ends_number_brace (k : string) : ends_number (String "}" k).
Proof. done. Qed.


(** The equations of the parser. *)
Lemma parse_value_eq (f : nat) (s : string) :
  parse_value (S f) s
  = match skip_space s with
    | EmptyString => None
    | String c r =>
        let n := N_of_ascii c in
        if (n =? 110)%N then r' ← expect "ull" r; Some (JNull, r')
        else if (n =? 116)%N then r' ← expect "rue" r; Some (JBool true, r')
        else if (n =? 102)%N then r' ← expect "alse" r; Some (JBool false, r')
        else if (n =? 34)%N then '(str, r') ← read_string r; Some (JString str, r')
        else if (n =? 91)%N then
          match skip_space r with
          | String c' r' =>
              if (N_of_ascii c' =? 93)%N then Some (JArray [], r')
              else '(l, r'') ← parse_elems f r; Some (JArray l, r'')
          | EmptyString => None
          end
        else if (n =? 123)%N then
          match skip_space r with
          | String c' r' =>
              if (N_of_ascii c' =? 125)%N then Some (JObject [], r')
              else '(l, r'') ← parse_members f r; Some (JObject l, r'')
          | EmptyString => None
          end
        else '(z, r') ← read_number (String c r); Some (JNumber z, r')
    end.
Proof. reflexivity. Qed.

Lemma parse_elems_eq (f : nat) (s : string) :
  parse_elems (S f) s
  = match parse_value f s with
    | Some (v, r) =>
        match skip_space r with
        | String c r' =>
            if (N_of_ascii c =? 44)%N
            then match parse_elems f r' with
                 | Some (vs, r'') => Some (v :: vs, r'')
                 | None => None
                 end
            else if (N_of_ascii c =? 93)%N then Some ([v], r')
            else None
        | EmptyString => None
        end
    | None => None
    end.
Proof. cbn [parse_elems]. destruct (parse_value f s) as [[v r]|]; reflexivity. Qed.

Lemma parse_members_eq (f : nat) (s : string) :
  parse_members (S f) s
  = match skip_space s with
    | String q r0 =>
        if (N_of_ascii q =? 34)%N then
          match read_string r0 with
          | Some (key, r1) =>
              match skip_space r1 with
              | String c r2 =>
                  if (N_of_ascii c =? 58)%N then
                    match parse_value f r2 with
                    | Some (v, r) =>
                        match skip_space r with
                        | String c' r' =>
                            if (N_of_ascii c' =? 44)%N
                            then match parse_members f r' with
                                 | Some (ms, r'') => Some ((key, v) :: ms, r'')
                                 | None => None
                                 end
                            else if (N_of_ascii c' =? 125)%N then Some ([(key, v)], r')
                            else None
                        | EmptyString => None
                        end
                    | None => None
                    end
                  else None
              | EmptyString => None
              end
          | None => None
          end
        else None
    | EmptyString => None
    end.
Proof.
  cbn [parse_members]. destruct (skip_space s) as [|q r0]; [done|].
  destruct (N_of_ascii q =? 34)%N; [|done].
  destruct (read_string r0) as [[key r1]|]; [|done]. cbn.
  destruct (skip_space r1) as [|c r2]; [done|].
  destruct (N_of_ascii c =? 58)%N; [|done].
  destruct (parse_value f r2) as [[v r]|]; [|done]. cbn.
  destruct (skip_space r) as [|c' r']; [done|].
  destruct (N_of_ascii c' =? 44)%N; [|done].
  by destruct (parse_members f r') as [[ms r'']|].
Qed.

(** [parse_value] on a text whose first character is a digit or a minus
    sign reads a number. *)
Lemma parse_number (f : nat) (c : ascii) (r : string) :
  is_digit c = true \/ N_of_ascii c = 45%N ->
  parse_value (S f) (String c r)
  = match read_number (String c r) with
    | Some (z, r') => Some (JNumber z, r')
    | None => None
    end.
Proof.
  intros Hc.
  assert (is_space c = false /\ (N_of_ascii c =? 110)%N = false
          /\ (N_of_ascii c =? 116)%N = false /\ (N_of_ascii c =? 102)%N = false
          /\ (N_of_ascii c =? 34)%N = false /\ (N_of_ascii c =? 91)%N = false
          /\ (N_of_ascii c =? 123)%N = false) as (Hs & H1 & H2 & H3 & H4 & H5 & H6).
  { unfold is_space. destruct Hc as [Hd%digit_codes | ->].
    - repeat split; repeat (apply orb_false_iff; split); apply N.eqb_neq; lia.
    - done. }
  rewrite parse_value_eq, skip_space_head by done. cbv zeta.
  rewrite H1, H2, H3, H4, H5, H6.
  by destruct (read_number (String c r)) as [[z r']|].
Qed.

Lemma parse_emit_elems (f : nat) (l : list value) (k : string) :
  l <> [] ->
  Forall (fun v => forall f k, need v <= f -> ends_number k ->
                               parse_value f (emit v k) = Some (v, k)) l ->
  need_elems l <= f ->
  parse_elems f (emit_elems l (String "]" k)) = Some (l, k).
Proof.
  revert f. induction l as [|x l IH]; intros f Hne Hall Hf; [done|].
  apply Forall_cons in Hall as [Hx Hl].
  change (need_elems (x :: l)) with (S (Nat.max (need x) (need_elems l))) in Hf.
  destruct f as [|f]; [lia|]. rewrite parse_elems_eq.
  destruct l as [|y l].
  - cbn [emit_elems]. by rewrite Hx by (done || lia).
  - change (emit_elems (x :: y :: l) (String "]" k))
      with (emit x (String "," (emit_elems (y :: l) (String "]" k)))).
    rewrite Hx by (done || lia). rewrite skip_space_head by done.
    change (N_of_ascii "," =? 44)%N with true. cbv iota.
    rewrite IH; [done | done | done | lia].
Qed.

Lemma parse_emit_members (f : nat) (m : list (string * value)) (k : string) :
  m <> [] ->
  Forall (fun kv => forall f k, need (snd kv) <= f -> ends_number k ->
                                parse_value f (emit (snd kv) k) = Some (snd kv, k)) m ->
  need_members m <= f ->
  parse_members f (emit_members m (String "}" k)) = Some (m, k).
Proof.
  revert f. induction m as [|[key x] m IH]; intros f Hne Hall Hf; [done|].
  apply Forall_cons in Hall as [Hx Hm]. cbn [snd] in Hx.
  change (need_members ((key, x) :: m)) with (S (Nat.max (need x) (need_members m))) in Hf.
  destruct f as [|f]; [lia|]. rewrite parse_members_eq.
  destruct m as [|y m].
  - cbn [emit_members]. unfold emit_string. rewrite skip_space_head by done.
    change (N_of_ascii quote =? 34)%N with true. cbv iota.
    rewrite read_emit_chars, skip_space_head by done.
    change (N_of_ascii ":" =? 58)%N with true. cbv iota.
    by rewrite Hx by (done || lia).
  - change (emit_members ((key, x) :: y :: m) (String "}" k))
      with (emit_string key (String ":" (emit x (String "," (emit_members (y :: m) (String "}" k)))))).
    unfold emit_string. rewrite skip_space_head by done.
    change (N_of_ascii quote =? 34)%N with true. cbv iota.
    rewrite read_emit_chars, skip_space_head by done.
    change (N_of_ascii ":" =? 58)%N with true. cbv iota.
    rewrite Hx by (done || lia). rewrite skip_space_head by done.
    change (N_of_ascii "," =? 44)%N with true. cbv iota.
    rewrite IH; [done | done | done | lia].
Qed.

(** Parsing the text of a value gives the value back and stops where the
    text ends. *)
Lemma parse_emit (v : value) :
  forall f k, need v <= f -> ends_number k -> parse_value f (emit v k) = Some (v, k).
Proof.
  induction v as [| b | n | s | l IH | m IH] using value_ind'; intros f k Hf Hk;
    (destruct f as [|f]; [cbn in Hf; lia|]).
  - reflexivity.
  - by destruct b.
  - destruct (emit_int_head n k) as (c & r & E & Hc).
    cbn [emit]. rewrite E, parse_number, <- E, read_emit_int by done. done.
  - cbn [emit]. rewrite parse_value_eq. unfold emit_string.
    rewrite skip_space_head by done. cbv zeta.
    change (N_of_ascii quote =? 110)%N with false.
    change (N_of_ascii quote =? 116)%N with false.
    change (N_of_ascii quote =? 102)%N with false.
    change (N_of_ascii quote =? 34)%N with true. cbv iota.
    by rewrite read_emit_chars.
  - rewrite emit_array. destruct l as [|x l]; [reflexivity|].
    rewrite parse_value_eq, skip_space_head by done. cbv zeta.
    change (N_of_ascii "[" =? 110)%N with false.
    change (N_of_ascii "[" =? 116)%N with false.
    change (N_of_ascii "[" =? 102)%N with false.
    change (N_of_ascii "[" =? 34)%N with false.
    change (N_of_ascii "[" =? 91)%N with true. cbv iota.
    assert (exists c r, emit_elems (x :: l) (String "]" k) = String c r /\ opens_value c)
      as (c & r & E & Hs & Hb & _).
    { destruct l; apply emit_head. }
    rewrite E, skip_space_head, Hb, <- E by done.
    change (need (JArray (x :: l))) with (S (need_elems (x :: l))) in Hf.
    rewrite parse_emit_elems; [done | done | done | lia].
  - rewrite emit_object. destruct m as [|[key x] m]; [reflexivity|].
    rewrite parse_value_eq, skip_space_head by done. cbv zeta.
    change (N_of_ascii "{" =? 110)%N with false.
    change (N_of_ascii "{" =? 116)%N with false.
    change (N_of_ascii "{" =? 102)%N with false.
    change (N_of_ascii "{" =? 34)%N with false.
    change (N_of_ascii "{" =? 91)%N with false.
    change (N_of_ascii "{" =? 123)%N with true. cbv iota.
    assert (exists r, emit_members ((key, x) :: m) (String "}" k) = String quote r)
      as (r & E).
    { destruct m; eexists; reflexivity. }
    rewrite E, skip_space_head by done.
    change (N_of_ascii quote =? 125)%N with false. cbv iota. rewrite <- E.
    change (need (JObject ((key, x) :: m))) with (S (need_members ((key, x) :: m))) in Hf.
    rewrite parse_emit_members; [done | done | done | lia].
Qed.

(** *** Whole texts *)

Lemma emit_char_length (c : ascii) (k : string) :
  String.length k < String.length (emit_char c k).
Proof.
  unfold emit_char. repeat (destruct (_ =? _)%N; [cbn; lia|]).
  destruct (_ || _); cbn; lia.
Qed.

Lemma emit_chars_length (s k : string) : String.length k <= String.length (emit_chars s k).
Proof.
  induction s as [|c s IH]; cbn [emit_chars]; [done|].
  pose proof (emit_char_length c (emit_chars s k)). lia.
Qed.

Lemma emit_digits_length (fuel : nat) (n : N) (k : string) :
  String.length k <= String.length (emit_digits fuel n k)
  /\ (0 < fuel -> String.length k < String.length (emit_digits fuel n k)).
Proof.
  revert n k. induction fuel as [|fuel IH]; intros n k; cbn [emit_digits]; [split; lia|].
  destruct (n <? 10)%N; [cbn; split; lia|].
  destruct (IH (n / 10)%N (String (ascii_of_N (48 + n mod 10)) k)) as [Hle _].
  cbn in Hle. split; lia.
Qed.

Lemma emit_int_length (z : Z) (k : string) :
  String.length k < String.length (emit_int z k).
Proof.
  destruct z as [|p|p]; cbn [emit_int]; [cbn; lia | |].
  - apply emit_digits_length. lia.
  - pose proof (proj2 (emit_digits_length (S (N.to_nat (N.log2 (Npos p)))) (Npos p) k)
                      ltac:(lia)).
    unfold emit_nat. cbn [String.length]. lia.
Qed.

Lemma emit_string_length (s k : string) :
  String.length k < String.length (emit_string s k).
Proof.
  unfold emit_string. pose proof (emit_chars_length s (String quote k)).
  cbn [String.length] in *. lia.
Qed.

Lemma need_length (v : value) :
  forall k, need v + String.length k <= String.length (emit v k).
Proof.
  induction v as [| b | n | s | l IH | m IH] using value_ind'; intros k.
  - cbn. lia.
  - destruct b; cbn; lia.
  - pose proof (emit_int_length n k). cbn [need emit]. lia.
  - pose proof (emit_string_length s k). cbn [need emit]. lia.
  - rewrite emit_array. change (need (JArray l)) with (S (need_elems l)).
    assert (forall k, need_elems l + String.length k <= S (String.length (emit_elems l k)))
      as Hl.
    { clear k. induction IH as [|x l Hx _ IHl]; intros k; [cbn; lia|].
      change (need_elems (x :: l)) with (S (Nat.max (need x) (need_elems l))).
      destruct l as [|y l].
      - specialize (Hx k). cbn [emit_elems need_elems]. lia.
      - change (emit_elems (x :: y :: l) k)
          with (emit x (String "," (emit_elems (y :: l) k))).
        specialize (Hx (String "," (emit_elems (y :: l) k))).
        specialize (IHl k). cbn [String.length] in Hx. lia. }
    specialize (Hl (String "]" k)). cbn [String.length] in *. lia.
  - rewrite emit_object. change (need (JObject m)) with (S (need_members m)).
    assert (forall k, need_members m + String.length k <= S (String.length (emit_members m k)))
      as Hm.
    { clear k. induction IH as [|[key x] m Hx _ IHm]; intros k; [cbn; lia|].
      change (need_members ((key, x) :: m)) with (S (Nat.max (need x) (need_members m))).
      cbn [snd] in Hx.
      destruct m as [|y m].
      - specialize (Hx k).
        change (emit_members [(key, x)] k) with (emit_string key (String ":" (emit x k))).
        pose proof (emit_string_length key (String ":" (emit x k))).
        cbn [String.length need_members] in *. lia.
      - change (emit_members ((key, x) :: y :: m) k)
          with (emit_string key (String ":" (emit x (String "," (emit_members (y :: m) k))))).
        specialize (Hx (String "," (emit_members (y :: m) k))).
        pose proof (emit_string_length key
                      (String ":" (emit x (String "," (emit_members (y :: m) k))))).
        specialize (IHm k). cbn [String.length] in *. lia. }
    specialize (Hm (String "}" k)). cbn [String.length] in *. lia.
Qed.

(** Decoding the text of a value gives the value back. *)
Lemma decode_encode (v : value) : decode (encode v) = Ok v.
Proof.
  unfold decode, encode.
  rewrite parse_emit; [done | | done].
  pose proof (need_length v EmptyString). cbn [String.length] in *. lia.
Qed.

(** *** Indented texts *)






Lemma ends_number_newline (depth : nat) (k : string) : ends_number (newline depth k).
Proof. done. Qed.




Lemma indent_head (depth : nat) (v : value) (k : string) :
  exists c r, emit_indent depth v k = String c r /\ opens_value c.
Proof.
  destruct v as [| b | n | s | [|x l] | [|kv m]];
    try apply (emit_head _ k); eexists _, _; (split; [reflexivity | done]).
Qed.

Lemma skip_space_indent (depth : nat) (v : value) (k : string) :
  skip_space (emit_indent depth v k) = emit_indent depth v k.
Proof.
  destruct (indent_head depth v k) as (c & r & -> & Hs & _). by apply skip_space_head.
Qed.







End json_facts.

(** ** Canonical documents *)

Section canonical_facts.
Import json.

(** Keys in strictly increasing order. *)
Fixpoint increasing (keys : list string) : bool :=
  match keys with
  | [] => true
  | k :: r => forallb (String.ltb k) r && increasing r
  end.

(** A document as a Go [interface{}] holds it: the members of every object
    in strictly increasing key order. *)
Fixpoint canonical (v : value) : bool :=
  match v with
  | JArray l => forallb canonical l
  | JObject m => increasing (map fst m) && forallb (fun kv => canonical (snd kv)) m
  | _ => true
  end.

Lemma ltb_compare (a b : string) : String.ltb a b = true <-> String.compare a b = Lt.
Proof. unfold String.ltb. destruct (String.compare a b); split; congruence. Qed.

Lemma compare_refl (a : string) : String.compare a a = Eq.
Proof.
  induction a as [|c a IH]; [done|].
  cbn [String.compare]. unfold Ascii.compare. by rewrite N.compare_refl.
Qed.

Lemma ltb_le (a b : string) : String.ltb a b = true -> String.le a b.
Proof.
  rewrite ltb_compare. unfold String.le, String.leb. by intros ->.
Qed.

Lemma ltb_ne (a b : string) : String.ltb a b = true -> a <> b.
Proof. rewrite ltb_compare. intros H ->. rewrite compare_refl in H. discriminate. Qed.

Lemma le_ne_ltb (a b : string) : String.le a b -> a <> b -> String.ltb a b = true.
Proof.
  unfold String.le, String.leb. rewrite ltb_compare. intros Hle Hne.
  destruct (String.compare a b) eqn:E; [|done..].
  by apply String.compare_eq_iff in E.
Qed.

Lemma ltb_trans (a b c : string) :
  String.ltb a b = true -> String.ltb b c = true -> String.ltb a c = true.
Proof.
  intros Hab Hbc. apply le_ne_ltb.
  - transitivity b; by apply ltb_le.
  - intros ->. apply (ltb_ne _ _ Hab).
    apply (anti_symm String.le); by apply ltb_le.
Qed.

Lemma ltb_flip (a b : string) :
  String.ltb a b = true -> String.eqb b a = false /\ String.ltb b a = false.
Proof.
  intros Hab. split.
  - apply String.eqb_neq. intros ->. by apply (ltb_ne _ _ Hab).
  - destruct (String.ltb b a) eqn:Hba; [|done].
    exfalso. apply (ltb_ne _ _ Hab).
    apply (anti_symm String.le); by apply ltb_le.
Qed.

Lemma not_ltb (a b : string) :
  String.eqb a b = false -> String.ltb a b = false -> String.ltb b a = true.
Proof.
  intros Hne Hlt. apply String.eqb_neq in Hne.
  destruct (total String.le a b) as [H|H].
  - rewrite le_ne_ltb in Hlt; done.
  - apply le_ne_ltb; [done | congruence].
Qed.

Lemma increasing_cons (k : string) (r : list string) :
  increasing (k :: r) = true <-> Forall (fun k' => String.ltb k k' = true) r /\ increasing r = true.
Proof. cbn [increasing]. by rewrite andb_true_iff, forallb_forall, List.Forall_forall. Qed.

Lemma increasing_snoc (l : list string) (k : string) :
  increasing (l ++ [k]) = true <-> increasing l = true /\ Forall (fun k' => String.ltb k' k = true) l.
Proof.
  induction l as [|a l IH].
  - cbn. split; [by intros _; split|done].
  - change ((a :: l) ++ [k]) with (a :: (l ++ [k])).
    rewrite !increasing_cons, IH, Forall_app, !Forall_cons, Forall_nil. tauto.
Qed.

Lemma increasing_app (l1 l2 : list string) :
  increasing (l1 ++ l2) = true ->
  increasing l1 = true /\ increasing l2 = true
  /\ Forall (fun a => Forall (fun b => String.ltb a b = true) l2) l1.
Proof.
  induction l1 as [|a l1 IH]; [by cbn; intros; split_and!|].
  change ((a :: l1) ++ l2) with (a :: (l1 ++ l2)).
  rewrite !increasing_cons, Forall_app. intros [[H1 H2] H3].
  destruct (IH H3) as (?&?&?). split_and!; try done. by constructor.
Qed.

Lemma increasing_NoDup (l : list string) : increasing l = true -> NoDup l.
Proof.
  induction l as [|a l IH]; [constructor|].
  rewrite increasing_cons. intros [Ha Hl]. constructor; [|by apply IH].
  intros Hin. rewrite Forall_forall in Ha. by apply (ltb_ne a a (Ha _ Hin)).
Qed.

Lemma increasing_sorted (l : list string) : increasing l = true -> StronglySorted String.le l.
Proof.
  induction l as [|a l IH]; [constructor|].
  rewrite increasing_cons. intros [Ha Hl]. constructor; [by apply IH|].
  eapply Forall_impl; [apply Ha|]. intros; by apply ltb_le.
Qed.

(** Sorting strictly increasing keys changes nothing. *)
Lemma merge_sort_increasing (l : list string) :
  increasing l = true -> merge_sort String.le l = l.
Proof.
  intros Hl. apply (StronglySorted_unique String.le).
  - apply StronglySorted_merge_sort; apply _.
  - by apply increasing_sorted.
  - apply merge_sort_Permutation.
Qed.

Lemma merge_sort_members (m : list (string * value)) :
  increasing (map fst m) = true -> merge_sort key_le m = m.
Proof.
  intros Hm. apply (StronglySorted_unique_strong key_le).
  - intros x1 x2 H1 H2 H12 H21.
    rewrite merge_sort_Permutation in H1.
    assert (fst x1 = fst x2) as Hk by (by apply (anti_symm String.le)).
    apply increasing_NoDup in Hm.
    destruct x1 as [k v1], x2 as [k' v2]. cbn in Hk. subst k'. f_equal.
    clear H12 H21. induction m as [|[k0 v0] m IH]; [by apply elem_of_nil in H1|].
    cbn in Hm. apply NoDup_cons in Hm as [Hk0 Hm].
    apply elem_of_cons in H1 as [H1|H1], H2 as [H2|H2]; simplify_eq; auto.
    + exfalso. apply Hk0. change k0 with (fst (k0, v2)). by apply (list_elem_of_fmap_2 fst).
    + exfalso. apply Hk0. change k0 with (fst (k0, v1)). by apply (list_elem_of_fmap_2 fst).
  - apply Sorted_StronglySorted.
    + intros x y z. unfold key_le. apply transitivity.
    + apply Sorted_merge_sort. intros x y. unfold key_le. apply total, _.
  - pose proof (increasing_sorted _ Hm) as H. clear Hm.
    induction m as [|x m IH]; [constructor|].
    cbn [map] in H. apply StronglySorted_inv in H as [Hm Hx].
    constructor; [by apply IH|].
    apply Forall_forall. intros y Hy. rewrite Forall_forall in Hx.
    apply Hx. by apply (list_elem_of_fmap_2 fst).
  - apply merge_sort_Permutation.
Qed.

Definition on_value (g : value -> value) (kv : string * value) : string * value :=
  (fst kv, g (snd kv)).

Lemma map_on_value_id (g : value -> value) (m : list (string * value)) :
  Forall (fun kv => g (snd kv) = snd kv) m -> map (on_value g) m = m.
Proof.
  induction 1 as [|[k v] m Hv _ IH]; [done|].
  cbn [map]. unfold on_value at 1. cbn in *. by rewrite Hv, IH.
Qed.

Lemma map_fst_on_value (g : value -> value) (m : list (string * value)) :
  map fst (map (on_value g) m) = map fst m.
Proof. induction m as [|[k v] m IH]; [done|]. cbn. by rewrite IH. Qed.

Lemma map_set_last (k : string) (v : value) (m : list (string * value)) :
  Forall (fun k' => String.ltb k' k = true) (map fst m) -> map_set k v m = m ++ [(k, v)].
Proof.
  induction m as [|[k' v'] m IH]; [done|].
  cbn [map fst]. rewrite Forall_cons. intros [Hk Hm].
  cbn [map_set]. destruct (ltb_flip _ _ Hk) as [-> ->]. by rewrite IH.
Qed.

Lemma map_set_keys (k : string) (v : value) (m : list (string * value)) :
  increasing (map fst m) = true ->
  increasing (map fst (map_set k v m)) = true
  /\ forall a, Forall (fun k' => String.ltb a k' = true) (map fst m) ->
               String.ltb a k = true ->
               Forall (fun k' => String.ltb a k' = true) (map fst (map_set k v m)).
Proof.
  induction m as [|[k' v'] m IH]; [by cbn; intros; split; [|repeat constructor]|].
  cbn [map fst map_set]. rewrite increasing_cons. intros [Hk' Hm].
  destruct (String.eqb k k') eqn:Heq; [|destruct (String.ltb k k') eqn:Hlt].
  - apply String.eqb_eq in Heq as <-. cbn [map fst]. rewrite increasing_cons. done.
  - cbn [map fst]. rewrite !increasing_cons. split_and!; try done.
    + constructor; [done|]. eapply Forall_impl; [apply Hk'|].
      intros x Hx. by apply (ltb_trans k k' x).
    + intros a Ha Hak. by constructor.
  - destruct (IH Hm) as [IH1 IH2]. cbn [map fst]. rewrite increasing_cons.
    pose proof (not_ltb _ _ Heq Hlt) as Hk.
    split_and!; try done.
    + by apply IH2.
    + intros a Ha Hak. apply Forall_cons in Ha as [? ?]. constructor; [done|]. by apply IH2.
Qed.

Lemma map_set_values (P : value -> Prop) (k : string) (v : value) (m : list (string * value)) :
  P v -> Forall (fun kv => P (snd kv)) m -> Forall (fun kv => P (snd kv)) (map_set k v m).
Proof.
  intros Hv. induction 1 as [|[k' v'] m Hv' Hm IH]; [by repeat constructor|].
  cbn [map_set]. repeat case_match; repeat constructor; done.
Qed.

Lemma canonical_object (m : list (string * value)) :
  canonical (JObject m) = true
  <-> increasing (map fst m) = true /\ Forall (fun kv => canonical (snd kv) = true) m.
Proof.
  cbn [canonical]. by rewrite andb_true_iff, forallb_forall, List.Forall_forall.
Qed.

Lemma canonical_array (l : list value) :
  canonical (JArray l) = true <-> Forall (fun v => canonical v = true) l.
Proof. cbn [canonical]. by rewrite forallb_forall, List.Forall_forall. Qed.

Lemma as_interface_object (m : list (string * value)) :
  as_interface (JObject m)
  = JObject (fold_left (fun acc kv => map_set (fst kv) (snd kv) acc)
                       (map (on_value as_interface) m) []).
Proof.
  cbn [as_interface]. f_equal. generalize (@nil (string * value)).
  induction m as [|kv m IH]; intros acc; [done|]. cbn [fold_left map]. by rewrite IH.
Qed.

(** Whatever was parsed, an [interface{}] holds it canonically. *)
Lemma as_interface_canonical (v : value) : canonical (as_interface v) = true.
Proof.
  induction v as [| b | n | s | l IH | m IH] using value_ind'; try done.
  - cbn [as_interface]. apply canonical_array. apply Forall_fmap.
    eapply Forall_impl; [apply IH|]. done.
  - rewrite as_interface_object.
    assert (Forall (fun kv => canonical (snd kv) = true) (map (on_value as_interface) m)) as Hm.
    { apply Forall_fmap. eapply Forall_impl; [apply IH|]. done. }
    clear IH. revert Hm. generalize (map (on_value as_interface) m). clear m. intros m Hm.
    assert (canonical (JObject []) = true) as Hacc by done.
    revert Hacc. generalize (@nil (string * value)).
    induction Hm as [|[k v] m Hv _ IH]; intros acc Hacc; [done|].
    cbn [fold_left fst snd]. apply IH.
    apply canonical_object in Hacc as [Hk Hvs]. apply canonical_object. split.
    + by apply map_set_keys.
    + by apply (map_set_values (fun v => canonical v = true)).
Qed.

Lemma fold_map_set_increasing (m acc : list (string * value)) :
  increasing (map fst (acc ++ m)) = true ->
  fold_left (fun acc kv => map_set (fst kv) (snd kv) acc) m acc = acc ++ m.
Proof.
  revert acc. induction m as [|[k v] m IH]; intros acc Hm; [by rewrite app_nil_r|].
  cbn [fold_left fst snd]. rewrite map_set_last.
  - rewrite IH; rewrite <- app_assoc; done.
  - rewrite map_app in Hm. apply increasing_app in Hm as (_ & _ & Hm).
    eapply Forall_impl; [apply Hm|]. intros a Ha. by apply Forall_cons in Ha as [? _].
Qed.

(** On a canonical document, the passage through [interface{}], [sortKeys]
    and the encoder's ordering of maps change nothing. *)
Lemma as_interface_id (v : value) : canonical v = true -> as_interface v = v.
Proof.
  induction v as [| b | n | s | l IH | m IH] using value_ind'; try done.
  - rewrite canonical_array. intros Hl. cbn [as_interface]. f_equal.
    induction IH as [|x l Hx _ IHl]; [done|].
    apply Forall_cons in Hl as [? ?]. cbn [map]. by rewrite Hx, IHl.
  - rewrite canonical_object. intros [Hk Hv]. rewrite as_interface_object.
    rewrite map_on_value_id.
    + by rewrite fold_map_set_increasing.
    + rewrite Forall_forall in IH, Hv |- *. intros kv Hkv. by apply IH, Hv.
Qed.

Lemma map_get_app (k : string) (v : value) (m1 m2 : list (string * value)) :
  Forall (fun k' => String.ltb k' k = true) (map fst m1) ->
  map_get k (m1 ++ (k, v) :: m2) = Some v.
Proof.
  induction m1 as [|[k' v'] m1 IH]; cbn [map fst app map_get].
  - by rewrite String.eqb_refl.
  - rewrite Forall_cons. intros [Hk Hm]. destruct (ltb_flip _ _ Hk) as [-> _]. by apply IH.
Qed.

Lemma fold_keys_increasing (whole m2 m1 : list (string * value)) :
  whole = m1 ++ m2 ->
  increasing (map fst whole) = true ->
  fold_left (fun sorted k => map_set k (default JNull (map_get k whole)) sorted)
            (map fst m2) m1 = whole.
Proof.
  revert m1. induction m2 as [|[k v] m2 IH]; intros m1 -> Hm; [by rewrite app_nil_r|].
  cbn [fold_left map fst].
  assert (Forall (fun k' => String.ltb k' k = true) (map fst m1)) as Hk.
  { rewrite map_app in Hm. apply increasing_app in Hm as (_ & _ & Hm).
    eapply Forall_impl; [apply Hm|]. intros a Ha. by apply Forall_cons in Ha as [? _]. }
  rewrite map_get_app by done. cbn [default]. rewrite map_set_last by done.
  apply IH; [by rewrite <- app_assoc | done].
Qed.

Lemma sortKeys_id (v : value) : canonical v = true -> create.sortKeys v = v.
Proof.
  induction v as [| b | n | s | l IH | m IH] using value_ind'; try done.
  - rewrite canonical_array. intros Hl. cbn [create.sortKeys]. f_equal.
    induction IH as [|x l Hx _ IHl]; [done|].
    apply Forall_cons in Hl as [? ?]. cbn [map]. by rewrite Hx, IHl.
  - rewrite canonical_object. intros [Hk Hv]. cbn [create.sortKeys]. f_equal.
    change (map (fun kv => (fst kv, create.sortKeys (snd kv))) m)
      with (map (on_value create.sortKeys) m).
    rewrite map_on_value_id.
    + rewrite merge_sort_increasing by done. by apply fold_keys_increasing.
    + rewrite Forall_forall in IH, Hv |- *. intros kv Hkv. by apply IH, Hv.
Qed.

Lemma in_key_order_id (v : value) : canonical v = true -> in_key_order v = v.
Proof.
  induction v as [| b | n | s | l IH | m IH] using value_ind'; try done.
  - rewrite canonical_array. intros Hl. cbn [in_key_order]. f_equal.
    induction IH as [|x l Hx _ IHl]; [done|].
    apply Forall_cons in Hl as [? ?]. cbn [map]. by rewrite Hx, IHl.
  - rewrite canonical_object. intros [Hk Hv]. cbn [in_key_order]. f_equal.
    change (map (fun kv => (fst kv, in_key_order (snd kv))) m)
      with (map (on_value in_key_order) m).
    rewrite map_on_value_id.
    + by apply merge_sort_members.
    + rewrite Forall_forall in IH, Hv |- *. intros kv Hkv. by apply IH, Hv.
Qed.

End canonical_facts.

(** ** Manifests as JSON *)

Section pack_facts.
Import json store pack create.

Lemma canonicalJSON_tree (p : Pack) :
  canonicalJSON p = Ok (encode (as_interface (Pack_json p))).
Proof.
  unfold canonicalJSON, Marshal. rewrite decode_encode. cbn [mbind result_bind].
  rewrite sortKeys_id, in_key_order_id by apply as_interface_canonical. done.
Qed.

(** An integer that float64 holds exactly. *)
Definition exact_int (n : Z) : bool := (- 2 ^ 53 <=? n)%Z && (n <=? 2 ^ 53)%Z.

(** A document whose numbers float64 holds exactly. *)
Fixpoint exact (v : value) : bool :=
  match v with
  | JNumber n => exact_int n
  | JArray l => forallb exact l
  | JObject m => forallb (fun kv => exact (snd kv)) m
  | _ => true
  end.

(** A [map[string]interface{}] and a [map[string]string] in the form
    [gomap] gives them, the numbers in it exact. *)
Definition map_ok (m : gomap value) : bool :=
  match m with
  | None => true
  | Some l => canonical (JObject l) && exact (JObject l)
  end.

Definition strings_ok (m : gomap string) : bool :=
  match m with
  | None => true
  | Some l => increasing (map fst l)
  end.

Lemma want_int_exact (n : Z) : exact_int n = true -> want_int 64 (Some (JNumber n)) = Ok n.
Proof.
  unfold exact_int, want_int. intros H. apply andb_true_iff in H as [H1 H2].
  apply Z.leb_le in H1, H2.
  replace (_ && _) with true; [done|]. symmetry. apply andb_true_iff. split.
  - apply Z.leb_le. change (2 ^ (64 - 1))%Z with 9223372036854775808%Z.
    change (2 ^ 53)%Z with 9007199254740992%Z in *. lia.
  - apply Z.ltb_lt. change (2 ^ (64 - 1))%Z with 9223372036854775808%Z.
    change (2 ^ 53)%Z with 9007199254740992%Z in *. lia.
Qed.

Lemma mapM_members {A} (f : value -> result A) (g : A -> value) (l : list (string * A)) :
  (forall x, f (g x) = Ok x) ->
  mapM (fun kv => x ← f (snd kv); Ok (fst kv, x)) (map (fun kv => (fst kv, g (snd kv))) l)
  = Ok l.
Proof.
  intros Hf. induction l as [|[k x] l IH]; [done|].
  cbn [map mapM fst snd]. rewrite Hf. cbn [mbind result_bind]. rewrite IH. done.
Qed.

Lemma mapM_elements {A} (f : value -> result A) (g : A -> value) (l : list A) :
  Forall (fun x => f (g x) = Ok x) l -> mapM f (map g l) = Ok l.
Proof.
  induction 1 as [|x l Hx _ IH]; [done|].
  cbn [map mapM]. rewrite Hx. cbn [mbind result_bind]. rewrite IH. done.
Qed.

Lemma map_json_id (l : list (string * value)) :
  canonical (JObject l) = true -> map_json id (Some l) = JObject l.
Proof.
  intros Hl. unfold map_json.
  change (map (fun kv => (fst kv, id (snd kv))) l) with (map (on_value id) l).
  rewrite map_on_value_id by (by apply Forall_forall).
  by apply in_key_order_id.
Qed.

Lemma mapM_as_interface (l : list (string * value)) :
  Forall (fun kv => canonical (snd kv) = true) l ->
  mapM (fun kv => x ← Ok (as_interface (snd kv)); Ok (fst kv, x)) l = Ok l.
Proof.
  induction 1 as [|[k v] l Hv _ IH]; [done|].
  cbn [mapM]. rewrite IH. cbn [fst snd] in *. rewrite (as_interface_id v) by done.
  done.
Qed.

Lemma want_map_values (l : list (string * value)) :
  canonical (JObject l) = true ->
  want_map (fun v => Ok (as_interface v)) (Some (JObject l)) = Ok (Some l).
Proof.
  intros Hl. unfold want_map. rewrite (as_interface_id (JObject l)) by done.
  apply canonical_object in Hl as [_ Hl].
  by rewrite mapM_as_interface.
Qed.

(** Evaluation of the lookups in an object whose keys are known. *)
Ltac run_fold :=
  match goal with
  | |- context [fold_left ?f ?m ?acc] =>
      let r := eval vm_compute in (fold_left f m acc) in
      change (fold_left f m acc) with r
  end.

Ltac run_field :=
  repeat match goal with
    | |- context [field ?n ?m] =>
        let r := eval vm_compute in (field n m) in
        change (field n m) with r
    end.

Ltac run_binds := cbn [want_string want_bool want_object mbind result_bind].

Lemma Prompt_decode (x : Prompt) :
  element (mkPrompt "" "") Prompt_of_members (as_interface (Prompt_json x)) = Ok x.
Proof. destruct x. reflexivity. Qed.

Lemma Output_decode (x : Output) :
  element (mkOutput "" "" "") Output_of_members (as_interface (Output_json x)) = Ok x.
Proof.
  destruct x as [n r c]. unfold Output_json, omitempty. cbn [Output_ContextPack].
  destruct (String.eqb_spec c "") as [->|Hc]; reflexivity.
Qed.

Lemma Input_decode (x : Input) :
  exact_int (Input_Size x) = true ->
  element (mkInput "" "" 0) Input_of_members (as_interface (Input_json x)) = Ok x.
Proof.
  destruct x as [n r z]. cbn [Input_Size]. intros Hz.
  unfold Input_json. rewrite as_interface_object. cbn [map]; unfold on_value; cbn [fst snd].
  cbn [Input_Name Input_ContentRef Input_Size].
  run_fold. cbn [element]. unfold Input_of_members. run_field. run_binds.
  rewrite want_int_exact by done. reflexivity.
Qed.

Lemma Step_decode (x : Step) :
  exact_int (Step_Index x) = true -> map_ok (Step_Parameters x) = true ->
  element (mkStep 0 "" "" None "" false zero_time) Step_of_members
          (as_interface (Step_json x)) = Ok x.
Proof.
  destruct x as [i t tool params o d ts]. cbn [Step_Index Step_Parameters]. intros Hi Hp.
  unfold Step_json. cbn [Step_Index Step_Type Step_Tool Step_Parameters Step_OutputRef
                         Step_Deterministic Step_Timestamp].
  destruct params as [l|].
  - cbn [map_ok] in Hp. apply andb_true_iff in Hp as [Hp _]. rewrite map_json_id by done.
    rewrite as_interface_object. cbn [map]; unfold on_value; cbn [fst snd].
    rewrite (as_interface_id (JObject l)) by done.
    run_fold. cbn [element]. unfold Step_of_members. run_field. run_binds.
    rewrite want_int_exact by done. run_binds.
    rewrite want_map_values by done. reflexivity.
  - rewrite as_interface_object. cbn [map map_json]; unfold on_value; cbn [fst snd].
    run_fold. cbn [element]. unfold Step_of_members. run_field. run_binds.
    rewrite want_int_exact by done. reflexivity.
Qed.

Lemma Model_decode (x : Model) :
  map_ok (Model_Parameters x) = true ->
  element zero_Model Model_of_members (as_interface (Model_json x)) = Ok x.
Proof.
  destruct x as [i params]. cbn [Model_Parameters]. intros Hp.
  unfold Model_json. cbn [Model_Identifier Model_Parameters].
  destruct params as [l|].
  - cbn [map_ok] in Hp. apply andb_true_iff in Hp as [Hp _]. rewrite map_json_id by done.
    rewrite as_interface_object. cbn [map]; unfold on_value; cbn [fst snd].
    rewrite (as_interface_id (JObject l)) by done.
    run_fold. cbn [element]. unfold Model_of_members. run_field. run_binds.
    rewrite want_map_values by done. reflexivity.
  - reflexivity.
Qed.

Lemma want_map_strings (l : list (string * string)) :
  increasing (map fst l) = true ->
  want_map string_of_json (Some (as_interface (map_json JString (Some l)))) = Ok (Some l).
Proof.
  intros Hl. unfold map_json.
  assert (canonical (JObject (map (fun kv => (fst kv, JString (snd kv))) l)) = true) as Hc.
  { apply canonical_object. split.
    - by rewrite map_map, (map_ext _ fst).
    - apply Forall_fmap, Forall_forall. done. }
  rewrite in_key_order_id, as_interface_id by done.
  unfold want_map. rewrite as_interface_id by done.
  by rewrite (mapM_members string_of_json JString).
Qed.

Lemma Environment_decode (x : Environment) :
  strings_ok (Environment_ToolVersions x) = true ->
  element zero_Environment Environment_of_members (as_interface (Environment_json x)) = Ok x.
Proof.
  destruct x as [os runtime versions]. cbn [Environment_ToolVersions]. intros Hv.
  unfold Environment_json.
  cbn [Environment_OS Environment_Runtime Environment_ToolVersions].
  destruct versions as [l|]; [|reflexivity].
  cbn [strings_ok] in Hv. pose proof (want_map_strings l Hv) as Hl.
  rewrite as_interface_object. cbn [map]; unfold on_value; cbn [fst snd].
  assert (exists m, as_interface (map_json JString (Some l)) = JObject m) as [m Hm].
  { unfold map_json. cbn [in_key_order]. rewrite as_interface_object. eauto. }
  rewrite Hm in Hl |- *.
  run_fold. cbn [element]. unfold Environment_of_members. run_field. run_binds.
  rewrite Hl. reflexivity.
Qed.

(** What [field] finds for a member: nothing when it is null. *)
Definition present (v : value) : option value :=
  match v with
  | JNull => None
  | _ => Some v
  end.

Lemma field_skip (name k : string) (v : value) (m : list (string * value)) (acc : option value) :
  String.eqb (lower k) name = false ->
  fold_left (fun acc kv =>
               match snd kv with
               | JNull => acc
               | v => if String.eqb (lower (fst kv)) name then Some v else acc
               end) ((k, v) :: m) acc
  = fold_left (fun acc kv =>
               match snd kv with
               | JNull => acc
               | v => if String.eqb (lower (fst kv)) name then Some v else acc
               end) m acc.
Proof. intros H. cbn [fold_left fst snd]. rewrite H. by destruct v. Qed.

Lemma field_hit (name k : string) (v : value) (m : list (string * value)) (acc : option value) :
  String.eqb (lower k) name = true ->
  fold_left (fun acc kv =>
               match snd kv with
               | JNull => acc
               | v => if String.eqb (lower (fst kv)) name then Some v else acc
               end) ((k, v) :: m) acc
  = fold_left (fun acc kv =>
               match snd kv with
               | JNull => acc
               | v => if String.eqb (lower (fst kv)) name then Some v else acc
               end) m (from_option Some acc (present v)).
Proof. intros H. cbn [fold_left fst snd]. rewrite H. by destruct v. Qed.

Ltac run_members :=
  repeat first [ rewrite field_skip by (vm_compute; reflexivity)
               | rewrite field_hit by (vm_compute; reflexivity) ];
  cbn [fold_left].

Lemma want_string_present (zero s : string) :
  want_string zero (present (as_interface (JString s))) = Ok s.
Proof. reflexivity. Qed.

Lemma as_interface_is_object (m : list (string * value)) :
  exists m', as_interface (JObject m) = JObject m'.
Proof. rewrite as_interface_object. eauto. Qed.

Lemma Model_present (x : Model) :
  map_ok (Model_Parameters x) = true ->
  want_object zero_Model Model_of_members (present (as_interface (Model_json x))) = Ok x.
Proof.
  intros Hx. apply Model_decode in Hx.
  destruct (as_interface_is_object
              [("identifier", JString (Model_Identifier x));
               ("parameters", map_json id (Model_Parameters x))]) as [m Hm].
  unfold Model_json in *. by rewrite Hm in Hx |- *.
Qed.

Lemma Environment_present (x : Environment) :
  strings_ok (Environment_ToolVersions x) = true ->
  want_object zero_Environment Environment_of_members
              (present (as_interface (Environment_json x))) = Ok x.
Proof.
  intros Hx. apply Environment_decode in Hx.
  destruct (as_interface_is_object
              [("os", JString (Environment_OS x)); ("runtime", JString (Environment_Runtime x));
               ("tool_versions", map_json JString (Environment_ToolVersions x))]) as [m Hm].
  unfold Environment_json in *. by rewrite Hm in Hx |- *.
Qed.

Lemma slice_present {A} (F : value -> result A) (f : A -> value) (s : slice A) :
  Forall (fun x => F (as_interface (f x)) = Ok x) (elems s) ->
  want_slice F (present (as_interface (slice_json f s))) = Ok s.
Proof.
  destruct s as [l|]; [|done]. cbn [elems default slice_json]. intros Hl.
  change (as_interface (JArray (map f l))) with (JArray (map as_interface (map f l))).
  cbn [present want_slice]. rewrite map_map.
  by rewrite (mapM_elements F (fun x => as_interface (f x))).
Qed.

(** The manifests for which the model of numbers and maps is exact. *)
Definition Pack_ok (p : Pack) : bool :=
  map_ok (Model_Parameters (Pack_Model p))
  && forallb (fun i => exact_int (Input_Size i)) (elems (Pack_Inputs p))
  && forallb (fun st => exact_int (Step_Index st) && map_ok (Step_Parameters st))
             (elems (Pack_Steps p))
  && strings_ok (Environment_ToolVersions (Pack_Environment p)).

(** Reading a manifest back from its canonical document. *)
Lemma Pack_decode (p : Pack) :
  Pack_ok p = true ->
  element zero_Pack Pack_of_members (as_interface (Pack_json p)) = Ok p.
Proof.
  unfold Pack_ok. rewrite !andb_true_iff, !forallb_forall, <- !List.Forall_forall.
  intros [[[Hmodel Hinputs] Hsteps] Henv].
  apply Model_present in Hmodel. apply Environment_present in Henv.
  pose proof (slice_present (element (mkPrompt "" "") Prompt_of_members) Prompt_json
                (Pack_Prompts p)) as Hprompts.
  pose proof (slice_present (element (mkInput "" "" 0) Input_of_members) Input_json
                (Pack_Inputs p)) as Hin.
  pose proof (slice_present (element (mkStep 0 "" "" None "" false zero_time) Step_of_members)
                Step_json (Pack_Steps p)) as Hst.
  pose proof (slice_present (element (mkOutput "" "" "") Output_of_members) Output_json
                (Pack_Outputs p)) as Hout.
  assert (forall o : option value, from_option Some None o = o) as Hopt by (by intros []).
  destruct p as [version hash created model sys prompts inputs steps outputs env parent].
  cbn [Pack_Model Pack_Prompts Pack_Inputs Pack_Steps Pack_Outputs Pack_Environment] in *.
  unfold Pack_json, omitempty.
  cbn [Pack_Version Pack_Hash Pack_Created Pack_Model Pack_SystemPrompt Pack_Prompts
       Pack_Inputs Pack_Steps Pack_Outputs Pack_Environment Pack_Parent].
  destruct (String.eqb_spec parent "") as [->|Hparent].
  all: rewrite as_interface_object; cbn [map app]; unfold on_value; cbn [fst snd].
  all: repeat match goal with
         | |- context [as_interface ?x] =>
             let v := fresh "v" in remember (as_interface x) as v
         end.
  all: run_fold; cbn [element]; unfold Pack_of_members, field.
  all: run_members; rewrite !Hopt.
  all: subst; rewrite !want_string_present; run_binds.
  all: rewrite Hmodel; run_binds.
  all: rewrite Hprompts by (apply Forall_forall; intros; apply Prompt_decode); run_binds.
  all: rewrite Hin by (eapply Forall_impl; [apply Hinputs|]; intros; by apply Input_decode);
       run_binds.
  all: rewrite Hst; [run_binds|].
  2, 4: eapply Forall_impl; [apply Hsteps|]; intros x Hx;
        apply andb_true_iff in Hx as [? ?]; by apply Step_decode.
  all: rewrite Hout by (apply Forall_forall; intros; apply Output_decode); run_binds.
  all: rewrite Henv; reflexivity.
Qed.

Lemma Unmarshal_canonicalJSON (p : Pack) :
  Pack_ok p = true ->
  exists data, canonicalJSON p = Ok data /\ Unmarshal data = Ok p.
Proof.
  intros Hp. eexists. split; [apply canonicalJSON_tree|].
  unfold Unmarshal. rewrite decode_encode. cbn [mbind result_bind]. by apply Pack_decode.
Qed.




(** *** [json.Unmarshal] of [json.Marshal]: the fields in struct order *)

(** An integer of the range of int64. *)
Definition int64_ok (n : Z) : bool := (- 2 ^ 63 <=? n)%Z && (n <? 2 ^ 63)%Z.




Lemma exact_int_range (n : Z) : exact_int n = true -> int64_ok n = true.
Proof.
  unfold exact_int, int64_ok. rewrite !andb_true_iff, !Z.leb_le, Z.ltb_lt.
  change (2 ^ 53)%Z with 9007199254740992%Z. change (2 ^ 63)%Z with 9223372036854775808%Z. lia.
Qed.











(** *** What [json.Unmarshal] returns is well-formed *)












End pack_facts.

(** ** Blobs and the registry *)

Section blob_facts.
Import json store pack create.

Definition hex_of (data : string) : string := hex.EncodeToString (Sha256.Sum256 data).

Definition path_of (hexStr : string) : string :=
  "objects/" +:+ string_take 2 hexStr +:+ "/" +:+ string_drop 2 hexStr.

Lemma hex_of_hex64 (data : string) : is_hex64 (hex_of data).
Proof.
  split; [apply EncodeToString_length|].
  eapply forallb_weaken; [apply lower_hex_is_hex | apply EncodeToString_lower_hex].
Qed.

Lemma blobPath_hex (h : string) : is_hex64 h -> blobPath (hashPrefix +:+ h) = Ok (path_of h).
Proof.
  intros Hh. unfold blobPath.
  assert (ParseHash (hashPrefix +:+ h) = Ok ("sha256", h)) as -> by (by apply ParseHash_Ok).
  cbn [mbind result_bind]. destruct Hh as [-> _]. done.
Qed.

Lemma path_of_inj (a b : string) : is_hex64 a -> is_hex64 b -> path_of a = path_of b -> a = b.
Proof.
  intros [Ha _] [Hb _].
  destruct a as [|a0 [|a1 a]]; try discriminate.
  destruct b as [|b0 [|b1 b]]; try discriminate.
  unfold path_of. cbn. congruence.
Qed.

Lemma blobPath_HashContent (data : string) :
  blobPath (HashContent data) = Ok (path_of (hex_of data)).
Proof. exact (blobPath_hex _ (hex_of_hex64 data)). Qed.

Lemma WriteBlob_eq (s : Store) (data : string) :
  WriteBlob s data
  = (match objects s !! path_of (hex_of data) with
     | Some _ => s
     | None => set_objects s (<[path_of (hex_of data) := data]> (objects s))
     end, Ok (HashContent data)).
Proof.
  unfold WriteBlob. rewrite blobPath_HashContent. by destruct (objects s !! _).
Qed.

(** A write of [c] leaves the place of another hash [h] as it is. *)
Lemma WriteBlob_other (s : Store) (c h : string) :
  is_hex64 h -> HashContent c <> hashPrefix +:+ h ->
  objects (fst (WriteBlob s c)) !! path_of h = objects s !! path_of h.
Proof.
  intros Hh Hne. rewrite WriteBlob_eq. cbn [fst].
  destruct (objects s !! path_of (hex_of c)); [done|]. cbn [objects set_objects].
  apply lookup_insert_ne. intros Heq. apply Hne.
  apply path_of_inj in Heq; [|apply hex_of_hex64|done]. by rewrite <- Heq.
Qed.

Lemma ReadBlob_stored (s : Store) (data : string) :
  objects s !! path_of (hex_of data) = Some data -> ReadBlob s (HashContent data) = Ok data.
Proof.
  intros Hs. unfold ReadBlob. rewrite blobPath_HashContent. cbn [mbind result_bind]. rewrite Hs.
  by rewrite String.eqb_refl.
Qed.





(** X1: the reference HashContent returns is "sha256:" followed by 64
    lower-case hex characters; ParseHash, ValidateHash and NormalizeHash
    accept it as it is, and NormalizeHash completes its bare hex part to
    it. *)
Theorem HashContent_wellformed (data : string) :
  HashContent data = hashPrefix +:+ hex_of data
  /\ String.length (hex_of data) = 64
  /\ string_forallb is_lower_hex (hex_of data) = true
  /\ ParseHash (HashContent data) = Ok ("sha256", hex_of data)
  /\ ValidateHash (HashContent data) = true
  /\ NormalizeHash (HashContent data) = Ok (HashContent data)
  /\ NormalizeHash (hex_of data) = Ok (HashContent data).
Proof.
  pose proof (hex_of_hex64 data) as Hh.
  split_and!.
  - reflexivity.
  - apply EncodeToString_length.
  - apply EncodeToString_lower_hex.
  - apply ParseHash_HashContent.
  - unfold ValidateHash. by rewrite ParseHash_HashContent.
  - apply NormalizeHash_Ok. exists (hex_of data). by split_and!; [|left|].
  - apply NormalizeHash_Ok. exists (hex_of data). by split_and!; [|right|].
Qed.



(** X3: WriteBlob returns the content hash and leaves a blob at its place;
    reading the returned reference gives the data when the place was free,
    and otherwise what it gave before, since an existing blob file is never
    overwritten; a second write of the same data changes nothing. *)
Theorem WriteBlob_ReadBlob (s : Store) (data : string) :
  let s' := fst (WriteBlob s data) in
  snd (WriteBlob s data) = Ok (HashContent data)
  /\ BlobExists s' (HashContent data) = true
  /\ ReadBlob s' (HashContent data)
     = (if BlobExists s (HashContent data) then ReadBlob s (HashContent data) else Ok data)
  /\ WriteBlob s' data = (s', Ok (HashContent data)).
Proof.
  cbv zeta. rewrite !WriteBlob_eq. cbn [fst snd]. unfold BlobExists.
  rewrite blobPath_HashContent.
  destruct (objects s !! path_of (hex_of data)) as [old|] eqn:Hold.
  - rewrite Hold. rewrite !bool_decide_eq_true_2 by done. done.
  - cbn [objects set_objects]. rewrite lookup_insert_eq.
    rewrite bool_decide_eq_true_2 by done.
    rewrite bool_decide_eq_false_2 by (by intros [? ?]).
    split_and!; try done.
    apply ReadBlob_stored. cbn [objects set_objects]. apply lookup_insert_eq.
Qed.

Lemma blobPath_Ok (ref path : string) :
  blobPath ref = Ok path -> exists h, ref = hashPrefix +:+ h /\ is_hex64 h /\ path = path_of h.
Proof.
  unfold blobPath. destruct (ParseHash ref) as [[a h]|e] eqn:E; [|done].
  apply ParseHash_Ok in E as (_ & -> & Hh). cbn [mbind result_bind].
  destruct Hh as [Hlen Hhex]. rewrite Hlen. cbn. intros [= <-]. exists h. done.
Qed.

Lemma WriteBlob_lookup (s : Store) (data ref path : string) :
  ref <> HashContent data -> blobPath ref = Ok path ->
  objects (fst (WriteBlob s data)) !! path = objects s !! path.
Proof.
  intros Hne Hpath. apply blobPath_Ok in Hpath as (h & -> & Hh & ->).
  apply WriteBlob_other; [done|]. congruence.
Qed.

(** X4: a write leaves every other reference as it was: what ReadBlob and
    BlobExists give for it, and the packs/ and drafts/ directories. *)
Theorem WriteBlob_frame (s : Store) (data ref : string) :
  ref <> HashContent data ->
  let s' := fst (WriteBlob s data) in
  ReadBlob s' ref = ReadBlob s ref
  /\ BlobExists s' ref = BlobExists s ref
  /\ packs s' = packs s /\ drafts s' = drafts s.
Proof.
  intros Hne. cbv zeta. split_and!.
  - unfold ReadBlob. destruct (blobPath ref) as [path|e] eqn:E; [|done].
    cbn [mbind result_bind]. by rewrite (WriteBlob_lookup s data ref path).
  - unfold BlobExists. destruct (blobPath ref) as [path|e] eqn:E; [|done].
    by rewrite (WriteBlob_lookup s data ref path).
  - rewrite WriteBlob_eq. cbn [fst]. by destruct (objects s !! _).
  - rewrite WriteBlob_eq. cbn [fst]. by destruct (objects s !! _).
Qed.

Lemma WriteBlob_frame_witness :
  let ref := "sha256:0000000000000000000000000000000000000000000000000000000000000000" in
  let s' := fst (WriteBlob (mkStore ∅ (Some ∅) ∅) "hello world") in
  ReadBlob s' ref = ReadBlob (mkStore ∅ (Some ∅) ∅) ref
  /\ BlobExists s' ref = BlobExists (mkStore ∅ (Some ∅) ∅) ref
  /\ packs s' = packs (mkStore ∅ (Some ∅) ∅) /\ drafts s' = drafts (mkStore ∅ (Some ∅) ∅).
Proof.
  apply (WriteBlob_frame (mkStore ∅ (Some ∅) ∅) "hello world").
  vm_compute. discriminate.
Defined.

(** X5: a "ctx://" in front of a reference is dropped before anything
    else: the URI resolves as the reference does. *)
Theorem ResolveHash_ctx_uri (s : Store) (ref : string) :
  HasPrefix ref "ctx://" = false ->
  ResolveHash s ("ctx://" +:+ ref) = ResolveHash s ref.
Proof.
  intros Href. unfold ResolveHash.
  assert (stripCtxPrefix ("ctx://" +:+ ref) = ref) as ->.
  { unfold stripCtxPrefix. rewrite prefix_app. apply string_drop_app. }
  assert (stripCtxPrefix ref = ref) as -> by (unfold stripCtxPrefix; by rewrite Href).
  done.
Qed.

Lemma ResolveHash_ctx_uri_witness :
  ResolveHash (mkStore ∅ (Some ∅) ∅) "ctx://abcd" = ResolveHash (mkStore ∅ (Some ∅) ∅) "abcd".
Proof. apply (ResolveHash_ctx_uri (mkStore ∅ (Some ∅) ∅) "abcd"). reflexivity. Defined.

(** Every file name of packs/ is 64 hex characters, as RegisterPack names
    them. *)
Definition packs_ok (s : Store) : Prop := forall name, registered s name -> is_hex64 name.

Definition one_pack : Store := mkStore ∅ (Some {[ hex1 := hashPrefix +:+ hex1 ]}) ∅.

Lemma one_pack_ok : packs_ok one_pack.
Proof.
  intros name (dir & [= <-] & [v Hv]). apply lookup_singleton_Some in Hv as [<- _].
  by vm_compute.
Qed.

(** X6: in a store whose packs/ holds only names of 64 hex characters,
    whatever ResolveHash returns is a well-formed reference. *)
Theorem ResolveHash_valid (s : Store) (ref n : string) :
  packs_ok s -> ResolveHash s ref = Ok n -> ValidateHash n = true.
Proof.
  intros Hs. unfold ResolveHash.
  destruct (NormalizeHash (stripCtxPrefix ref)) as [n'|e] eqn:E.
  { intros [= <-]. apply NormalizeHash_Ok in E as (h & Hh & _ & ->).
    apply ValidateHash_true. eauto. }
  destruct (isHexString (stripCtxPrefix ref)); cbn [negb]; [|done].
  destruct (String.length (stripCtxPrefix ref) <? 4)%nat; [done|].
  unfold ReadDir_packs. destruct (packs s) as [dir|] eqn:Hdir; [|done].
  destruct (filter _ _) as [|name [|name' l]] eqn:Hf; [done| |done].
  cbn [map]. intros [= <-]. apply ValidateHash_true. exists name. split; [done|].
  apply Hs. apply (registered_elem_of s dir name Hdir).
  assert (name ∈ filter (fun name => HasPrefix name (stripCtxPrefix ref) = true)
                        (map fst (map_to_list dir))) as Hin by (rewrite Hf; left).
  by apply list_elem_of_filter in Hin as [_ ?].
Qed.

Lemma ResolveHash_valid_witness :
  ResolveHash one_pack "abcd" = Ok (hashPrefix +:+ hex1)
  /\ ValidateHash (hashPrefix +:+ hex1) = true.
Proof.
  assert (ResolveHash one_pack "abcd" = Ok (hashPrefix +:+ hex1)) as H
    by (vm_compute; reflexivity).
  split; [done|]. exact (ResolveHash_valid one_pack "abcd" _ one_pack_ok H).
Defined.

Lemma ParseHash_inv (hash a h : string) :
  ParseHash hash = Ok (a, h) -> a = "sha256" /\ hash = hashPrefix +:+ h /\ is_hex64 h.
Proof. apply ParseHash_Ok. Qed.

(** X7: a successful RegisterPack adds one file to packs/, named by the
    hex part of the hash, which was not there before, and touches nothing
    else; registering the same hash again fails on the existing file and
    changes nothing; the full hex name resolves to the hash, and packs/
    keeps holding only names of 64 hex characters. *)
Theorem RegisterPack_once (s : Store) (hash : string) (s' : Store) :
  RegisterPack s hash = (s', Ok tt) ->
  exists hexStr,
    ParseHash hash = Ok ("sha256", hexStr)
    /\ ~ registered s hexStr
    /\ (forall name, registered s' name <-> name = hexStr \/ registered s name)
    /\ objects s' = objects s /\ drafts s' = drafts s
    /\ RegisterPack s' hash = (s', Err ErrExist)
    /\ ResolveHash s' hexStr = Ok hash
    /\ (packs_ok s -> packs_ok s').
Proof.
  unfold RegisterPack. destruct (ParseHash hash) as [[a h]|e] eqn:E; [|done].
  apply ParseHash_inv in E as (-> & -> & Hh).
  unfold writeFileIfNotExists. destruct (packs s) as [dir|] eqn:Hdir; [|done].
  destruct (dir !! h) as [old|] eqn:Hold; [done|]. intros [= <-].
  assert (forall name, registered (set_packs s (Some (<[h:=hashPrefix +:+ h]> dir))) name
                       <-> name = h \/ registered s name) as Hreg.
  { intros name. unfold registered. cbn [packs set_packs]. rewrite Hdir. split.
    - intros (? & [= <-] & Hsome). destruct (decide (name = h)) as [|Hne]; [by left|].
      right. rewrite lookup_insert_ne in Hsome by done. eauto.
    - intros [->|(? & [= <-] & Hsome)].
      + eexists. split; [done|]. rewrite lookup_insert_eq. eauto.
      + eexists. split; [done|]. destruct (decide (name = h)) as [->|Hne].
        * rewrite lookup_insert_eq. eauto.
        * by rewrite lookup_insert_ne. }
  exists h. split_and!; try done.
  - intros (? & Hd & Hsome). rewrite Hdir in Hd. injection Hd as <-. rewrite Hold in Hsome.
    by destruct Hsome.
  - cbn [packs set_packs]. by rewrite lookup_insert_eq.
  - unfold ResolveHash. rewrite hex_no_ctxPrefix by apply Hh.
    assert (NormalizeHash h = Ok (hashPrefix +:+ h)) as ->; [|done].
    apply NormalizeHash_Ok. exists h. by split_and!; [|right|].
  - intros Hs name [->|Hname]%Hreg; [done|]. by apply Hs.
Qed.

Lemma run_unit (r : Store * result unit) : is_ok (snd r) = true -> r = (fst r, Ok tt).
Proof. by destruct r as [s [[]|e]]. Qed.

Lemma RegisterPack_once_witness :
  let s := mkStore ∅ (Some ∅) ∅ in
  let s' := fst (RegisterPack s (hashPrefix +:+ hex1)) in
  exists hexStr,
    ParseHash (hashPrefix +:+ hex1) = Ok ("sha256", hexStr)
    /\ ~ registered s hexStr
    /\ (forall name, registered s' name <-> name = hexStr \/ registered s name)
    /\ objects s' = objects s /\ drafts s' = drafts s
    /\ RegisterPack s' (hashPrefix +:+ hex1) = (s', Err ErrExist)
    /\ ResolveHash s' hexStr = Ok (hashPrefix +:+ hex1)
    /\ (packs_ok s -> packs_ok s').
Proof.
  apply (RegisterPack_once (mkStore ∅ (Some ∅) ∅) (hashPrefix +:+ hex1)).
  apply run_unit. vm_compute. reflexivity.
Defined.

End blob_facts.

(** ** Packs in the store *)

Section pack_store.
Import json store pack create.

(** *** CreatePack as a function of the log *)

(** The store after the blobs [cs] are written to it in turn. *)
Definition written (s : Store) (cs : list string) : Store :=
  fold_left (fun s c => fst (WriteBlob s c)) cs s.

Lemma run_inv {A} (s1 s2 : Store) (a b : A) : (s1, Ok a) = (s2, Ok b) -> s1 = s2 /\ a = b.
Proof. by intros [= -> ->]. Qed.

Lemma written_cons (s : Store) (c : string) (cs : list string) :
  written s (c :: cs) = written (fst (WriteBlob s c)) cs.
Proof. reflexivity. Qed.

Lemma written_app (s : Store) (a b : list string) :
  written s (a ++ b) = written (written s a) b.
Proof. apply fold_left_app. Qed.

Lemma wrap_write (context c : string) (s : Store) :
  wrap context (write c) s = (written s [c], Ok (HashContent c)).
Proof. unfold wrap, write, written. cbn [fold_left]. by rewrite WriteBlob_eq. Qed.

Lemma wrapAt_write (context : string) (i : nat) (c : string) (s : Store) :
  wrapAt context i (write c) s = (written s [c], Ok (HashContent c)).
Proof. unfold wrapAt, write, written. cbn [fold_left]. by rewrite WriteBlob_eq. Qed.

Lemma forM_eq {A B} (f : nat -> A -> M B) (g : A -> list string) (h : A -> B) (l : list A) :
  (forall i x s, f i x s = (written s (g x), Ok (h x))) ->
  forall i s, forM f i l s = (written s (concat (map g l)), Ok (map h l)).
Proof.
  intros Hf. induction l as [|x l IH]; intros i s; [reflexivity|].
  cbn [forM map concat]. unfold mbind at 1, M_bind. rewrite Hf.
  unfold mbind at 1, M_bind. rewrite IH. by rewrite written_app.
Qed.

Definition prompt_of (p : LogPrompt) : Prompt :=
  mkPrompt (LogPrompt_Role p) (HashContent (LogPrompt_Content p)).

Definition input_of (i : LogInput) : Input :=
  mkInput (LogInput_Name i) (HashContent (LogInput_Content i))
          (Z.of_nat (String.length (LogInput_Content i))).

Definition step_of (st : LogStep) : Step :=
  mkStep (LogStep_Index st) (LogStep_Type st) (LogStep_Tool st) (LogStep_Parameters st)
         (if String.eqb (LogStep_Output st) "" then "" else HashContent (LogStep_Output st))
         (LogStep_Deterministic st) (LogStep_Timestamp st).

Definition output_of (o : LogOutput) : Output :=
  mkOutput (LogOutput_Name o) (HashContent (LogOutput_Content o)) "".

(** The manifest CreatePack serializes: no hash, no back-reference. *)
Definition manifest (now : Time) (log : ExecutionLog) : Pack :=
  mkPack "0.1" "" now
    (mkModel (LogModel_Identifier (Log_Model log)) (LogModel_Parameters (Log_Model log)))
    (HashContent (Log_SystemPrompt log))
    (Some (map prompt_of (Log_Prompts log))) (Some (map input_of (Log_Inputs log)))
    (Some (map step_of (Log_Steps log))) (Some (map output_of (Log_Outputs log)))
    (mkEnvironment (LogEnvironment_OS (Log_Environment log))
                   (LogEnvironment_Runtime (Log_Environment log))
                   (LogEnvironment_ToolVersions (Log_Environment log)))
    "".

Definition manifest_text (now : Time) (log : ExecutionLog) : string :=
  encode (as_interface (Pack_json (manifest now log))).

(** The blobs CreatePack writes before the manifest, in the order of the
    writes. *)
Definition blobs (log : ExecutionLog) : list string :=
  Log_SystemPrompt log
  :: map LogPrompt_Content (Log_Prompts log)
  ++ map LogInput_Content (Log_Inputs log)
  ++ concat (map (fun st => if String.eqb (LogStep_Output st) "" then []
                            else [LogStep_Output st]) (Log_Steps log))
  ++ map LogOutput_Content (Log_Outputs log).

Lemma concat_singletons {A} (g : A -> string) (l : list A) :
  concat (map (fun x => [g x]) l) = map g l.
Proof. induction l as [|x l IH]; [done|]. cbn. by rewrite IH. Qed.

(** CreatePack, run: the blobs of the log and then the manifest are written,
    and the pack is the manifest with its hash and the back-references. *)
Lemma CreatePack_eq (now : Time) (s : Store) (log : ExecutionLog) :
  let h := HashContent (manifest_text now log) in
  CreatePack now s log
  = (written s (blobs log ++ [manifest_text now log]),
     Ok (set_Outputs (set_Hash (manifest now log) h)
           (Some (map (fun o => set_ContextPack o h) (map output_of (Log_Outputs log)))))).
Proof.
  cbv zeta. unfold CreatePack.
  unfold mbind at 1, M_bind. rewrite wrap_write.
  unfold mbind at 1, M_bind.
  rewrite (forM_eq _ (fun p => [LogPrompt_Content p]) prompt_of)
    by (intros; unfold mbind, M_bind; by rewrite wrapAt_write).
  unfold mbind at 1, M_bind.
  rewrite (forM_eq _ (fun i => [LogInput_Content i]) input_of)
    by (intros; unfold mbind, M_bind; by rewrite wrapAt_write).
  unfold mbind at 1, M_bind.
  rewrite (forM_eq _ (fun st => if String.eqb (LogStep_Output st) "" then []
                                else [LogStep_Output st]) step_of).
  2:{ intros i x s0. unfold mbind, M_bind, step_of.
      destruct (String.eqb (LogStep_Output x) ""); [done|]. by rewrite wrapAt_write. }
  unfold mbind at 1, M_bind.
  rewrite (forM_eq _ (fun o => [LogOutput_Content o]) output_of)
    by (intros; unfold mbind, M_bind; by rewrite wrapAt_write).
  rewrite !concat_singletons.
  change (mkPack "0.1" "" now _ _ _ _ _ _ _ "") with (manifest now log).
  unfold mbind at 1, M_bind. unfold wrap at 1, lift. rewrite canonicalJSON_tree.
  unfold mbind at 1, M_bind. rewrite wrap_write.
  unfold blobs. rewrite <- !written_app. cbn [app]. rewrite <- !app_assoc. done.
Qed.

Lemma WriteBlob_objects (s : Store) (c p d : string) :
  objects s !! p = Some d -> objects (fst (WriteBlob s c)) !! p = Some d.
Proof.
  intros Hp. rewrite WriteBlob_eq. cbn [fst].
  destruct (objects s !! path_of (hex_of c)) eqn:Hc; [done|]. cbn [objects set_objects].
  rewrite lookup_insert_ne; [done|]. congruence.
Qed.

Lemma written_objects (s : Store) (cs : list string) (p d : string) :
  objects s !! p = Some d -> objects (written s cs) !! p = Some d.
Proof.
  revert s. induction cs as [|c cs IH]; intros s Hp; [done|].
  rewrite written_cons. apply IH. by apply WriteBlob_objects.
Qed.

Lemma written_dirs (s : Store) (cs : list string) :
  packs (written s cs) = packs s /\ drafts (written s cs) = drafts s.
Proof.
  revert s. induction cs as [|c cs IH]; intros s; [done|].
  rewrite written_cons. destruct (IH (fst (WriteBlob s c))) as [-> ->].
  rewrite WriteBlob_eq. cbn [fst]. by destruct (objects s !! _).
Qed.

Lemma WriteBlob_exists (s : Store) (c : string) :
  is_Some (objects (fst (WriteBlob s c)) !! path_of (hex_of c)).
Proof.
  rewrite WriteBlob_eq. cbn [fst].
  destruct (objects s !! path_of (hex_of c)) eqn:Hc; [by rewrite Hc|].
  cbn [objects set_objects]. rewrite lookup_insert_eq. eauto.
Qed.

Lemma written_exists (s : Store) (cs : list string) (c : string) :
  c ∈ cs -> is_Some (objects (written s cs) !! path_of (hex_of c)).
Proof.
  revert s. induction cs as [|c' cs IH]; intros s Hc; [by apply elem_of_nil in Hc|].
  rewrite written_cons. apply elem_of_cons in Hc as [->|Hc]; [|by apply IH].
  destruct (WriteBlob_exists s c') as [d Hd].
  exists d. by apply written_objects.
Qed.


Lemma BlobExists_HashContent (s : Store) (c : string) :
  BlobExists s (HashContent c) = bool_decide (is_Some (objects s !! path_of (hex_of c))).
Proof. unfold BlobExists. by rewrite blobPath_HashContent. Qed.



(** A pack as its stored manifest has it: no output carries the
    back-reference. *)
Definition without_refs (p : Pack) : Pack :=
  set_Outputs p (option_map (map (fun o => set_ContextPack o "")) (Pack_Outputs p)).


Lemma HashContent_not_empty (c : string) : HashContent c <> "".
Proof. done. Qed.

Lemma refs_cleared (h : string) (l : list LogOutput) :
  map (fun o => set_ContextPack o "") (map (fun o => set_ContextPack o h) (map output_of l))
  = map output_of l.
Proof. induction l as [|o l IH]; [done|]. cbn [map]. by rewrite IH. Qed.

(** A run of CreatePack on an empty store, for the witnesses below. *)
Definition sample_log : ExecutionLog :=
  mkExecutionLog (mkLogModel "test-model" None) "be brief" [] [] []
    [mkLogOutput "out.txt" "result"]
    (mkLogEnvironment "linux" "go1.22" None).

Definition empty_store : Store := mkStore ∅ (Some ∅) ∅.

Definition sample_store : Store :=
  fst (CreatePack "2026-01-15T10:00:01Z" empty_store sample_log).

Definition pack_of (r : result Pack) : Pack :=
  match r with
  | Ok p => p
  | Err _ => zero_Pack
  end.

Definition sample_pack : Pack :=
  pack_of (snd (CreatePack "2026-01-15T10:00:01Z" empty_store sample_log)).

Lemma sample_run :
  CreatePack "2026-01-15T10:00:01Z" empty_store sample_log = (sample_store, Ok sample_pack).
Proof. unfold sample_store, sample_pack. rewrite CreatePack_eq. cbn [fst snd pack_of]. reflexivity. Qed.






(** *** Required fields *)

Import validate.

Lemma require_nil (present : bool) (name : string) (missing : list string) :
  require present name missing = [] <-> present = true /\ missing = [].
Proof.
  unfold require. destruct present; [by split; [intros ->|intros [_ ->]]|].
  split; [|by intros [? _]]. by destruct missing.
Qed.

Lemma nonempty_true (s : string) : nonempty s = true <-> s <> "".
Proof. unfold nonempty. by destruct (String.eqb_spec s ""). Qed.

Lemma accepted (missing : list string) (e : list string -> failure) :
  (if (0 <? length missing)%nat then Some (e missing) else None) = None <-> missing = [].
Proof. by destruct missing. Qed.

Lemma range_fold_nil {A} (f : list string -> nat -> A -> list string) (P : A -> Prop)
    (l : list A) :
  (forall missing i x, f missing i x = [] <-> missing = [] /\ P x) ->
  forall i missing, range_fold f i l missing = [] <-> missing = [] /\ Forall P l.
Proof.
  intros Hf. induction l as [|x l IH]; intros i missing; cbn [range_fold].
  - split; [by intros ->|by intros [? _]].
  - rewrite IH, Hf, Forall_cons. tauto.
Qed.

Lemma validateLog_None (log : ExecutionLog) :
  validateLog log = None <->
    LogModel_Identifier (Log_Model log) <> "" /\ Log_SystemPrompt log <> ""
    /\ LogEnvironment_OS (Log_Environment log) <> ""
    /\ LogEnvironment_Runtime (Log_Environment log) <> ""
    /\ Forall (fun st => LogStep_Tool st <> "" /\ LogStep_Type st <> "") (Log_Steps log)
    /\ Forall (fun o => LogOutput_Name o <> "") (Log_Outputs log).
Proof.
  unfold validateLog. cbv zeta. rewrite accepted.
  rewrite (range_fold_nil _ (fun o => LogOutput_Name o <> ""));
    [|by intros; rewrite require_nil, nonempty_true; tauto].
  rewrite (range_fold_nil _ (fun st => LogStep_Tool st <> "" /\ LogStep_Type st <> ""));
    [|by intros; rewrite !require_nil, !nonempty_true; tauto].
  rewrite !require_nil, !nonempty_true. tauto.
Qed.

(** X9: validateLog accepts a log exactly when the model identifier, the
    system prompt, the OS and the runtime are non-empty, every step has a
    tool and a type, and every output has a name; prompts and inputs are
    not looked at.  A rejected log is reported with a non-empty list of
    field names. *)
Theorem validateLog_accepts (log : ExecutionLog) :
  (validateLog log = None <->
     LogModel_Identifier (Log_Model log) <> "" /\ Log_SystemPrompt log <> ""
     /\ LogEnvironment_OS (Log_Environment log) <> ""
     /\ LogEnvironment_Runtime (Log_Environment log) <> ""
     /\ Forall (fun st => LogStep_Tool st <> "" /\ LogStep_Type st <> "") (Log_Steps log)
     /\ Forall (fun o => LogOutput_Name o <> "") (Log_Outputs log))
  /\ (validateLog log = None
      \/ exists missing, missing <> [] /\ validateLog log = Some (ErrInvalidLog missing)).
Proof.
  split; [apply validateLog_None|].
  unfold validateLog. cbv zeta.
  match goal with |- (if _ <? length ?l then _ else _)%nat = _ \/ _ => destruct l as [|x r] end;
    [by left|right]. eexists. split; [|reflexivity]. done.
Qed.

(** X10: the pack CreatePack returns passes Validate exactly when the log
    names a model, an OS and a runtime (the version, the creation time and
    the system prompt reference are always set); so it does for every log
    validateLog accepts. *)
Theorem CreatePack_valid (now : Time) (s : Store) (log : ExecutionLog) (s' : Store) (P : Pack) :
  CreatePack now s log = (s', Ok P) -> IsZero now = false ->
  (Validate P = None <->
     LogModel_Identifier (Log_Model log) <> ""
     /\ LogEnvironment_OS (Log_Environment log) <> ""
     /\ LogEnvironment_Runtime (Log_Environment log) <> "")
  /\ (validateLog log = None -> Validate P = None).
Proof.
  intros Hrun Hnow. rewrite CreatePack_eq in Hrun. cbv zeta in Hrun.
  apply run_inv in Hrun as [_ <-].
  assert (Validate (set_Outputs (set_Hash (manifest now log)
                                  (HashContent (manifest_text now log)))
                      (Some (map (fun o => set_ContextPack o (HashContent (manifest_text now log)))
                                 (map output_of (Log_Outputs log))))) = None <->
          LogModel_Identifier (Log_Model log) <> ""
          /\ LogEnvironment_OS (Log_Environment log) <> ""
          /\ LogEnvironment_Runtime (Log_Environment log) <> "") as Hvalid.
  { unfold Validate. cbv zeta. rewrite accepted.
    cbn [set_Outputs set_Hash manifest Pack_Version Pack_Created Pack_Model Pack_SystemPrompt
         Pack_Environment Model_Identifier Environment_OS Environment_Runtime].
    rewrite !require_nil, !nonempty_true, Hnow.
    pose proof (HashContent_not_empty (Log_SystemPrompt log)). intuition done. }
  split; [done|]. intros Hlog. apply Hvalid.
  apply validateLog_None in Hlog. tauto.
Qed.

Lemma CreatePack_valid_witness :
  (Validate sample_pack = None <->
     LogModel_Identifier (Log_Model sample_log) <> ""
     /\ LogEnvironment_OS (Log_Environment sample_log) <> ""
     /\ LogEnvironment_Runtime (Log_Environment sample_log) <> "")
  /\ (validateLog sample_log = None -> Validate sample_pack = None).
Proof.
  apply (CreatePack_valid "2026-01-15T10:00:01Z" empty_store sample_log sample_store).
  - exact sample_run.
  - reflexivity.
Defined.

(** *** What CreatePack stores *)

Lemma ReadBlob_kept (s s' : Store) (ref : string) :
  (forall p d, objects s !! p = Some d -> objects s' !! p = Some d) ->
  BlobExists s ref = true -> ReadBlob s' ref = ReadBlob s ref.
Proof.
  intros Hkeep. unfold BlobExists, ReadBlob.
  destruct (blobPath ref) as [path|e]; [|done]. cbn [mbind result_bind].
  intros [d Hd]%bool_decide_eq_true. by rewrite Hd, (Hkeep _ _ Hd).
Qed.

(** X11: the hash of the pack CreatePack returns is the canonical hash of
    its manifest without the back-references; the pack has version "0.1",
    the given creation time and no parent; every content reference in it is
    the content hash of the corresponding text of the log, an input's size
    is the byte length of its content, and a step without output has an
    empty output reference. *)
Theorem CreatePack_content_addressed (now : Time) (s : Store) (log : ExecutionLog)
    (s' : Store) (P : Pack) :
  CreatePack now s log = (s', Ok P) ->
  CanonicalHash (without_refs P) = Ok (Pack_Hash P)
  /\ Pack_Version P = "0.1" /\ Pack_Created P = now /\ Pack_Parent P = ""
  /\ Pack_SystemPrompt P = HashContent (Log_SystemPrompt log)
  /\ Pack_Prompts P = Some (map prompt_of (Log_Prompts log))
  /\ Pack_Inputs P = Some (map input_of (Log_Inputs log))
  /\ Pack_Steps P = Some (map step_of (Log_Steps log))
  /\ Pack_Outputs P
     = Some (map (fun o => set_ContextPack (output_of o) (Pack_Hash P)) (Log_Outputs log)).
Proof.
  intros Hrun. rewrite CreatePack_eq in Hrun. cbv zeta in Hrun.
  apply run_inv in Hrun as [_ <-].
  cbn [set_Outputs set_Hash manifest Pack_Version Pack_Hash Pack_Created Pack_Parent
       Pack_SystemPrompt Pack_Prompts Pack_Inputs Pack_Steps Pack_Outputs].
  split_and!; try done; [|by rewrite map_map].
  unfold CanonicalHash, without_refs, set_Outputs, set_Hash.
  cbn [Pack_Version Pack_Hash Pack_Created Pack_Model Pack_SystemPrompt Pack_Prompts
       Pack_Inputs Pack_Steps Pack_Outputs Pack_Environment Pack_Parent option_map].
  rewrite refs_cleared. fold (manifest now log). by rewrite canonicalJSON_tree.
Qed.

Lemma CreatePack_content_addressed_witness :
  CanonicalHash (without_refs sample_pack) = Ok (Pack_Hash sample_pack)
  /\ Pack_Version sample_pack = "0.1" /\ Pack_Created sample_pack = "2026-01-15T10:00:01Z"
  /\ Pack_Parent sample_pack = ""
  /\ Pack_SystemPrompt sample_pack = HashContent (Log_SystemPrompt sample_log)
  /\ Pack_Prompts sample_pack = Some (map prompt_of (Log_Prompts sample_log))
  /\ Pack_Inputs sample_pack = Some (map input_of (Log_Inputs sample_log))
  /\ Pack_Steps sample_pack = Some (map step_of (Log_Steps sample_log))
  /\ Pack_Outputs sample_pack
     = Some (map (fun o => set_ContextPack (output_of o) (Pack_Hash sample_pack))
                 (Log_Outputs sample_log)).
Proof.
  exact (CreatePack_content_addressed "2026-01-15T10:00:01Z" empty_store sample_log
           sample_store sample_pack sample_run).
Defined.

(** X12: CreatePack only adds blobs: every blob of the store stays as it is
    and reads as before, packs/ and drafts/ are not touched (the pack is
    not registered), and afterwards every text of the log and the manifest
    itself have a blob at the place of their hash. *)
Theorem CreatePack_keeps_store (now : Time) (s : Store) (log : ExecutionLog) :
  let s' := fst (CreatePack now s log) in
  packs s' = packs s /\ drafts s' = drafts s
  /\ (forall path data, objects s !! path = Some data -> objects s' !! path = Some data)
  /\ (forall ref, BlobExists s ref = true -> ReadBlob s' ref = ReadBlob s ref)
  /\ Forall (fun c => BlobExists s' (HashContent c) = true) (blobs log)
  /\ (forall P, snd (CreatePack now s log) = Ok P -> BlobExists s' (Pack_Hash P) = true).
Proof.
  cbv zeta. rewrite CreatePack_eq. cbv zeta. cbn [fst snd].
  destruct (written_dirs s (blobs log ++ [manifest_text now log])) as [-> ->].
  assert (forall c, c ∈ blobs log ++ [manifest_text now log] ->
                    BlobExists (written s (blobs log ++ [manifest_text now log]))
                               (HashContent c) = true) as Hall.
  { intros c Hc. rewrite BlobExists_HashContent. apply bool_decide_eq_true_2.
    by apply written_exists. }
  split_and!; try done.
  - intros path data. apply written_objects.
  - intros ref. apply ReadBlob_kept. intros p d. apply written_objects.
  - apply Forall_forall. intros c Hc. apply Hall, elem_of_app. by left.
  - intros P [= <-]. apply Hall, elem_of_app. right. by left.
Qed.

End pack_store.

(** ** Drafts *)

Section sharing_facts.
Import json store pack create sharing.
















(** *** Forks *)









End sharing_facts.

(** ** The two texts of a manifest *)

Section manifest_texts.
Import json store pack create.






End manifest_texts.

(** ** Drift between two packs *)

Section diff_facts.
Import json store pack create diff.













Lemma fold_left_app {A B} (g : B -> list A) (f : list A -> B -> list A)
    (l : list B) (acc : list A) :
  (forall acc x, f acc x = acc ++ g x) ->
  fold_left f l acc = acc ++ flat_map g l.
Proof.
  intros Hf. revert acc. induction l as [|x l IH]; intros acc; cbn [fold_left flat_map].
  - by rewrite app_nil_r.
  - by rewrite IH, Hf, <- app_assoc.
Qed.





End diff_facts.

(** ** The delta in the other direction *)

Section delta_swap.
Import graph delta.

Lemma merge_sort_Permutation_eq (l1 l2 : list string) :
  l1 ≡ₚ l2 -> merge_sort String.le l1 = merge_sort String.le l2.
Proof.
  intros Hperm. apply (Sorted_unique String.le).
  - apply (Sorted_merge_sort String.le).
  - apply (Sorted_merge_sort String.le).
  - by rewrite !merge_sort_Permutation.
Qed.

(** The path-ids whose content hash differs are the same from both sides. *)
Lemma differs_swap (B H : gmap string FileSnapshot) :
  map fst (filter (fun kv => differs H kv = true) (map_to_list B))
  ≡ₚ map fst (filter (fun kv => differs B kv = true) (map_to_list H)).
Proof.
  set (Q := fun k : string => status_of B H k = Some Changed).
  transitivity (filter Q (elements (dom B ∪ dom H))).
  - apply (keys_filter_Permutation B (dom B ∪ dom H) (fun kv => differs H kv = true) Q).
    + intros k v Hk. split; [|apply elem_of_union_l; by apply elem_of_dom].
      unfold Q, status_of, differs. cbn [fst snd]. rewrite Hk.
      destruct (H !! k) as [h|]; [|done].
      rewrite (String.eqb_sym (File_ContentSHA256 h)).
      by destruct (String.eqb (File_ContentSHA256 v) (File_ContentSHA256 h)).
    + intros k _. unfold Q, status_of. by destruct (B !! k), (H !! k).
  - symmetry.
    apply (keys_filter_Permutation H (dom B ∪ dom H) (fun kv => differs B kv = true) Q).
    + intros k v Hk. split; [|apply elem_of_union_r; by apply elem_of_dom].
      unfold Q, status_of, differs. cbn [fst snd]. rewrite Hk.
      destruct (B !! k) as [b|]; [|done].
      by destruct (String.eqb (File_ContentSHA256 b) (File_ContentSHA256 v)).
    + intros k _. unfold Q, status_of. by destruct (B !! k), (H !! k).
Qed.

(** X20: when the delta from a base to a head commit is computed, so is the
    delta from the head to the base, and it is the mirror image: the files
    added one way are the files deleted the other way, and the changed
    files are the same. *)
Theorem ComputeDelta_swap (g : Graph) (baseSHA headSHA : string) (r : DeltaReport) :
  ComputeDelta g baseSHA headSHA = Ok r ->
  exists r',
    ComputeDelta g headSHA baseSHA = Ok r'
    /\ Base r' = headSHA /\ Head r' = baseSHA
    /\ FilesAdded r' = FilesDeleted r
    /\ FilesDeleted r' = FilesAdded r
    /\ FilesChanged r' = FilesChanged r.
Proof.
  intros Hr.
  destruct (ComputeDelta_Ok _ _ _ _ Hr)
    as (baseFiles & headFiles & paths & Hb & Hh & Hp & _ & _ & _ & Hc & Ha & Hd).
  destruct (ComputeDelta g headSHA baseSHA) as [r'|e] eqn:Hr'.
  - exists r'. split; [done|].
    destruct (ComputeDelta_Ok _ _ _ _ Hr')
      as (headFiles' & baseFiles' & paths' & Hh' & Hb' & Hp' & HB & HH & _ & Hc' & Ha' & Hd').
    rewrite Hh in Hh'. rewrite Hb in Hb'. rewrite Hp in Hp'.
    injection Hh' as <-. injection Hb' as <-. injection Hp' as <-.
    rewrite Hc, Ha, Hd, Hc', Ha', Hd'. split_and!; [done..|].
    apply merge_sort_Permutation_eq, Permutation_map, differs_swap.
  - exfalso. revert Hr'. unfold ComputeDelta. rewrite Hh, Hb. cbn. rewrite Hp. cbn.
    by destruct (fold_left _ _ _).
Qed.

Definition report_of (r : result DeltaReport) : DeltaReport :=
  match r with
  | Ok d => d
  | Err _ => mkDeltaReport "" "" [] [] [] []
  end.

Lemma result_report (r : result DeltaReport) : is_ok r = true -> r = Ok (report_of r).
Proof. by destruct r. Qed.

Lemma ComputeDelta_swap_witness :
  exists r',
    ComputeDelta two_commits "c2c2c2c2" "c1c1c1c1" = Ok r'
    /\ Base r' = "c2c2c2c2" /\ Head r' = "c1c1c1c1"
    /\ FilesAdded r' = FilesDeleted (report_of (ComputeDelta two_commits "c1c1c1c1" "c2c2c2c2"))
    /\ FilesDeleted r' = FilesAdded (report_of (ComputeDelta two_commits "c1c1c1c1" "c2c2c2c2"))
    /\ FilesChanged r' = FilesChanged (report_of (ComputeDelta two_commits "c1c1c1c1" "c2c2c2c2")).
Proof.
  apply (ComputeDelta_swap two_commits "c1c1c1c1" "c2c2c2c2").
  apply result_report. vm_compute. reflexivity.
Defined.

End delta_swap.

(** ** What the optimizer admits *)

Section optimize_members.
Import graph optimize.

Local Arguments fill_files : simpl never.
Local Arguments fill_symbols : simpl never.
Local Arguments file_candidates : simpl never.
Local Arguments symbol_candidates : simpl never.
Local Arguments included_paths : simpl never.
Local Arguments estimateTokens : simpl never.
Local Arguments isTestFile : simpl never.
Local Arguments scoreFile : simpl never.
Local Arguments scoreSymbol : simpl never.

(** What holds of everything a loop adds holds of everything it returns. *)
Lemma fold_left_members {A B} (P : A -> Prop) (step : list A -> B -> list A)
    (l : list B) (acc : list A) :
  (forall acc b, b ∈ l -> (forall x, x ∈ acc -> P x) -> forall x, x ∈ step acc b -> P x) ->
  (forall x, x ∈ acc -> P x) ->
  forall x, x ∈ fold_left step l acc -> P x.
Proof.
  revert acc. induction l as [|b l IH]; intros acc Hstep Hacc x; cbn [fold_left]; [apply Hacc|].
  apply IH.
  - intros acc' b' Hb'. apply Hstep. by right.
  - apply Hstep; [by left | done].
Qed.

Lemma fold_left_elements {B} (P : string -> Prop) (step : gset string -> B -> gset string)
    (l : list B) (acc : gset string) :
  (forall acc b, b ∈ l -> (forall x, x ∈ acc -> P x) -> forall x, x ∈ step acc b -> P x) ->
  (forall x, x ∈ acc -> P x) ->
  forall x, x ∈ fold_left step l acc -> P x.
Proof.
  revert acc. induction l as [|b l IH]; intros acc Hstep Hacc x; cbn [fold_left]; [apply Hacc|].
  apply IH.
  - intros acc' b' Hb'. apply Hstep. by right.
  - apply Hstep; [by left | done].
Qed.

(** A candidate file is a snapshot that has a path, is neither binary nor
    generated and, unless tests are asked for, is no test file. *)
Definition admissible (pathLookup : gmap string string) (includeTests : bool)
    (f : FileSnapshot) (path : string) : Prop :=
  pathLookup !! File_PathID f = Some path /\ path <> ""
  /\ File_IsBinary f = false /\ File_IsGenerated f = false
  /\ (includeTests = false -> isTestFile path = false).

Lemma file_candidates_spec (pathLookup : gmap string string) (includeTests : bool)
    (taskWords : list string) (files : list FileSnapshot) (c : scoredFile) :
  c ∈ file_candidates pathLookup includeTests taskWords files ->
  sf_snapshot c ∈ files
  /\ admissible pathLookup includeTests (sf_snapshot c) (sf_path c)
  /\ sf_tokens c = estimateTokens (File_ByteSize (sf_snapshot c)).
Proof.
  unfold file_candidates.
  apply (fold_left_members
           (fun x => sf_snapshot x ∈ files
                     /\ admissible pathLookup includeTests (sf_snapshot x) (sf_path x)
                     /\ sf_tokens x = estimateTokens (File_ByteSize (sf_snapshot x))));
    [|by intros x ?%elem_of_nil].
  intros acc f Hf Hacc x.
  destruct (pathLookup !! File_PathID f) as [path|] eqn:Hpath; cbn [default from_option];
    unfold id; [|apply Hacc].
  destruct (String.eqb_spec path "") as [|Hne]; [apply Hacc|].
  destruct (File_IsBinary f) eqn:Hbin; [apply Hacc|].
  destruct (File_IsGenerated f) eqn:Hgenr; [apply Hacc|]. cbn [orb].
  destruct (negb includeTests && isTestFile path) eqn:Htest; [apply Hacc|].
  intros [Hy | ->%list_elem_of_singleton]%elem_of_app; [by apply Hacc|].
  cbn [sf_snapshot sf_path sf_tokens]. split; [done|]. split; [|done].
  split_and!; try done. intros ->. by destruct (isTestFile path).
Qed.

(** The item the loop writes for a candidate file. *)
Definition file_item (c : scoredFile) : PackItem :=
  mkPackItem (sf_path c) (File_Language (sf_snapshot c)) "" "" (sf_tokens c) (sf_reason c).

Lemma fill_files_members (cap : Z) (cs : list scoredFile) (files : list PackItem) (rem : Z)
    (it : PackItem) :
  it ∈ fst (fill_files cap cs files rem) -> it ∈ files \/ exists c, c ∈ cs /\ it = file_item c.
Proof.
  revert files rem. induction cs as [|c cs IH]; intros files rem;
    unfold fill_files; fold fill_files.
  - by left.
  - destruct (_ && _).
    + intros [?|(c' & ? & ?)]%IH; [by left|]. right. exists c'. split; [by right | done].
    + assert (it ∈ files ++ [file_item c] -> it ∈ files \/ exists c', c' ∈ c :: cs /\ it = file_item c')
        as Hlast.
      { intros [?| ->%list_elem_of_singleton]%elem_of_app; [by left|].
        right. exists c. split; [by left | done]. }
      destruct (_ <=? 0)%Z; [exact Hlast|].
      intros [?|(c' & ? & ?)]%IH; [by apply Hlast|]. right. exists c'. split; [by right | done].
Qed.

Lemma symbol_candidates_spec (includedPaths : gset string) (taskWords : list string)
    (symbols : list SymbolRecord) (sc : scoredSymbol) :
  sc ∈ symbol_candidates includedPaths taskWords symbols ->
  ss_symbol sc ∈ symbols /\ Symbol_PathID (ss_symbol sc) ∈ includedPaths
  /\ (10 <= ss_tokens sc)%Z.
Proof.
  unfold symbol_candidates.
  apply (fold_left_members
           (fun x => ss_symbol x ∈ symbols /\ Symbol_PathID (ss_symbol x) ∈ includedPaths
                     /\ (10 <= ss_tokens x)%Z));
    [|by intros x ?%elem_of_nil].
  intros acc sym Hsym Hacc x.
  destruct (bool_decide (Symbol_PathID sym ∈ includedPaths)) eqn:Hin; cbn [negb]; [|apply Hacc].
  apply bool_decide_eq_true in Hin.
  intros [Hy | ->%list_elem_of_singleton]%elem_of_app; [by apply Hacc|].
  cbn [ss_symbol ss_tokens]. split; [done|]. split; [done|].
  match goal with |- context [(?t <? 10)%Z] => destruct (Z.ltb_spec t 10); lia end.
Qed.

(** The item the loop writes for a candidate symbol. *)
Definition symbol_item (pathLookup : gmap string string) (sc : scoredSymbol) : PackItem :=
  mkPackItem (default "" (pathLookup !! Symbol_PathID (ss_symbol sc))) ""
             (Symbol_SymbolID (ss_symbol sc)) (Symbol_FQName (ss_symbol sc)) (ss_tokens sc)
             ("task-relevant-" +:+ Symbol_Kind (ss_symbol sc)).

Lemma fill_symbols_members (pathLookup : gmap string string) (cs : list scoredSymbol)
    (symbols : list PackItem) (rem : Z) (it : PackItem) :
  it ∈ fst (fill_symbols pathLookup cs symbols rem) ->
  it ∈ symbols \/ exists sc, sc ∈ cs /\ it = symbol_item pathLookup sc.
Proof.
  revert symbols rem. induction cs as [|sc cs IH]; intros symbols rem;
    unfold fill_symbols; fold fill_symbols.
  - by left.
  - destruct (_ <? _)%Z.
    + intros [?|(c' & ? & ?)]%IH; [by left|]. right. exists c'. split; [by right | done].
    + assert (it ∈ symbols ++ [symbol_item pathLookup sc] ->
              it ∈ symbols \/ exists c', c' ∈ sc :: cs /\ it = symbol_item pathLookup c') as Hlast.
      { intros [?| ->%list_elem_of_singleton]%elem_of_app; [by left|].
        right. exists sc. split; [by left | done]. }
      destruct (_ <=? 0)%Z; [exact Hlast|].
      intros [?|(c' & ? & ?)]%IH; [by apply Hlast|]. right. exists c'. split; [by right | done].
Qed.

Lemma included_paths_spec (pathLookup : gmap string string) (files : list FileSnapshot)
    (packFiles : list PackItem) (pathID : string) :
  pathID ∈ included_paths pathLookup files packFiles ->
  exists f, f ∈ packFiles /\ default "" (pathLookup !! pathID) = Item_Path f.
Proof.
  unfold included_paths.
  apply (fold_left_elements
           (fun x => exists f, f ∈ packFiles /\ default "" (pathLookup !! x) = Item_Path f));
    [|by intros x ?%elem_of_empty].
  intros acc f Hf Hacc x.
  destruct (find _ files) as [snap|] eqn:Hfind; [|apply Hacc].
  apply find_some in Hfind as [_ Hpath%String.eqb_eq].
  intros [Hy | ->%elem_of_singleton]%elem_of_union; [by apply Hacc|].
  by exists f.
Qed.

(** X21: every file in a generated pack is a file of the commit that has
    a path and is neither binary nor generated, and no test file unless
    tests are asked for; its language is the snapshot's and its estimate
    is the one of the snapshot's byte size.  Every symbol in the pack is a
    symbol of the commit, estimated at 10 tokens or more, and lies in a
    file that is itself in the pack. *)
Theorem GeneratePack_admits (g : Graph) (head : result string) (req : PackRequest)
    (pack : OptimizedPack) :
  GeneratePack g head req = Ok pack ->
  exists files paths,
    ReadRecords (files_jsonl g !! Pack_Commit pack) = Ok files
    /\ ReadRecords (paths_jsonl g) = Ok paths
    /\ Forall (fun it =>
                 exists f, f ∈ files
                           /\ admissible (path_lookup paths) (IncludeTests req) f (Item_Path it)
                           /\ Item_Language it = File_Language f
                           /\ Item_EstimatedTokens it = estimateTokens (File_ByteSize f)
                           /\ Item_SymbolID it = "" /\ Item_SymbolName it = "")
              (Pack_Files pack)
    /\ Forall (fun it =>
                 (exists sym, ReadRecords (symbols_jsonl g !! Pack_Commit pack) = Ok sym
                              /\ exists s, s ∈ sym
                                           /\ Item_SymbolID it = Symbol_SymbolID s
                                           /\ Item_SymbolName it = Symbol_FQName s
                                           /\ Item_Path it
                                              = default "" (path_lookup paths !! Symbol_PathID s))
                 /\ (10 <= Item_EstimatedTokens it)%Z
                 /\ exists f, f ∈ Pack_Files pack /\ Item_Path f = Item_Path it)
              (Pack_Symbols pack).
Proof.
  unfold GeneratePack.
  set (cap := if (TokenCap req <=? 0)%Z then DefaultTokenCap else TokenCap req).
  destruct (if String.eqb (Commit req) "" then _ else _) as [commitSHA|] eqn:Ec; [|done]. cbn.
  destruct (delta.wrap_sha _ commitSHA _) as [files|] eqn:Ef; [|done].
  apply ReadRecords_wrap_sha in Ef. cbn.
  destruct (ReadRecords (paths_jsonl g)) as [paths|] eqn:Ep; [|done]. cbn.
  fold (path_lookup paths).
  set (taskWords := extractTaskWords (ToLower (Task req))).
  set (candidates := file_candidates (path_lookup paths) (IncludeTests req) taskWords files).
  pose proof (fun it => fill_files_members cap (sort_Slice file_less candidates) [] cap it)
    as Hfiles.
  destruct (fill_files cap (sort_Slice file_less candidates) [] cap) as [packFiles rem1].
  cbn [fst] in Hfiles.
  intros [= <-]. cbn [Pack_Commit Pack_Files Pack_Symbols].
  exists files, paths. do 2 (split; [done|]). split.
  - apply Forall_forall. intros it [?%elem_of_nil|(c & Hc & ->)]%Hfiles; [done|].
    unfold sort_Slice in Hc. rewrite merge_sort_Permutation in Hc.
    apply file_candidates_spec in Hc as (Hin & Hadm & Htok).
    exists (sf_snapshot c). by split_and!.
  - destruct (ReadRecords (symbols_jsonl g !! commitSHA)) as [symbols|] eqn:Es;
      [|by constructor].
    destruct (length symbols); [by constructor|].
    apply Forall_forall. intros it [?%elem_of_nil|(sc & Hsc & ->)]%fill_symbols_members; [done|].
    unfold sort_Slice in Hsc. rewrite merge_sort_Permutation in Hsc.
    apply symbol_candidates_spec in Hsc as (Hin & Hinc & Htok).
    apply included_paths_spec in Hinc as (f & Hf & Hpath).
    cbn [symbol_item Item_SymbolID Item_SymbolName Item_Path Item_EstimatedTokens].
    split_and!; [|done|by exists f].
    exists symbols. split; [done|]. by exists (ss_symbol sc).
Qed.

Definition generated (r : result OptimizedPack) : OptimizedPack :=
  match r with
  | Ok pack => pack
  | Err _ => mkOptimizedPack "" "" [] [] 0 0
  end.

Lemma result_generated (r : result OptimizedPack) : is_ok r = true -> r = Ok (generated r).
Proof. by destruct r. Qed.

Definition small_pack : OptimizedPack :=
  generated (GeneratePack small_files_graph (Err ErrNotExist)
                          (mkPackRequest "c1c1c1c1" "fix the parser" 4000 false)).

Lemma GeneratePack_admits_witness :
  exists files paths,
    ReadRecords (files_jsonl small_files_graph !! Pack_Commit small_pack) = Ok files
    /\ ReadRecords (paths_jsonl small_files_graph) = Ok paths
    /\ Forall (fun it =>
                 exists f, f ∈ files
                           /\ admissible (path_lookup paths) false f (Item_Path it)
                           /\ Item_Language it = File_Language f
                           /\ Item_EstimatedTokens it = estimateTokens (File_ByteSize f)
                           /\ Item_SymbolID it = "" /\ Item_SymbolName it = "")
              (Pack_Files small_pack)
    /\ Forall (fun it =>
                 (exists sym, ReadRecords (symbols_jsonl small_files_graph
                                             !! Pack_Commit small_pack) = Ok sym
                              /\ exists s, s ∈ sym
                                           /\ Item_SymbolID it = Symbol_SymbolID s
                                           /\ Item_SymbolName it = Symbol_FQName s
                                           /\ Item_Path it
                                              = default "" (path_lookup paths !! Symbol_PathID s))
                 /\ (10 <= Item_EstimatedTokens it)%Z
                 /\ exists f, f ∈ Pack_Files small_pack /\ Item_Path f = Item_Path it)
              (Pack_Symbols small_pack).
Proof.
  apply (GeneratePack_admits small_files_graph (Err ErrNotExist)
           (mkPackRequest "c1c1c1c1" "fix the parser" 4000 false)).
  apply result_generated. vm_compute. reflexivity.
Defined.

End optimize_members.

(** ** Replay with the built-in executors *)

Section replay_builtin.
Import json store pack create replay.







End replay_builtin.
